(** * Orchestration core of the scraping agent: scheduler, credential
    rotator, proxy rotator and result cache.

    Each module below embeds one source file:
    - [Scheduler]      lib/scheduler.js            (class TaskScheduler)
    - [ApiKeyManager]  the credential rotator      (class ApiKeyManager)
    - [ProxyManager]   lib/managers/proxyManager.js
    - [CacheManager]   lib/managers/cacheManager.js
    [Json] and [Sha256] give the two runtime services the cache derives
    its keys with.  The properties follow the models, one module of
    properties per model.

    Conventions.  Timestamps ([Date.now()]) are integers in milliseconds
    and are passed in explicitly; one synchronous call sees one value of
    the clock.  JavaScript exceptions are values of [result].  Maps keyed
    by strings are [gmap string _]. *)

From Stdlib Require Import ZArith QArith Qround List String Ascii Lia Lqa Sorted.
From Stdlib Require Import DecimalString Permutation.
From stdpp Require Import gmap strings list.

Local Open Scope Z_scope.

(** ** Exceptions *)

Inductive error : Type :=
| Error (message : string)
| TypeError (message : string)
| SyntaxError (message : string).

Inductive result (A : Type) : Type :=
| Ok (a : A)
| Throw (e : error).
Arguments Ok {A} a.
Arguments Throw {A} e.

Definition is_throw {A} (r : result A) : bool :=
  match r with Ok _ => false | Throw _ => true end.

(** JavaScript truthiness of a string and of a number. *)
Definition truthy_str (s : string) : bool :=
  match s with EmptyString => false | _ => true end.

Definition truthy_num (z : Z) : bool := negb (z =? 0).

(** [x || d] on an optional number: [undefined] and [0] both give [d]. *)
Definition num_or (x : option Z) (d : Z) : Z :=
  match x with
  | Some z => if truthy_num z then z else d
  | None => d
  end.

(* ===================================================================== *)
(** * lib/scheduler.js *)
(* ===================================================================== *)

Module Scheduler.

(** What [handler.execute(config)] does on one invocation. *)
Inductive handler_result : Type :=
| Returns (value : string)
| Throws (err : string).

(** A handler is described by what its n-th invocation does. *)
Definition Handler : Type := nat -> handler_result.

Record RetryConfig : Type := {
  max_attempts : nat;
  delay : option Z
}.

Record Task : Type := {
  category : string;
  handler : Handler;
  id : option nat;
  attempts : nat
}.

Inductive event : Type :=
| taskStart (id : nat) (category : string) (attempts : nat)
| taskComplete (id : nat) (category : string) (value : string)
| taskFailed (id : nat) (category : string) (err : string) (attempts : nat).

(** Observable state of one run: emitted events (oldest first), the
    back-off sleeps performed, and the counters behind the effects
    (fresh ids, handler invocations, draws of [Math.random]). *)
Record State : Type := {
  events : list event;
  slept : list Z;
  next_id : nat;
  invocations : nat;
  draws : nat
}.

Definition initial : State :=
  {| events := []; slept := []; next_id := 0; invocations := 0; draws := 0 |}.

(** Settlement of the promise returned to the caller.  [Pending] is a
    promise that is never settled. *)
Inductive outcome : Type :=
| Resolved (value : string)
| Rejected (err : string)
| Pending.

Definition emit (e : event) (st : State) : State :=
  {| events := events st ++ [e]; slept := slept st; next_id := next_id st;
     invocations := invocations st; draws := draws st |}.

Definition maxDelay : Z := 300000.

(** [calculateRetryDelay]: the arithmetic is carried out on exact
    rationals; [random] is the value of [Math.random()]. *)
Definition calculateRetryDelay (cfg : RetryConfig) (attempts : nat) (random : Q) : Z :=
  let baseDelay := num_or (delay cfg) 5000 in
  let exponentialDelay := Z.min (baseDelay * 2 ^ Z.of_nat attempts) maxDelay in
  let jitter := (inject_Z exponentialDelay * (2 # 10) * (random - (1 # 2)))%Q in
  Qfloor (inject_Z exponentialDelay + jitter)%Q.

Section Run.

Variable cfg : RetryConfig.
(** The sequence of values produced by [Math.random()]. *)
Variable random : nat -> Q.

Definition generateTaskId (st : State) : nat * State :=
  (next_id st,
   {| events := events st; slept := slept st; next_id := S (next_id st);
      invocations := invocations st; draws := draws st |}).

Definition invoke (h : Handler) (st : State) : handler_result * State :=
  (h (invocations st),
   {| events := events st; slept := slept st; next_id := next_id st;
      invocations := S (invocations st); draws := draws st |}).

Definition sleep (st : State) (attempts : nat) : State :=
  {| events := events st;
     slept := slept st ++ [calculateRetryDelay cfg attempts (random (draws st))];
     next_id := next_id st; invocations := invocations st;
     draws := S (draws st) |}.

(** [retryTask] and [runTask] call back into [executeTask]; the callee is
    a parameter here and the knot is tied in [executeTask] below. *)
Definition retryTask (executeTask : Task -> State -> outcome * State)
    (task : Task) (st : State) : outcome * State :=
  let st := sleep st (attempts task) in
  executeTask
    {| category := category task; handler := handler task; id := id task;
       attempts := attempts task + 1 |} st.

Definition runTask (executeTask : Task -> State -> outcome * State)
    (task : Task) (st : State) : outcome * State :=
  let tid := default 0%nat (id task) in
  let st := emit (taskStart tid (category task) (attempts task)) st in
  let (r, st) := invoke (handler task) st in
  match r with
  | Returns v => (Resolved v, emit (taskComplete tid (category task) v) st)
  | Throws e =>
      if (attempts task <? max_attempts cfg)%nat
      then retryTask executeTask task st
      else (Rejected e, emit (taskFailed tid (category task) e (attempts task)) st)
  end.

(** [executeTask] for one task on an otherwise idle tier queue with
    [slots] free execution slots.  [queue.add] starts the closure when a
    slot is free and keeps the slot until the promise of [runTask]
    settles; a retry is awaited inside [runTask], so it is added while
    every caller up the chain still holds its slot.  With no slot left
    the closure stays queued and the promise is never settled. *)
Fixpoint executeTask (slots : nat) (task : Task) (st : State) : outcome * State :=
  let (taskId, st) := generateTaskId st in
  let queuedTask :=
    {| category := category task; handler := handler task;
       id := Some taskId; attempts := 0 |} in
  match slots with
  | O => (Pending, st)
  | S free => runTask (executeTask free) queuedTask st
  end.

End Run.

End Scheduler.

(* ===================================================================== *)
(** * The credential rotator (class ApiKeyManager) *)
(* ===================================================================== *)

Module ApiKeyManager.

Record ProviderConfig : Type := {
  primary : option string;
  fallback : option (list string);
  retry_delay : option Z
}.

Record RateLimitInfo : Type := { limitedAt : Z; resetTime : Z }.

Record ErrorInfo : Type := { count : nat; lastError : string; backoffUntil : Z }.

Record KeyState : Type := {
  currentKeyIndex : nat;
  keys : list string;
  rateLimits : gmap string RateLimitInfo;
  errors : gmap string ErrorInfo;
  lastRotation : gmap string Z
}.

Record Manager : Type := {
  config : gmap string ProviderConfig;
  keyStates : gmap string KeyState
}.

(** [[keys.primary, ...(keys.fallback || [])].filter(Boolean)] *)
Definition configured_keys (pc : ProviderConfig) : list string :=
  List.filter truthy_str (option_list (primary pc) ++ default [] (fallback pc)).

Definition initial_state (pc : ProviderConfig) : KeyState :=
  {| currentKeyIndex := 0; keys := configured_keys pc;
     rateLimits := ∅; errors := ∅; lastRotation := ∅ |}.

Definition initializeKeyStates (cfg : gmap string ProviderConfig) : Manager :=
  {| config := cfg; keyStates := initial_state <$> cfg |}.

(** Writing a mutated state object back under its provider. *)
Definition set_state (m : Manager) (provider : string) (st : KeyState) : Manager :=
  {| config := config m; keyStates := <[provider := st]> (keyStates m) |}.

(** [map.get(key)] where [key] may be [undefined] (an index out of range);
    no entry is stored under [undefined]. *)
Definition get_opt {V} (m : gmap string V) (key : option string) : option V :=
  match key with Some k => m !! k | None => None end.

Definition isKeyLimited (m : Manager) (now : Z) (provider : string)
    (key : option string) : result bool :=
  match keyStates m !! provider with
  | None => Ok true
  | Some state =>
      let rateLimitInfo := get_opt (rateLimits state) key in
      let errorInfo := get_opt (errors state) key in
      let lastRot := get_opt (lastRotation state) key in
      if match rateLimitInfo with Some i => now <? resetTime i | None => false end
      then Ok true
      else if match errorInfo with Some i => now <? backoffUntil i | None => false end
      then Ok true
      else
        match config m !! provider with
        | None => Throw (TypeError "Cannot read properties of undefined")
        | Some pc =>
            let minRotationInterval := num_or (retry_delay pc) 1000 in
            Ok match lastRot with
               | Some t => truthy_num t && (now - t <? minRotationInterval)
               | None => false
               end
        end
  end.

Definition with_index (st : KeyState) (i : nat) : KeyState :=
  {| currentKeyIndex := i; keys := keys st; rateLimits := rateLimits st;
     errors := errors st; lastRotation := lastRotation st |}.

Definition with_rotation (st : KeyState) (key : option string) (now : Z) : KeyState :=
  match key with
  | Some k =>
      {| currentKeyIndex := currentKeyIndex st; keys := keys st;
         rateLimits := rateLimits st; errors := errors st;
         lastRotation := <[k := now]> (lastRotation st) |}
  | None => st
  end.

Definition all_unavailable (provider : string) : error :=
  Error ("All API keys for " ++ provider ++ " are currently unavailable").

Definition none_configured (provider : string) : error :=
  Error ("No API keys configured for provider: " ++ provider).

(** The [while (attempts < state.keys.length)] loop of [rotateKey]; [n] is
    the number of iterations left. *)
Fixpoint rotateLoop (n : nat) (m : Manager) (now : Z) (provider : string)
    : result (option string) * Manager :=
  match n with
  | O => (Throw (all_unavailable provider), m)
  | S n' =>
      match keyStates m !! provider with
      | None => (Throw (Error ("Unknown provider: " ++ provider)), m)
      | Some state =>
          let idx := ((currentKeyIndex state + 1) mod length (keys state))%nat in
          let state := with_index state idx in
          let m := set_state m provider state in
          let nextKey := keys state !! idx in
          match isKeyLimited m now provider nextKey with
          | Throw e => (Throw e, m)
          | Ok false => (Ok nextKey, set_state m provider (with_rotation state nextKey now))
          | Ok true => rotateLoop n' m now provider
          end
      end
  end.

Definition rotateKey (m : Manager) (now : Z) (provider : string)
    : result (option string) * Manager :=
  match keyStates m !! provider with
  | None => (Throw (Error ("Unknown provider: " ++ provider)), m)
  | Some state => rotateLoop (length (keys state)) m now provider
  end.

(** The result is [Some key], or [None] for [undefined] (a cursor outside
    the list, which no operation produces). *)
Definition getKey (m : Manager) (now : Z) (provider : string)
    : result (option string) * Manager :=
  match keyStates m !! provider with
  | None => (Throw (none_configured provider), m)
  | Some state =>
      match keys state with
      | [] => (Throw (none_configured provider), m)
      | _ =>
          let currentKey := keys state !! currentKeyIndex state in
          match isKeyLimited m now provider currentKey with
          | Throw e => (Throw e, m)
          | Ok true => rotateKey m now provider
          | Ok false => (Ok currentKey, m)
          end
      end
  end.

Definition markKeyLimited (m : Manager) (now : Z) (provider key : string)
    (reset : option Z) : Manager :=
  match keyStates m !! provider with
  | None => m
  | Some state =>
      set_state m provider
        {| currentKeyIndex := currentKeyIndex state; keys := keys state;
           rateLimits :=
             <[key := {| limitedAt := now; resetTime := num_or reset (now + 60000) |}]>
               (rateLimits state);
           errors := errors state; lastRotation := lastRotation state |}
  end.

Definition markKeyError (m : Manager) (now : Z) (provider key : string)
    (err : string) : Manager :=
  match keyStates m !! provider with
  | None => m
  | Some state =>
      let previous := match errors state !! key with Some i => count i | None => O end in
      let n := S previous in
      set_state m provider
        {| currentKeyIndex := currentKeyIndex state; keys := keys state;
           rateLimits := rateLimits state;
           errors :=
             <[key := {| count := n; lastError := err;
                         backoffUntil := now + Z.min (Z.of_nat n * 5000) 300000 |}]>
               (errors state);
           lastRotation := lastRotation state |}
  end.

Definition resetKeyState (m : Manager) (provider key : string) : Manager :=
  match keyStates m !! provider with
  | None => m
  | Some state =>
      set_state m provider
        {| currentKeyIndex := currentKeyIndex state; keys := keys state;
           rateLimits := delete key (rateLimits state);
           errors := delete key (errors state);
           lastRotation := lastRotation state |}
  end.

(** *** Vocabulary of the selection rule *)

Definition rate_limited (st : KeyState) (now : Z) (k : string) : bool :=
  match rateLimits st !! k with Some i => now <? resetTime i | None => false end.

Definition in_backoff (st : KeyState) (now : Z) (k : string) : bool :=
  match errors st !! k with Some i => now <? backoffUntil i | None => false end.

(** The minimum rotation interval has not yet elapsed since [k] was last
    rotated to. *)
Definition rotated_recently (st : KeyState) (interval now : Z) (k : string) : bool :=
  match lastRotation st !! k with Some t => now - t <? interval | None => false end.

Definition usable (st : KeyState) (interval now : Z) (k : string) : bool :=
  negb (rate_limited st now k) && negb (in_backoff st now k)
  && negb (rotated_recently st interval now k).

Definition usable_at (st : KeyState) (interval now : Z) (i : nat) : bool :=
  match keys st !! i with Some k => usable st interval now k | None => false end.

(** Indices in the order in which a rotation from the cursor visits them. *)
Definition rotation_order (st : KeyState) : list nat :=
  List.map (fun j => ((currentKeyIndex st + j) mod length (keys st))%nat)
           (seq 1 (length (keys st))).

(** Recorded rotation times are real clock readings. *)
Definition stamped (st : KeyState) : Prop :=
  forall k t, lastRotation st !! k = Some t -> t <> 0.

(** One call of the public interface; the clock never reads 0. *)
Inductive step : Manager -> Manager -> Prop :=
| step_getKey m now provider :
    now <> 0 -> step m (snd (getKey m now provider))
| step_rotateKey m now provider :
    now <> 0 -> step m (snd (rotateKey m now provider))
| step_markKeyLimited m now provider key reset :
    step m (markKeyLimited m now provider key reset)
| step_markKeyError m now provider key err :
    step m (markKeyError m now provider key err)
| step_resetKeyState m provider key :
    step m (resetKeyState m provider key).

Inductive reachable (cfg : gmap string ProviderConfig) : Manager -> Prop :=
| reach_init : reachable cfg (initializeKeyStates cfg)
| reach_step m m' : reachable cfg m -> step m m' -> reachable cfg m'.

End ApiKeyManager.

(* ===================================================================== *)
(** * lib/managers/proxyManager.js *)
(* ===================================================================== *)

Module ProxyManager.

Record ProviderEntry : Type := { type : string; proxy_list : list string }.

Record Config : Type := { enabled : bool; providers : list ProviderEntry }.

Record HealthStatus : Type := {
  healthy : bool;
  lastCheck : option Z;
  failCount : nat;
  responseTime : Z;
  lastError : option string
}.

(** [proxies] is a JavaScript [Map], whose iteration order is insertion
    order; it is kept as an association list. *)
Record Manager : Type := {
  config : Config;
  proxies : list (string * list string);
  healthStatus : gmap string HealthStatus;
  lastUsed : gmap string Z;
  providerAssignments : gmap string (list string)
}.

Definition fresh_status : HealthStatus :=
  {| healthy := true; lastCheck := None; failCount := 0; responseTime := 0;
     lastError := None |}.

(** [Map.prototype.set]: an existing key keeps its position. *)
Fixpoint map_set {V} (k : string) (v : V) (l : list (string * V)) : list (string * V) :=
  match l with
  | [] => [(k, v)]
  | (k', v') :: rest =>
      if String.eqb k k' then (k, v) :: rest else (k', v') :: map_set k v rest
  end.

Definition with_health (m : Manager) (h : gmap string HealthStatus) : Manager :=
  {| config := config m; proxies := proxies m; healthStatus := h;
     lastUsed := lastUsed m; providerAssignments := providerAssignments m |}.

Definition with_assignments (m : Manager) (a : gmap string (list string)) : Manager :=
  {| config := config m; proxies := proxies m; healthStatus := healthStatus m;
     lastUsed := lastUsed m; providerAssignments := a |}.

Definition with_lastUsed (m : Manager) (u : gmap string Z) : Manager :=
  {| config := config m; proxies := proxies m; healthStatus := healthStatus m;
     lastUsed := u; providerAssignments := providerAssignments m |}.

Definition initialize (cfg : Config) : Manager :=
  let empty := {| config := cfg; proxies := []; healthStatus := ∅; lastUsed := ∅;
                  providerAssignments := ∅ |} in
  if enabled cfg then
    fold_left
      (fun m provider =>
         {| config := config m;
            proxies := map_set (type provider) (proxy_list provider) (proxies m);
            healthStatus :=
              fold_left (fun h proxy => <[proxy := fresh_status]> h)
                        (proxy_list provider) (healthStatus m);
            lastUsed := lastUsed m;
            providerAssignments := providerAssignments m |})
      (providers cfg) empty
  else empty.

(** [Array.from(this.proxies.values()).flat()] *)
Definition allProxies (m : Manager) : list string := concat (List.map snd (proxies m)).

Definition assignProxiesToProvider (m : Manager) (scrapingProvider : string)
    : list string * Manager :=
  (allProxies m,
   with_assignments m (<[scrapingProvider := allProxies m]> (providerAssignments m))).

(** [this.healthStatus.get(proxy)?.healthy] *)
Definition is_healthy (m : Manager) (proxy : string) : bool :=
  match healthStatus m !! proxy with Some s => healthy s | None => false end.

(** [(this.lastUsed.get(a) || 0)] *)
Definition last_used (m : Manager) (proxy : string) : Z := num_or (lastUsed m !! proxy) 0.

(** [Array.prototype.sort] with the comparator [key(a) - key(b)]: the sort
    is stable, so the result is the stable arrangement by ascending key. *)
Fixpoint insert_by (key : string -> Z) (x : string) (l : list string) : list string :=
  match l with
  | [] => [x]
  | y :: rest => if key x <=? key y then x :: y :: rest else y :: insert_by key x rest
  end.

Fixpoint sort_by (key : string -> Z) (l : list string) : list string :=
  match l with
  | [] => []
  | x :: rest => insert_by key x (sort_by key rest)
  end.

(** The choice among the sorted healthy proxies, [first] being
    [sortedProxies[0]]. *)
Definition select (previousProxy : option string) (first : string)
    (sortedProxies : list string) : string :=
  match previousProxy with
  | Some previous =>
      if truthy_str previous && (1 <? length sortedProxies)%nat then
        match List.find (fun p => negb (String.eqb p previous)) sortedProxies with
        | Some p => if truthy_str p then p else first
        | None => first
        end
      else first
  | None => first
  end.

(** [getProxy].  The function calls itself when no assigned proxy is
    healthy; [fuel] bounds the number of calls and [None] means the bound
    was reached.  The inner [option] is the returned value, [None] for
    [null].  The healthy list is empty exactly when its sorted
    arrangement is, which is what the match inspects. *)
Fixpoint getProxy (fuel : nat) (m : Manager) (now : Z) (scrapingProvider : string)
    (previousProxy : option string) : option (option string * Manager) :=
  match fuel with
  | O => None
  | S fuel' =>
      if negb (enabled (config m)) then Some (None, m)
      else
        let (assignedProxies, m) :=
          match providerAssignments m !! scrapingProvider with
          | Some assigned => (assigned, m)
          | None => assignProxiesToProvider m scrapingProvider
          end in
        let healthyProxies := List.filter (is_healthy m) assignedProxies in
        match sort_by (last_used m) healthyProxies with
        | [] =>
            getProxy fuel'
              (with_assignments m (delete scrapingProvider (providerAssignments m)))
              now scrapingProvider None
        | (first :: _) as sortedProxies =>
            let selectedProxy := select previousProxy first sortedProxies in
            Some (Some selectedProxy,
                  with_lastUsed m (<[selectedProxy := now]> (lastUsed m)))
        end
  end.

Definition updateProxyHealth (m : Manager) (now : Z) (proxy : string)
    (isHealthy : bool) (time : option Z) : Manager :=
  let status := default fresh_status (healthStatus m !! proxy) in
  let status :=
    if isHealthy then
      {| healthy := true; lastCheck := Some now; failCount := 0;
         responseTime :=
           match time with
           | Some t => if truthy_num t then t else responseTime status
           | None => responseTime status
           end;
         lastError := lastError status |}
    else
      {| healthy := (S (failCount status) <? 3)%nat; lastCheck := Some now;
         failCount := S (failCount status); responseTime := responseTime status;
         lastError := lastError status |} in
  with_health m (<[proxy := status]> (healthStatus m)).

Definition markProxyError (m : Manager) (proxy : string) (err : string) : Manager :=
  match healthStatus m !! proxy with
  | Some status =>
      with_health m
        (<[proxy := {| healthy := (S (failCount status) <? 3)%nat;
                       lastCheck := lastCheck status;
                       failCount := S (failCount status);
                       responseTime := responseTime status;
                       lastError := Some err |}]> (healthStatus m))
  | None => m
  end.

(** [checkProxyHealth] once the outcome of the probe request is known:
    [Some t] is a 200 response after [t] ms, [None] any failure. *)
Definition checkProxyHealth (m : Manager) (now : Z) (proxy : string)
    (probe : option Z) : bool * Manager :=
  match probe with
  | Some t => (true, updateProxyHealth m now proxy true (Some t))
  | None => (false, updateProxyHealth m now proxy false None)
  end.

(** One atomic action on the manager: a probe of the health loop, an error
    reported by a consumer, or a selection. *)
Inductive step : Manager -> Manager -> Prop :=
| step_probe m now proxy probe :
    step m (snd (checkProxyHealth m now proxy probe))
| step_error m proxy err :
    step m (markProxyError m proxy err)
| step_select m fuel now consumer previous r m' :
    getProxy fuel m now consumer previous = Some (r, m') ->
    step m m'.

Inductive reachable (cfg : Config) : Manager -> Prop :=
| reach_init : reachable cfg (initialize cfg)
| reach_step m m' : reachable cfg m -> step m m' -> reachable cfg m'.

(** The healthy endpoints a consumer may draw from. *)
Definition candidates (m : Manager) (consumer : string) : list string :=
  List.filter (is_healthy m)
    (default (allProxies m) (providerAssignments m !! consumer)).

(** A previous proxy counts as supplied when it is a non-empty string. *)
Definition supplied (previousProxy : option string) : option string :=
  match previousProxy with
  | Some p => if truthy_str p then Some p else None
  | None => None
  end.

End ProxyManager.

(* ===================================================================== *)
(** * Values and their serialization ([JSON.stringify]) *)
(* ===================================================================== *)

Module Json.

(** JSON values.  Numbers are integers; the members of an object are
    listed in the order in which the object enumerates its properties. *)
#[warnings="-register-all"]
Inductive json : Type :=
| JNull
| JBool (b : bool)
| JNumber (n : Z)
| JString (s : string)
| JArray (items : list json)
| JObject (members : list (string * json)).

Definition dquote : string := String (ascii_of_nat 34) EmptyString.
Definition backslash : string := String (ascii_of_nat 92) EmptyString.

Definition hex_digit (n : nat) : ascii :=
  nth n (list_ascii_of_string "0123456789abcdef") "0"%char.

(** One character of a quoted string. *)
Definition escape_char (c : ascii) : string :=
  let n := nat_of_ascii c in
  if (n =? 34)%nat then backslash ++ dquote
  else if (n =? 92)%nat then backslash ++ backslash
  else if (n =? 8)%nat then backslash ++ "b"
  else if (n =? 12)%nat then backslash ++ "f"
  else if (n =? 10)%nat then backslash ++ "n"
  else if (n =? 13)%nat then backslash ++ "r"
  else if (n =? 9)%nat then backslash ++ "t"
  else if (n <? 32)%nat then
    backslash ++ "u00" ++ String (hex_digit (n / 16)) (String (hex_digit (n mod 16)) "")
  else String c "".

Fixpoint escape (s : string) : string :=
  match s with
  | EmptyString => ""
  | String c rest => escape_char c ++ escape rest
  end.

Definition quote (s : string) : string := dquote ++ escape s ++ dquote.

Definition number_to_string (n : Z) : string :=
  DecimalString.NilZero.string_of_int (Z.to_int n).

Fixpoint join (sep : string) (parts : list string) : string :=
  match parts with
  | [] => ""
  | [x] => x
  | x :: rest => x ++ sep ++ join sep rest
  end.

Fixpoint stringify (v : json) : string :=
  match v with
  | JNull => "null"
  | JBool true => "true"
  | JBool false => "false"
  | JNumber n => number_to_string n
  | JString s => quote s
  | JArray items => "[" ++ join "," (List.map stringify items) ++ "]"
  | JObject members =>
      "{" ++ join "," (List.map (fun kv => (quote (fst kv) ++ ":" ++ stringify (snd kv))%string)
                                members)
          ++ "}"
  end.

(** Two values are the same data when they agree up to the order in which
    objects list their members. *)
#[warnings="-register-all"]
Inductive same_data : json -> json -> Prop :=
| same_null : same_data JNull JNull
| same_bool b : same_data (JBool b) (JBool b)
| same_number n : same_data (JNumber n) (JNumber n)
| same_string s : same_data (JString s) (JString s)
| same_array xs ys :
    Forall2 same_data xs ys -> same_data (JArray xs) (JArray ys)
| same_object xs ys zs :
    Permutation ys zs ->
    Forall2 (fun a b => fst a = fst b /\ same_data (snd a) (snd b)) xs zs ->
    same_data (JObject xs) (JObject ys).

End Json.

(* ===================================================================== *)
(** * SHA-256 ([crypto.createHash('sha256')], FIPS 180-4) *)
(* ===================================================================== *)

Module Sha256.

Definition w32 (x : Z) : Z := Z.land x 4294967295.

Definition rotr (n : Z) (x : Z) : Z :=
  Z.lor (Z.shiftr x n) (w32 (Z.shiftl x (32 - n))).

Definition xor3 (a b c : Z) : Z := Z.lxor a (Z.lxor b c).

Definition Ch (x y z : Z) : Z :=
  Z.lxor (Z.land x y) (Z.land (Z.lxor x 4294967295) z).

Definition Maj (x y z : Z) : Z := xor3 (Z.land x y) (Z.land x z) (Z.land y z).

Definition Sigma0 (x : Z) : Z := xor3 (rotr 2 x) (rotr 13 x) (rotr 22 x).
Definition Sigma1 (x : Z) : Z := xor3 (rotr 6 x) (rotr 11 x) (rotr 25 x).
Definition sigma0 (x : Z) : Z := xor3 (rotr 7 x) (rotr 18 x) (Z.shiftr x 3).
Definition sigma1 (x : Z) : Z := xor3 (rotr 17 x) (rotr 19 x) (Z.shiftr x 10).

(** Round constants: the first 32 bits of the fractional parts of the cube
    roots of the first 64 primes. *)
Definition K : list Z :=
  [
    1116352408; 1899447441; 3049323471; 3921009573; 961987163; 1508970993;
    2453635748; 2870763221; 3624381080; 310598401; 607225278; 1426881987;
    1925078388; 2162078206; 2614888103; 3248222580; 3835390401; 4022224774;
    264347078; 604807628; 770255983; 1249150122; 1555081692; 1996064986;
    2554220882; 2821834349; 2952996808; 3210313671; 3336571891; 3584528711;
    113926993; 338241895; 666307205; 773529912; 1294757372; 1396182291;
    1695183700; 1986661051; 2177026350; 2456956037; 2730485921; 2820302411;
    3259730800; 3345764771; 3516065817; 3600352804; 4094571909; 275423344;
    430227734; 506948616; 659060556; 883997877; 958139571; 1322822218;
    1537002063; 1747873779; 1955562222; 2024104815; 2227730452; 2361852424;
    2428436474; 2756734187; 3204031479; 3329325298 ].

Record digest : Type := {
  ha : Z; hb : Z; hc : Z; hd : Z; he : Z; hf : Z; hg : Z; hh : Z
}.

(** Initial hash value: fractional parts of the square roots of the first
    8 primes. *)
Definition initial : digest :=
  {| ha := 1779033703; hb := 3144134277; hc := 1013904242; hd := 2773480762;
     he := 1359893119; hf := 2600822924; hg := 528734635; hh := 1541459225 |}.

Definition bytes_of_string (s : string) : list Z :=
  List.map (fun c => Z.of_nat (nat_of_ascii c)) (list_ascii_of_string s).

(** Big-endian bytes of [x], [n] of them. *)
Fixpoint be_bytes (n : nat) (x : Z) : list Z :=
  match n with
  | O => []
  | S n' => Z.land (Z.shiftr x (8 * Z.of_nat n')) 255 :: be_bytes n' x
  end.

(** Padding to a multiple of 64 bytes: a 1 bit, zeros, the bit length. *)
Definition pad (msg : list Z) : list Z :=
  let len := Z.of_nat (length msg) in
  let zeros := Z.to_nat ((55 - len) mod 64) in
  msg ++ [128] ++ repeat 0 zeros ++ be_bytes 8 (8 * len).

Fixpoint words (n : nat) (bytes : list Z) : list Z :=
  match n, bytes with
  | S n', b0 :: b1 :: b2 :: b3 :: rest =>
      (b0 * 16777216 + b1 * 65536 + b2 * 256 + b3) :: words n' rest
  | _, _ => []
  end.

(** Message schedule: [n] more words after those in [w]. *)
Fixpoint schedule (n : nat) (w : list Z) : list Z :=
  match n with
  | O => w
  | S n' =>
      let t := length w in
      let at_ i := nth (t - i) w 0 in
      schedule n' (w ++ [w32 (sigma1 (at_ 2%nat) + at_ 7%nat + sigma0 (at_ 15%nat) + at_ 16%nat)])
  end.

Definition round (s : digest) (kw : Z * Z) : digest :=
  let t1 := hh s + Sigma1 (he s) + Ch (he s) (hf s) (hg s) + fst kw + snd kw in
  let t2 := Sigma0 (ha s) + Maj (ha s) (hb s) (hc s) in
  {| ha := w32 (t1 + t2); hb := ha s; hc := hb s; hd := hc s;
     he := w32 (hd s + t1); hf := he s; hg := hf s; hh := hg s |}.

Definition compress (h : digest) (block : list Z) : digest :=
  let w := schedule 48 (words 16 block) in
  let s := fold_left round (combine K w) h in
  {| ha := w32 (ha h + ha s); hb := w32 (hb h + hb s); hc := w32 (hc h + hc s);
     hd := w32 (hd h + hd s); he := w32 (he h + he s); hf := w32 (hf h + hf s);
     hg := w32 (hg h + hg s); hh := w32 (hh h + hh s) |}.

(** [n] bounds the number of 64-byte blocks. *)
Fixpoint blocks (n : nat) (h : digest) (bytes : list Z) : digest :=
  match n, bytes with
  | S n', _ :: _ => blocks n' (compress h (firstn 64 bytes)) (skipn 64 bytes)
  | _, _ => h
  end.

Definition hash (s : string) : digest :=
  let padded := pad (bytes_of_string s) in
  blocks (length padded) initial padded.

Definition nibble (x : Z) (shift : Z) : ascii :=
  Json.hex_digit (Z.to_nat (Z.land (Z.shiftr x shift) 15)).

(** Eight hexadecimal digits of a word, followed by [rest]. *)
Definition hex8 (x : Z) (rest : string) : string :=
  String (nibble x 28) (String (nibble x 24) (String (nibble x 20) (String (nibble x 16)
  (String (nibble x 12) (String (nibble x 8) (String (nibble x 4) (String (nibble x 0)
  rest))))))).

Definition hex (d : digest) : string :=
  hex8 (ha d) (hex8 (hb d) (hex8 (hc d) (hex8 (hd d)
  (hex8 (he d) (hex8 (hf d) (hex8 (hg d) (hex8 (hh d) ""))))))).

(** [createHash('sha256').update(s).digest('hex')] *)
Definition sha256hex (s : string) : string := hex (hash s).

End Sha256.

(* ===================================================================== *)
(** * lib/managers/cacheManager.js *)
(* ===================================================================== *)

Module CacheManager.
Import Json.

(** Key material handed to the cache: a string, a value that
    [JSON.stringify] serializes, or [undefined]. *)
Inductive key_material : Type :=
| KString (s : string)
| KValue (v : json)
| KUndefined.

Record Config : Type := {
  enabled : bool;
  type : string;
  ttl : option Z;
  (** [categories[c].ttl] for the categories that configure one *)
  categories : gmap string Z
}.

(** A row of the [cache] table of the embedded store. *)
Record Row : Type := {
  value : string;
  category : string;
  expires_at : Z;
  created_at : Z
}.

(** A key held by the networked cache service together with the instant
    at which the service expires it. *)
Record Entry : Type := { payload : string; expire_at : Z }.

Record Manager : Type := {
  config : Config;
  ready : bool;
  rows : gmap string Row;
  remote : gmap string Entry
}.

Definition with_rows (m : Manager) (t : gmap string Row) : Manager :=
  {| config := config m; ready := ready m; rows := t; remote := remote m |}.

Definition with_remote (m : Manager) (r : gmap string Entry) : Manager :=
  {| config := config m; ready := ready m; rows := rows m; remote := r |}.

Definition bind {A B} (r : result A) (k : A -> result B) : result B :=
  match r with Ok a => k a | Throw e => Throw e end.

Notation "x <- r ;; k" := (bind r (fun x => k))
  (at level 100, r at next level, right associativity).

(** [try { body } catch (error) { handler }] *)
Definition try_catch {A} (body : result A) (handler : error -> result A) : result A :=
  match body with Ok a => Ok a | Throw e => handler e end.

(** A call into the backend; [fault] is the error it raises, if any. *)
Definition backend {A} (fault : option error) (answer : A) : result A :=
  match fault with Some e => Throw e | None => Ok answer end.

(** The service's [GET]: an expired key is gone. *)
Definition remote_get (store : gmap string Entry) (now : Z) (key : string) : option string :=
  match store !! key with
  | Some e => if now <? expire_at e then Some (payload e) else None
  | None => None
  end.

(** The service's [SET key value EX seconds]. *)
Definition remote_set (fault : option error) (store : gmap string Entry) (now : Z)
    (key text : string) (seconds : Z) : result (gmap string Entry) :=
  up <- backend fault tt ;;
  if 0 <? seconds
  then Ok (<[key := {| payload := text; expire_at := now + seconds * 1000 |}]> store)
  else Throw (Error "ERR invalid expire time in 'set' command").

Definition is_remote (m : Manager) : bool := String.eqb (type (config m)) "redis".

Definition off (m : Manager) : bool := negb (ready m) || negb (enabled (config m)).

Definition generateKey (category : string) (data : key_material) : result string :=
  let input :=
    match data with
    | KString s => Some s
    | KValue v => Some (stringify v)
    | KUndefined => None
    end in
  match input with
  | Some text => Ok (category ++ ":" ++ Sha256.sha256hex text)%string
  | None =>
      Throw (TypeError "The data argument must be of type string or an instance of Buffer, TypedArray, or DataView. Received undefined")
  end.

Definition getTTL (cfg : Config) (category : string) : Z :=
  num_or (categories cfg !! category) (num_or (ttl cfg) 3600).

Section Get.

(** [JSON.parse], which throws a [SyntaxError] on malformed text. *)
Variable JSON_parse : string -> result json.

(** [get]: [JNull] is the [null] of a miss. *)
Definition get (m : Manager) (now : Z) (fault : option error)
    (category : string) (key : key_material) : result json :=
  if off m then Ok JNull
  else
    cacheKey <- generateKey category key ;;
    try_catch
      (if is_remote m then
         value <- backend fault (remote_get (remote m) now cacheKey) ;;
         match value with
         | Some text => if truthy_str text then JSON_parse text else Ok JNull
         | None => Ok JNull
         end
       else
         row <- backend fault (rows m !! cacheKey) ;;
         match row with
         | None => Ok JNull
         | Some row =>
             if expires_at row <? now then Ok JNull else JSON_parse (value row)
         end)
      (fun _ => Ok JNull).

End Get.

Definition set (m : Manager) (now : Z) (fault : option error)
    (category : string) (key : key_material) (v : json) (customTTL : option Z)
    : result bool * Manager :=
  if off m then (Ok false, m)
  else
    match generateKey category key with
    | Throw e => (Throw e, m)
    | Ok cacheKey =>
        let ttl := num_or customTTL (getTTL (config m) category) in
        let expiresAt := now + ttl * 1000 in
        let written :=
          if is_remote m then
            store <- remote_set fault (remote m) now cacheKey (stringify v) ttl ;;
            Ok (with_remote m store)
          else
            done <- backend fault tt ;;
            Ok (with_rows m
                  (<[cacheKey := {| value := stringify v; category := category;
                                    expires_at := expiresAt; created_at := now |}]>
                     (rows m))) in
        match written with
        | Ok m' => (Ok true, m')
        | Throw _ => (Ok false, m)
        end
    end.

Definition delete (m : Manager) (fault : option error)
    (category : string) (key : key_material) : result bool * Manager :=
  if off m then (Ok false, m)
  else
    match generateKey category key with
    | Throw e => (Throw e, m)
    | Ok cacheKey =>
        match backend fault tt with
        | Ok _ =>
            (Ok true,
             if is_remote m
             then with_remote m (base.delete cacheKey (remote m))
             else with_rows m (base.delete cacheKey (rows m)))
        | Throw _ => (Ok false, m)
        end
    end.

(** [clear]: on the service the keys matching [category:*] are deleted,
    in the table the rows of the category. *)
Definition clear (m : Manager) (fault : option error) (category : string)
    : result bool * Manager :=
  if off m then (Ok false, m)
  else
    match backend fault tt with
    | Ok _ =>
        (Ok true,
         if is_remote m
         then with_remote m
                (filter (fun kv => String.prefix (category ++ ":")%string (fst kv) = false)
                        (remote m))
         else with_rows m
                (filter (fun kv => CacheManager.category (snd kv) <> category) (rows m)))
    | Throw _ => (Ok false, m)
    end.

(** The periodic sweep of the embedded store. *)
Definition cleanup (m : Manager) (now : Z) (fault : option error) : Manager :=
  if off m then m
  else if is_remote m then m
  else match backend fault tt with
       | Ok _ => with_rows m (filter (fun kv => ~ expires_at (snd kv) < now) (rows m))
       | Throw _ => m
       end.

(** What the active backend holds under a derived key: the serialized
    payload and its expiry instant. *)
Definition stored (m : Manager) (cacheKey : string) : option (string * Z) :=
  if is_remote m
  then (fun e => (payload e, expire_at e)) <$> remote m !! cacheKey
  else (fun r => (value r, expires_at r)) <$> rows m !! cacheKey.

End CacheManager.

(* ===================================================================== *)
(** * lib/scheduler.js: submission, scheduled entries, shutdown *)
(* ===================================================================== *)

Module SchedulerEntries.

(** What [task.schedule] denotes: absent (or otherwise falsy), a value
    that [new Date(...).getTime()] reads as the instant [t], or a value
    it cannot read ([NaN]). *)
Inductive fire_time : Type :=
| Unscheduled
| FireAt (t : Z)
| InvalidDate.

(** The object handed to [schedule]. *)
Record Request : Type := {
  category : option string;
  handler : option Scheduler.Handler;
  priority : option string;
  schedule_at : fire_time;
  repeat : option string
}.

(** An entry of [scheduledTasks]: [{ timeout, task }] or [{ cronJob, task }]. *)
Inductive Scheduled : Type :=
| OneShot (task : Request)
| Recurring (task : Request).


(** A tier queue between two calls: its concurrency, the slots held by
    runs that wait for a retry queued behind them, the closures that are
    queued and not started, and whether the queue is paused. *)
Record Tier : Type := {
  concurrency : nat;
  held : nat;
  waiting : nat;
  is_paused : bool
}.

(** [new PQueue({ concurrency, autoStart: true })] *)
Definition fresh_tier (c : nat) : Tier :=
  {| concurrency := c; held := 0; waiting := 0; is_paused := false |}.

(** The condition under which [queue.onIdle()] resolves: nothing runs and
    nothing is queued. *)
Definition idle (q : Tier) : bool := (held q =? 0)%nat && (waiting q =? 0)%nat.

(** The slots in which [queue.add] starts a closure at once. *)
Definition free_slots (q : Tier) : nat :=
  if is_paused q then O else (concurrency q - held q)%nat.

(** [queue.pause()] *)
Definition pause (q : Tier) : Tier :=
  {| concurrency := concurrency q; held := held q; waiting := waiting q;
     is_paused := true |}.

(** What a submission leaves on its queue.  A settled promise has given
    back every slot it took.  A promise that is never settled belongs to
    a closure that stays queued, behind the runs of its own chain, which
    hold every slot that was free and wait for it. *)
Definition occupy (q : Tier) (o : Scheduler.outcome) : Tier :=
  match o with
  | Scheduler.Pending =>
      {| concurrency := concurrency q; held := (held q + free_slots q)%nat;
         waiting := S (waiting q); is_paused := is_paused q |}
  | _ => q
  end.

(** The scheduler between two calls, each call being followed to the
    point where nothing more happens without another call: the run state
    of [Scheduler], the tier queues and their names in the order in which
    the map [queues] enumerates them, the insertion-ordered map
    [scheduledTasks], and the runtime's pending timeouts and started cron
    jobs, each holding the task its callback closes over. *)
Record Sched : Type := {
  run : Scheduler.State;
  queues : gmap string Tier;
  names : list string;
  scheduledTasks : list (nat * Scheduled);
  timers : gmap nat Request;
  jobs : gmap nat Request
}.

(** The constructor; [tiers] lists [name] and [max_concurrent] of
    [config.priorities].  A name listed again replaces the queue and
    keeps its place in the enumeration. *)
Definition create (tiers : list (string * nat)) : Sched :=
  {| run := Scheduler.initial;
     queues := fold_left (fun qs t => <[fst t := fresh_tier (snd t)]> qs) tiers ∅;
     names := fold_left (fun l t => if bool_decide (fst t ∈ l) then l else l ++ [fst t])
                        tiers [];
     scheduledTasks := []; timers := ∅; jobs := ∅ |}.

Definition with_run (s : Sched) (st : Scheduler.State) : Sched :=
  {| run := st; queues := queues s; names := names s;
     scheduledTasks := scheduledTasks s; timers := timers s; jobs := jobs s |}.

Definition with_queues (s : Sched) (qs : gmap string Tier) : Sched :=
  {| run := run s; queues := qs; names := names s;
     scheduledTasks := scheduledTasks s; timers := timers s; jobs := jobs s |}.

(** [Map.prototype.get] and [delete] on the insertion-ordered map. *)
Fixpoint entry_get (l : list (nat * Scheduled)) (taskId : nat) : option Scheduled :=
  match l with
  | [] => None
  | (i, e) :: rest => if (i =? taskId)%nat then Some e else entry_get rest taskId
  end.

Definition entry_delete (l : list (nat * Scheduled)) (taskId : nat)
    : list (nat * Scheduled) :=
  List.filter (fun ie => negb (fst ie =? taskId)%nat) l.

(** [Map.prototype.set] for a key the map may already hold. *)
Fixpoint entry_set (l : list (nat * Scheduled)) (taskId : nat) (e : Scheduled)
    : list (nat * Scheduled) :=
  match l with
  | [] => [(taskId, e)]
  | (i, e') :: rest =>
      if (i =? taskId)%nat then (i, e) :: rest else (i, e') :: entry_set rest taskId e
  end.

Definition truthy_opt (x : option string) : bool :=
  match x with Some s => truthy_str s | None => false end.

Definition validateTask (s : Sched) (task : Request) : result unit :=
  if negb (truthy_opt (category task)) then Throw (Error "Task category is required")
  else if negb (bool_decide (is_Some (handler task)))
  then Throw (Error "Task handler is required")
  else
    match priority task with
    | Some p =>
        if truthy_str p && negb (bool_decide (is_Some (queues s !! p)))
        then Throw (Error ("Invalid priority level: " ++ p))
        else Ok tt
    | None => Ok tt
    end.

(** [task.priority || 'medium'] *)
Definition tier_of (task : Request) : string :=
  match priority task with
  | Some p => if truthy_str p then p else "medium"
  | None => "medium"
  end.

(** The task as [runTask] uses it.  A validated task has a category and a
    handler; without a handler [handler.execute] is a [TypeError] raised
    inside the [try] of [runTask]. *)
Definition to_task (task : Request) : Scheduler.Task :=
  {| Scheduler.category := default "undefined" (category task);
     Scheduler.handler :=
       default (fun _ => Scheduler.Throws "TypeError: Cannot read properties of undefined (reading 'execute')")
               (handler task);
     Scheduler.id := None;
     Scheduler.attempts := 0 |}.

Section Entries.

Variable cfg : Scheduler.RetryConfig.
Variable random : nat -> Q.
(** [cron.validate] of node-cron. *)
Variable cron_validate : string -> bool.

(** [executeTask] with the tier queue looked up: a missing queue makes
    [queue.add] a [TypeError], which is logged and rethrown; otherwise
    the task runs in the slots that are free on its queue, none on a
    paused queue. *)
Definition executeTask (s : Sched) (task : Request) : Scheduler.outcome * Sched :=
  match queues s !! tier_of task with
  | None =>
      let (taskId, st) := Scheduler.generateTaskId (run s) in
      (Scheduler.Rejected "TypeError: Cannot read properties of undefined (reading 'add')",
       with_run s st)
  | Some q =>
      let (o, st) :=
        Scheduler.executeTask cfg random (free_slots q) (to_task task) (run s) in
      (o, with_queues (with_run s st) (<[tier_of task := occupy q o]> (queues s)))
  end.

(** What [schedule] gives back: the id of a registered entry, the
    settlement of an immediate run, or the error it throws. *)
Inductive answer : Type :=
| Registered (taskId : nat)
| Ran (o : Scheduler.outcome)
| Invalid (e : error).

Definition register (s : Sched) (taskId : nat) (e : Scheduled) : Sched :=
  {| run := run s; queues := queues s; names := names s;
     scheduledTasks := entry_set (scheduledTasks s) taskId e;
     timers := match e with OneShot t => <[taskId := t]> (timers s) | _ => timers s end;
     jobs := match e with Recurring t => <[taskId := t]> (jobs s) | _ => jobs s end |}.

Definition scheduleRecurringTask (s : Sched) (now : Z) (task : Request) : answer * Sched :=
  let (taskId, st) := Scheduler.generateTaskId (run s) in
  let s := with_run s st in
  match schedule_at task with
  | FireAt t =>
      if t - now <? 0
      then (Invalid (Error "Cannot schedule task in the past"), s)
      else (Registered taskId, register s taskId (OneShot task))
  | InvalidDate => (Registered taskId, register s taskId (OneShot task))
  | Unscheduled =>
      if truthy_opt (repeat task) then
        if cron_validate (default "" (repeat task))
        then (Registered taskId, register s taskId (Recurring task))
        else (Invalid (Error "Invalid cron expression"), s)
      else (Registered taskId, s)
  end.

Definition is_scheduled (task : Request) : bool :=
  match schedule_at task with
  | Unscheduled => truthy_opt (repeat task)
  | _ => true
  end.

Definition schedule (s : Sched) (now : Z) (task : Request) : answer * Sched :=
  match validateTask s task with
  | Throw e => (Invalid e, s)
  | Ok _ =>
      if is_scheduled task then scheduleRecurringTask s now task
      else let (o, s') := executeTask s task in (Ran o, s')
  end.

Definition cancelScheduledTask (s : Sched) (taskId : nat) : bool * Sched :=
  match entry_get (scheduledTasks s) taskId with
  | None => (false, s)
  | Some e =>
      (true,
       {| run := run s; queues := queues s; names := names s;
          scheduledTasks := entry_delete (scheduledTasks s) taskId;
          timers := match e with OneShot _ => delete taskId (timers s) | _ => timers s end;
          jobs := match e with Recurring _ => delete taskId (jobs s) | _ => jobs s end |})
  end.

(** The callback of a pending timeout: run the task, forget the entry. *)
Definition fire_timeout (s : Sched) (taskId : nat) : Sched :=
  match timers s !! taskId with
  | None => s
  | Some task =>
      let s := {| run := run s; queues := queues s; names := names s;
                  scheduledTasks := scheduledTasks s;
                  timers := delete taskId (timers s); jobs := jobs s |} in
      let s := snd (executeTask s task) in
      {| run := run s; queues := queues s; names := names s;
         scheduledTasks := entry_delete (scheduledTasks s) taskId;
         timers := timers s; jobs := jobs s |}
  end.

(** The callback of a started cron job. *)
Definition fire_cron (s : Sched) (taskId : nat) : Sched :=
  match jobs s !! taskId with
  | None => s
  | Some task => snd (executeTask s task)
  end.

(** The first loop of [stop]: each queue in turn is awaited with
    [onIdle] and then paused.  A queue that holds a run or a queued
    closure does not become idle (its runs wait for a closure queued
    behind them, and nothing resumes a paused queue), so the loop stays
    at the first such queue: the boolean is false and the queues after it
    are not paused. *)
Fixpoint pause_idle (l : list string) (qs : gmap string Tier) : bool * gmap string Tier :=
  match l with
  | [] => (true, qs)
  | n :: rest =>
      match qs !! n with
      | Some q => if idle q then pause_idle rest (<[n := pause q]> qs) else (false, qs)
      | None => pause_idle rest qs
      end
  end.

(** [stop]: when the first loop has paused every queue, the second loop
    cancels every key of [scheduledTasks].  The boolean tells whether the
    promise of [stop] is settled. *)
Definition stop (s : Sched) : bool * Sched :=
  let (done, qs) := pause_idle (names s) (queues s) in
  let s := with_queues s qs in
  if done
  then (true,
        fold_left (fun s taskId => snd (cancelScheduledTask s taskId))
                  (List.map fst (scheduledTasks s)) s)
  else (false, s).



(** One call or callback; [resume] and [pause] are not among them. *)
Inductive step : Sched -> Sched -> Prop :=
| step_schedule s now task : step s (snd (schedule s now task))
| step_cancel s taskId : step s (snd (cancelScheduledTask s taskId))
| step_timeout s taskId : step s (fire_timeout s taskId)
| step_cron s taskId : step s (fire_cron s taskId)
| step_stop s : step s (snd (stop s)).

Inductive steps : Sched -> Sched -> Prop :=
| steps_refl s : steps s s
| steps_step s s' s'' : steps s s' -> step s' s'' -> steps s s''.

End Entries.

End SchedulerEntries.

(* ===================================================================== *)
(** * The credential rotator: status reports *)
(* ===================================================================== *)

Module ApiKeyStatus.
Import ApiKeyManager.

Record ProviderStatus : Type := {
  totalKeys : nat;
  availableKeys : nat;
  statusKeyIndex : nat;
  statusRateLimits : gmap string RateLimitInfo;
  statusErrors : gmap string ErrorInfo
}.

(** [keys.filter(key => !this.isKeyLimited(provider, key)).length]; the
    callback is evaluated key by key and the first exception ends the
    filter. *)
Fixpoint count_available (m : Manager) (now : Z) (provider : string)
    (ks : list string) : result nat :=
  match ks with
  | [] => Ok O
  | k :: rest =>
      match isKeyLimited m now provider (Some k) with
      | Throw e => Throw e
      | Ok limited =>
          match count_available m now provider rest with
          | Throw e => Throw e
          | Ok n => Ok (if limited then n else S n)
          end
      end
  end.

(** [getProviderStatus]: [None] is the [null] answered for an unknown
    provider. *)
Definition getProviderStatus (m : Manager) (now : Z) (provider : string)
    : result (option ProviderStatus) :=
  match keyStates m !! provider with
  | None => Ok None
  | Some state =>
      match count_available m now provider (keys state) with
      | Throw e => Throw e
      | Ok n =>
          Ok (Some {| totalKeys := length (keys state); availableKeys := n;
                      statusKeyIndex := currentKeyIndex state;
                      statusRateLimits := rateLimits state;
                      statusErrors := errors state |})
      end
  end.

End ApiKeyStatus.

(* ===================================================================== *)
(** * lib/managers/proxyManager.js: counts and statistics *)
(* ===================================================================== *)

Module ProxyStats.
Import ProxyManager.

(** [Array.from(this.proxies.values()).reduce((total, list) => total + list.length, 0)] *)
Definition getTotalProxyCount (m : Manager) : nat :=
  fold_left (fun total entry => (total + length (snd entry))%nat) (proxies m) O.

(** The number of entries of [healthStatus] whose flag is set. *)
Definition getHealthyProxyCount (m : Manager) : nat :=
  size (filter (fun kv => healthy (snd kv) = true) (healthStatus m)).

Record ProviderStats : Type := { provider_total : nat; provider_healthy : nat }.

Record Stats : Type := {
  total : nat;
  healthy_total : nat;
  by_provider : list (string * ProviderStats)
}.

Definition getProxyStats (m : Manager) : Stats :=
  {| total := getTotalProxyCount m;
     healthy_total := getHealthyProxyCount m;
     by_provider :=
       List.map (fun entry =>
                   (fst entry,
                    {| provider_total := length (snd entry);
                       provider_healthy :=
                         length (List.filter (is_healthy m) (snd entry)) |}))
                (proxies m) |}.

(** A failure recorded against an endpoint: a failed probe of the health
    loop at some instant, or an error reported by a consumer. *)
Inductive failure : Type :=
| FailedProbe (now : Z)
| ReportedError (err : string).

Definition record_failure (proxy : string) (m : Manager) (f : failure) : Manager :=
  match f with
  | FailedProbe now => snd (checkProxyHealth m now proxy None)
  | ReportedError err => markProxyError m proxy err
  end.

End ProxyStats.

(* ===================================================================== *)
(** * Properties of the scheduler *)
(* ===================================================================== *)

Module SchedulerProps.
Import Scheduler.

Definition sample_retry : RetryConfig := {| max_attempts := 1; delay := Some 5000 |}.

Definition failing_task : Task :=
  {| category := "research"; handler := fun _ => Throws "boom";
     id := None; attempts := 0 |}.

Lemma exponentialDelay_pos cfg a :
  0 < num_or (delay cfg) 5000 ->
  0 < Z.min (num_or (delay cfg) 5000 * 2 ^ Z.of_nat a) maxDelay <= maxDelay.
Proof.
  intros Hb. unfold maxDelay.
  assert (0 < 2 ^ Z.of_nat a) by (apply Z.pow_pos_nonneg; lia).
  split; [apply Z.min_glb_lt; nia | apply Z.le_min_r].
Qed.

(** The jittered value stays within a tenth of the capped exponential. *)
Lemma jitter_window (e : Z) (r : Q) :
  0 < e -> (0 <= r)%Q -> (r < 1)%Q ->
  let x := (inject_Z e + inject_Z e * (2 # 10) * (r - (1 # 2)))%Q in
  (inject_Z e * (9 # 10) <= x)%Q /\ (x <= inject_Z e * (11 # 10))%Q.
Proof.
  intros He Hr0 Hr1 x. subst x.
  assert (HE : (0 < inject_Z e)%Q) by (unfold Qlt; simpl; lia).
  assert (Hp0 : (0 <= inject_Z e * r)%Q) by (apply Qmult_le_0_compat; [apply Qlt_le_weak|]; assumption).
  assert (Hp1 : (inject_Z e * r <= inject_Z e * 1)%Q)
    by (apply Qmult_le_l; [assumption | apply Qlt_le_weak; assumption]).
  split; lra.
Qed.

Lemma Qfloor_scaled (e : Z) (n : Z) (d : positive) :
  Qfloor (inject_Z e * (n # d)) = (e * n) / Zpos d.
Proof. reflexivity. Qed.

Lemma calculateRetryDelay_window cfg a r :
  0 < num_or (delay cfg) 5000 -> (0 <= r)%Q -> (r < 1)%Q ->
  let e := Z.min (num_or (delay cfg) 5000 * 2 ^ Z.of_nat a) maxDelay in
  (e * 9) / 10 <= calculateRetryDelay cfg a r /\
  10 * calculateRetryDelay cfg a r <= 11 * e.
Proof.
  intros Hb Hr0 Hr1 e.
  destruct (exponentialDelay_pos cfg a Hb) as [He _]. fold e in He.
  destruct (jitter_window e r He Hr0 Hr1) as [Hlo Hhi].
  unfold calculateRetryDelay. fold e.
  set (x := (inject_Z e + inject_Z e * (2 # 10) * (r - (1 # 2)))%Q) in *.
  split.
  - rewrite <- (Qfloor_scaled e 9 10). apply Qfloor_resp_le. exact Hlo.
  - assert (Hx : (inject_Z (Qfloor x) <= inject_Z e * (11 # 10))%Q)
      by (eapply Qle_trans; [apply Qfloor_le | exact Hhi]).
    generalize dependent (Qfloor x). intros d Hd.
    unfold Qle in Hd. simpl in Hd. lia.
Qed.

(** The capped exponential for the documented configuration. *)
Lemma exponentialDelay_5000 cfg :
  num_or (delay cfg) 5000 = 5000 ->
  Z.min (num_or (delay cfg) 5000 * 2 ^ Z.of_nat 0) maxDelay = 5000 /\
  Z.min (num_or (delay cfg) 5000 * 2 ^ Z.of_nat 3) maxDelay = 40000.
Proof. intros ->. split; reflexivity. Qed.

(** C3 (amended).  For every attempt number and every draw in [0,1) the
    retry delay stays within 20% of e = min(base_delay * 2^attempt,
    max_delay), the jitter being added after the cap: it is at least the
    floor of 0.8 * e and at most 1.2 * e, hence at most 1.2 * max_delay.
    With base_delay = 5000 the delay of attempt 0 lies in [4000, 6000] and
    that of attempt 3 in [32000, 48000]. *)
Theorem calculateRetryDelay_jitter_bounds cfg a r :
  0 < num_or (delay cfg) 5000 -> (0 <= r)%Q -> (r < 1)%Q ->
  let e := Z.min (num_or (delay cfg) 5000 * 2 ^ Z.of_nat a) maxDelay in
  let d := calculateRetryDelay cfg a r in
  (e * 8) / 10 <= d /\ 10 * d <= 12 * e /\ 10 * d <= 12 * maxDelay /\
  (num_or (delay cfg) 5000 = 5000 ->
     (a = 0%nat -> 4000 <= d <= 6000) /\ (a = 3%nat -> 32000 <= d <= 48000)).
Proof.
  intros Hb Hr0 Hr1 e d.
  destruct (exponentialDelay_pos cfg a Hb) as [He Hmax]. fold e in He, Hmax.
  destruct (calculateRetryDelay_window cfg a r Hb Hr0 Hr1) as [Hlo Hhi].
  fold e in Hlo, Hhi. fold d in Hlo, Hhi.
  assert (H89 : (e * 8) / 10 <= (e * 9) / 10) by (apply Z.div_le_mono; lia).
  split; [lia |]. split; [lia |]. split; [lia |].
  intros H5. destruct (exponentialDelay_5000 cfg H5) as [E0 E3].
  split; intros ->; unfold e in *.
  - rewrite E0 in *. change (5000 * 9 / 10) with 4500 in Hlo. lia.
  - rewrite E3 in *. change (40000 * 9 / 10) with 36000 in Hlo. lia.
Qed.

Lemma calculateRetryDelay_jitter_bounds_witness :
  let d := calculateRetryDelay sample_retry 3 (1 # 4) in
  (40000 * 8) / 10 <= d /\ 10 * d <= 12 * maxDelay /\ 32000 <= d <= 48000.
Proof.
  destruct (calculateRetryDelay_jitter_bounds sample_retry 3 (1 # 4))
    as (Hlo & _ & Hmax & H5);
    [vm_compute; reflexivity | unfold Qle; simpl; lia | vm_compute; reflexivity |].
  destruct (H5 eq_refl) as [_ H3]. specialize (H3 eq_refl).
  cbv zeta. split; [exact Hlo | split; [exact Hmax | exact H3]].
Defined.

(** C3 as stated fails: once the exponential is capped the jitter is added
    on top of the cap, so the delay can exceed max_delay. *)
Lemma calculateRetryDelay_exceeds_maxDelay :
  calculateRetryDelay sample_retry 6 (3 # 4) = 315000 /\
  ~ (calculateRetryDelay sample_retry 6 (3 # 4) <= maxDelay).
Proof.
  assert (E : calculateRetryDelay sample_retry 6 (3 # 4) = 315000) by (vm_compute; reflexivity).
  split; [exact E | rewrite E; unfold maxDelay; lia].
Qed.

(** ** Retries of a task whose handler always fails *)

Definition always_fails (h : Handler) : Prop := forall n, exists e, h n = Throws e.

Definition starts_fresh (e : event) : Prop :=
  exists i c, e = taskStart i c 0.

(** Every run sees [attempts = 0]: with a positive retry budget the guard
    of [runTask] always chooses the retry, nothing but [taskStart] events
    with attempt count 0 is emitted, and the caller's promise is never
    settled. *)
Lemma executeTask_always_failing cfg random slots :
  (0 < max_attempts cfg)%nat ->
  forall task st, always_fails (handler task) ->
  exists evs,
    fst (executeTask cfg random slots task st) = Pending /\
    events (snd (executeTask cfg random slots task st)) = events st ++ evs /\
    Forall starts_fresh evs /\ length evs = slots /\
    invocations (snd (executeTask cfg random slots task st)) = (invocations st + slots)%nat.
Proof.
  intros Hmax. induction slots as [|free IH]; intros task st Hf.
  - exists []. simpl. rewrite app_nil_r. repeat split; [constructor | lia].
  - simpl. unfold runTask. simpl.
    destruct (Hf (invocations st)) as [err ->].
    destruct (Nat.ltb_spec 0 (max_attempts cfg)) as [_|]; [|lia].
    unfold retryTask. simpl.
    match goal with |- context [executeTask cfg random free ?t ?s] =>
      destruct (IH t s Hf) as (evs & Ho & Hev & Hall & Hlen & Hinv) end.
    eexists (_ :: evs). rewrite Ho, Hev, Hinv. simpl.
    rewrite <- app_assoc. simpl.
    repeat split; try reflexivity; try lia.
    constructor; [eexists _, _; reflexivity | exact Hall].
Qed.

(** C1 (failing input).  Retry budget 1, a handler that always throws, a
    tier with 4 slots: the handler is invoked 4 times, each time with
    attempt count 0 and the same un-grown delay, no [taskFailed] event is
    emitted and the promise stays pending. *)
Theorem executeTask_retry_budget_ignored :
  executeTask sample_retry (fun _ => 1 # 2) 4 failing_task initial =
  (Pending,
   {| events := [taskStart 0 "research" 0; taskStart 1 "research" 0;
                 taskStart 2 "research" 0; taskStart 3 "research" 0];
      slept := [5000; 5000; 5000; 5000];
      next_id := 5; invocations := 4; draws := 4 |}).
Proof. vm_compute. reflexivity. Qed.

(** ** Worked runs *)

Definition flaky_task : Task :=
  {| category := "research";
     handler := fun n => match n with O => Throws "timeout" | _ => Returns "page" end;
     id := None; attempts := 0 |}.

Example executeTask_recovers_after_one_failure :
  executeTask sample_retry (fun _ => 1 # 2) 4 flaky_task initial =
  (Resolved "page",
   {| events := [taskStart 0 "research" 0; taskStart 1 "research" 0;
                 taskComplete 1 "research" "page"];
      slept := [5000]; next_id := 2; invocations := 2; draws := 1 |}).
Proof. vm_compute. reflexivity. Qed.

Example executeTask_without_retry_budget :
  executeTask {| max_attempts := 0; delay := None |} (fun _ => 1 # 2) 4 failing_task initial =
  (Rejected "boom",
   {| events := [taskStart 0 "research" 0; taskFailed 0 "research" "boom" 0];
      slept := []; next_id := 1; invocations := 1; draws := 0 |}).
Proof. vm_compute. reflexivity. Qed.

End SchedulerProps.

(* ===================================================================== *)
(** * Properties of the credential rotator *)
(* ===================================================================== *)

Module ApiKeyManagerProps.
Import ApiKeyManager.

Lemma with_index_id st : with_index st (currentKeyIndex st) = st.
Proof. destruct st; reflexivity. Qed.

Lemma set_state_id m provider st :
  keyStates m !! provider = Some st -> set_state m provider st = m.
Proof.
  intros H. destruct m as [c ks]; unfold set_state; simpl in *.
  f_equal. apply insert_id. exact H.
Qed.

Section Order.

Variable st : KeyState.
Hypothesis Hnonempty : (0 < length (keys st))%nat.

Let len := length (keys st).
Let cursor := currentKeyIndex st.

(** Index examined by the [j]-th step of a rotation. *)
Definition visit (j : nat) : nat := ((cursor + j) mod len)%nat.

Lemma visit_lt j : (visit j < length (keys st))%nat.
Proof. unfold visit. apply Nat.mod_upper_bound. lia. Qed.

Lemma visit_succ j : ((visit j + 1) mod len)%nat = visit (S j).
Proof.
  unfold visit. rewrite Nat.Div0.add_mod_idemp_l. f_equal. lia.
Qed.

Lemma rotation_order_visit : rotation_order st = List.map visit (seq 1 len).
Proof. reflexivity. Qed.

Lemma visit_inj i j :
  (1 <= i <= len)%nat -> (1 <= j <= len)%nat -> visit i = visit j -> i = j.
Proof.
  unfold visit. intros Hi Hj E.
  pose proof (Nat.div_mod_eq (cursor + i) len) as Di.
  pose proof (Nat.div_mod_eq (cursor + j) len) as Dj.
  rewrite E in Di.
  set (qi := ((cursor + i) / len)%nat) in *. set (qj := ((cursor + j) / len)%nat) in *.
  set (r := ((cursor + j) mod len)%nat) in *.
  assert (qi = qj) by nia. subst qi. nia.
Qed.

Lemma rotation_order_NoDup : NoDup (rotation_order st).
Proof.
  rewrite rotation_order_visit.
  change (List.map visit (seq 1 len)) with (visit <$> seq 1 len).
  apply NoDup_fmap_2_strong; [|apply NoDup_seq].
  intros i j Hi Hj. apply elem_of_seq in Hi, Hj. apply visit_inj; lia.
Qed.

End Order.

Section Selection.

Variables (m : Manager) (now : Z) (provider : string).
Variables (st : KeyState) (pc : ProviderConfig).
Hypothesis Hstate : keyStates m !! provider = Some st.
Hypothesis Hconfig : config m !! provider = Some pc.
Hypothesis Hstamped : stamped st.

Let interval := num_or (retry_delay pc) 1000.
Let len := length (keys st).
Let cursor := currentKeyIndex st.

(** The manager after the loop has moved the cursor to index [i]. *)
Definition moved (i : nat) : Manager := set_state m provider (with_index st i).

Lemma moved_cursor : moved cursor = m.
Proof.
  unfold moved, cursor. rewrite with_index_id. apply set_state_id. exact Hstate.
Qed.

Lemma moved_lookup i : keyStates (moved i) !! provider = Some (with_index st i).
Proof. unfold moved. simpl. apply lookup_insert_eq. Qed.

Lemma moved_moved i j : set_state (moved i) provider (with_index st j) = moved j.
Proof. unfold moved, set_state. simpl. f_equal. apply insert_insert_eq. Qed.

Lemma isKeyLimited_moved i k :
  isKeyLimited (moved i) now provider (Some k) = Ok (negb (usable st interval now k)).
Proof.
  unfold isKeyLimited. rewrite moved_lookup. simpl. rewrite Hconfig.
  unfold usable, rate_limited, in_backoff, rotated_recently. fold interval.
  destruct (rateLimits st !! k) as [rl|]; [destruct (now <? resetTime rl); [reflexivity|] |];
  (destruct (errors st !! k) as [ei|]; [destruct (now <? backoffUntil ei); [reflexivity|] |]);
  simpl;
  (destruct (lastRotation st !! k) as [t|] eqn:Et; [|reflexivity]);
  (assert (Ht : truthy_num t = true)
     by (unfold truthy_num; apply negb_true_iff, Z.eqb_neq; eauto));
  rewrite Ht; simpl; rewrite negb_involutive; reflexivity.
Qed.

Lemma isKeyLimited_current k :
  isKeyLimited m now provider (Some k) = Ok (negb (usable st interval now k)).
Proof. rewrite <- moved_cursor. apply isKeyLimited_moved. Qed.

Hypothesis Hnonempty : (0 < length (keys st))%nat.

(** Outcome of a rotation that ends on index [i]. *)
Definition rotated_to (i : nat) : result (option string) * Manager :=
  (Ok (keys st !! i),
   set_state m provider (with_rotation (with_index st i) (keys st !! i) now)).

Lemma rotateLoop_find n : forall j,
  rotateLoop n (moved (visit st j)) now provider =
  match List.find (usable_at st interval now) (List.map (visit st) (seq (S j) n)) with
  | Some i => rotated_to i
  | None => (Throw (all_unavailable provider), moved (visit st (j + n)))
  end.
Proof.
  induction n as [|n IH]; intros j.
  - simpl. rewrite Nat.add_0_r. reflexivity.
  - cbn [rotateLoop seq List.map List.find]. rewrite moved_lookup.
    cbn [with_index currentKeyIndex keys]. rewrite visit_succ by exact Hnonempty.
    change (with_index (with_index st (visit st j)) (visit st (S j)))
      with (with_index st (visit st (S j))).
    rewrite moved_moved.
    destruct (lookup_lt_is_Some_2 (keys st) (visit st (S j)) (visit_lt st Hnonempty (S j))) as [k Hk].
    unfold usable_at at 1. rewrite Hk, isKeyLimited_moved.
    destruct (usable st interval now k); simpl.
    + unfold rotated_to. rewrite Hk. f_equal.
      unfold moved, set_state; simpl. f_equal. apply insert_insert_eq.
    + rewrite IH. replace (S j + n)%nat with (j + S n)%nat by lia. reflexivity.
Qed.

End Selection.

Definition sample_state : KeyState :=
  {| currentKeyIndex := 0; keys := ["key-a"; "key-b"; "key-c"];
     rateLimits := {[ "key-a" := {| limitedAt := 900; resetTime := 60900 |} ]};
     errors := {[ "key-b" := {| count := 1; lastError := "HTTP 500"; backoffUntil := 5950 |} ]};
     lastRotation := ∅ |}.

Definition sample_config : ProviderConfig :=
  {| primary := Some "key-a"; fallback := Some ["key-b"; "key-c"];
     retry_delay := Some 1000 |}.

Definition sample_providers : gmap string ProviderConfig :=
  {[ "gemini" := sample_config ]}.

(** Fresh rotator, then "key-a" reported rate-limited at 900 and "key-b"
    reported failing at 950. *)
Definition sample_manager : Manager :=
  markKeyError
    (markKeyLimited (initializeKeyStates sample_providers) 900 "gemini" "key-a" None)
    950 "gemini" "key-b" "HTTP 500".

Lemma getKey_unfold m now provider st pc :
  keyStates m !! provider = Some st -> config m !! provider = Some pc ->
  stamped st -> (currentKeyIndex st < length (keys st))%nat ->
  getKey m now provider =
  if usable_at st (num_or (retry_delay pc) 1000) now (currentKeyIndex st)
  then (Ok (keys st !! currentKeyIndex st), m)
  else match List.find (usable_at st (num_or (retry_delay pc) 1000) now) (rotation_order st) with
       | Some i => rotated_to m now provider st i
       | None => (Throw (all_unavailable provider), m)
       end.
Proof.
  intros Hst Hpc Hstamp Hcur.
  assert (Hlen : (0 < length (keys st))%nat) by lia.
  unfold getKey. rewrite Hst.
  destruct (keys st) as [|k0 ks] eqn:Ek; [simpl in Hlen; lia |]. rewrite <- Ek in *.
  destruct (lookup_lt_is_Some_2 _ _ Hcur) as [cur Hk].
  unfold usable_at at 1. rewrite Hk.
  rewrite (isKeyLimited_current m now provider st pc Hst Hpc Hstamp).
  destruct (usable st _ now cur); simpl; [reflexivity |].
  unfold rotateKey. rewrite Hst.
  assert (V0 : visit st 0 = currentKeyIndex st)
    by (unfold visit; rewrite Nat.add_0_r; apply Nat.mod_small; exact Hcur).
  assert (Vn : visit st (0 + length (keys st)) = currentKeyIndex st).
  { unfold visit. simpl. rewrite <- Nat.Div0.add_mod_idemp_r, Nat.Div0.mod_same, Nat.add_0_r.
    apply Nat.mod_small; exact Hcur. }
  pose proof (rotateLoop_find m now provider st pc Hpc Hstamp Hlen (length (keys st)) 0) as R.
  rewrite V0, Vn, (moved_cursor m provider st Hst) in R. exact R.
Qed.

(** The selection rule, for a state whose cursor is inside the list and
    whose rotation times are clock readings. *)
Lemma getKey_selection_from m now provider st pc :
  keyStates m !! provider = Some st -> config m !! provider = Some pc ->
  stamped st -> keys st <> [] -> (currentKeyIndex st < length (keys st))%nat ->
  let interval := num_or (retry_delay pc) 1000 in
  let order := rotation_order st in
  NoDup order /\ length order = length (keys st) /\
  (usable_at st interval now (currentKeyIndex st) = true ->
     getKey m now provider = (Ok (keys st !! currentKeyIndex st), m)) /\
  (usable_at st interval now (currentKeyIndex st) = false ->
     getKey m now provider =
       match List.find (usable_at st interval now) order with
       | Some i => rotated_to m now provider st i
       | None => (Throw (all_unavailable provider), m)
       end) /\
  (forall k0 k1 k2, keys st = [k0; k1; k2] ->
     rate_limited st now k0 = true -> in_backoff st now k1 = true ->
     usable st interval now k2 = true ->
     fst (getKey m now provider) = Ok (Some k2)).
Proof.
  intros Hst Hpc Hstamp Hne Hcur interval order.
  assert (Hlen : (0 < length (keys st))%nat) by lia.
  pose proof (getKey_unfold m now provider st pc Hst Hpc Hstamp Hcur) as G.
  fold interval in G. fold order in G.
  split; [apply rotation_order_NoDup; exact Hlen |].
  split; [unfold order, rotation_order; rewrite length_map, length_seq; reflexivity |].
  split; [intros U; rewrite G, U; reflexivity |].
  split; [intros U; rewrite G, U; reflexivity |].
  intros k0 k1 k2 Ek H0 H1 H2.
  assert (U0 : usable_at st interval now 0 = false)
    by (unfold usable_at, usable; rewrite Ek; simpl; rewrite H0; reflexivity).
  assert (U1 : usable_at st interval now 1 = false)
    by (unfold usable_at, usable; rewrite Ek; simpl; rewrite H1, andb_false_r; reflexivity).
  assert (U2 : usable_at st interval now 2 = true)
    by (unfold usable_at; rewrite Ek; simpl; exact H2).
  assert (K2 : keys st !! 2%nat = Some k2) by (rewrite Ek; reflexivity).
  rewrite G. unfold order, rotation_order. rewrite Ek in Hcur |- *. simpl in Hcur.
  clear G. destruct (currentKeyIndex st) as [|[|[|c]]]; [| | |lia]; simpl.
  - rewrite U0, U1, U2. simpl. f_equal. exact K2.
  - rewrite U1, U2. simpl. f_equal. exact K2.
  - rewrite U2. simpl. f_equal; try rewrite <- Ek; exact K2.
Qed.

Example getKey_all_unavailable :
  fst (getKey (markKeyLimited sample_manager 1000 "gemini" "key-c" None) 1000 "gemini")
  = Throw (all_unavailable "gemini").
Proof. vm_compute. reflexivity. Qed.

Example getKey_keeps_usable_cursor :
  getKey (resetKeyState sample_manager "gemini" "key-a") 1000 "gemini"
  = (Ok (Some "key-a"), resetKeyState sample_manager "gemini" "key-a").
Proof. vm_compute. reflexivity. Qed.

(** The assumptions of [getKey_selection] hold initially and after every
    selection made at a non-zero clock reading. *)
Lemma initial_state_well_formed pc :
  stamped (initial_state pc) /\
  (keys (initial_state pc) <> [] ->
   (currentKeyIndex (initial_state pc) < length (keys (initial_state pc)))%nat).
Proof.
  split.
  - intros k t. simpl. rewrite lookup_empty. discriminate.
  - simpl. destruct (configured_keys pc); [congruence | simpl; lia].
Qed.

Lemma getKey_well_formed m now provider st pc :
  keyStates m !! provider = Some st -> config m !! provider = Some pc ->
  stamped st -> (currentKeyIndex st < length (keys st))%nat -> now <> 0 ->
  exists st', keyStates (snd (getKey m now provider)) !! provider = Some st' /\
              keys st' = keys st /\ stamped st' /\
              (currentKeyIndex st' < length (keys st'))%nat.
Proof.
  intros Hst Hpc Hstamp Hcur Hnow.
  assert (Hlen : (0 < length (keys st))%nat) by lia.
  rewrite (getKey_unfold m now provider st pc Hst Hpc Hstamp Hcur).
  destruct (usable_at st _ now (currentKeyIndex st)); [exists st; auto |].
  destruct (List.find _ (rotation_order st)) as [i|] eqn:F; [|exists st; auto].
  apply find_some in F. destruct F as [Hin _].
  rewrite (rotation_order_visit st) in Hin. apply in_map_iff in Hin.
  destruct Hin as (j & <- & _).
  pose proof (visit_lt st Hlen j) as Hlt.
  destruct (lookup_lt_is_Some_2 _ _ Hlt) as [k Hk].
  unfold rotated_to. rewrite Hk. simpl. rewrite lookup_insert_eq.
  eexists. split; [reflexivity |]. simpl. repeat split; [|exact Hlt].
  intros k' t. simpl. rewrite lookup_insert.
  case_decide; [intros [= <-]; exact Hnow | apply Hstamp].
Qed.

(** ** Reachable states *)

Definition well_formed (m : Manager) : Prop :=
  forall provider st, keyStates m !! provider = Some st ->
    is_Some (config m !! provider) /\ stamped st /\
    (keys st <> [] -> (currentKeyIndex st < length (keys st))%nat).

Lemma initializeKeyStates_well_formed cfg : well_formed (initializeKeyStates cfg).
Proof.
  intros provider st. simpl. rewrite lookup_fmap.
  destruct (cfg !! provider) as [pc|] eqn:E; [|discriminate]. intros [= <-].
  split; [eauto |]. apply initial_state_well_formed.
Qed.

(** Replacing a provider's state by one with the same keys, a cursor in
    range and stamped rotation times keeps the manager well formed. *)
Lemma set_state_well_formed m provider st st' :
  well_formed m -> keyStates m !! provider = Some st ->
  stamped st' -> (keys st' <> [] -> (currentKeyIndex st' < length (keys st'))%nat) ->
  well_formed (set_state m provider st').
Proof.
  intros Hm Hst Hstamp Hcur q sq. simpl. rewrite lookup_insert.
  case_decide as Hq; [|apply Hm].
  intros [= <-]. subst q. split; [apply (Hm provider st Hst) | auto].
Qed.

Lemma rotated_to_well_formed m now provider st i :
  well_formed m -> keyStates m !! provider = Some st -> now <> 0 ->
  (i < length (keys st))%nat ->
  well_formed (snd (rotated_to m now provider st i)).
Proof.
  intros Hm Hst Hnow Hi. destruct (Hm provider st Hst) as (_ & Hstamp & _).
  unfold rotated_to. simpl. eapply set_state_well_formed; eauto.
  - destruct (keys st !! i) as [k|]; simpl; [|exact Hstamp].
    intros k' t. simpl. rewrite lookup_insert.
    case_decide; [intros [= <-]; exact Hnow | apply Hstamp].
  - intros _. destruct (keys st !! i); simpl; exact Hi.
Qed.

Lemma find_rotation_order_lt (P : nat -> bool) st i :
  (0 < length (keys st))%nat ->
  List.find P (rotation_order st) = Some i -> (i < length (keys st))%nat.
Proof.
  intros Hlen F. apply find_some in F. destruct F as [Hin _].
  rewrite (rotation_order_visit st) in Hin. apply in_map_iff in Hin.
  destruct Hin as (j & <- & _). apply visit_lt, Hlen.
Qed.

Lemma rotateKey_unfold m now provider st pc :
  keyStates m !! provider = Some st -> config m !! provider = Some pc ->
  stamped st -> (currentKeyIndex st < length (keys st))%nat ->
  rotateKey m now provider =
  match List.find (usable_at st (num_or (retry_delay pc) 1000) now) (rotation_order st) with
  | Some i => rotated_to m now provider st i
  | None => (Throw (all_unavailable provider), m)
  end.
Proof.
  intros Hst Hpc Hstamp Hcur.
  assert (Hlen : (0 < length (keys st))%nat) by lia.
  unfold rotateKey. rewrite Hst.
  assert (V0 : visit st 0 = currentKeyIndex st)
    by (unfold visit; rewrite Nat.add_0_r; apply Nat.mod_small; exact Hcur).
  assert (Vn : visit st (0 + length (keys st)) = currentKeyIndex st).
  { unfold visit. simpl. rewrite <- Nat.Div0.add_mod_idemp_r, Nat.Div0.mod_same, Nat.add_0_r.
    apply Nat.mod_small; exact Hcur. }
  pose proof (rotateLoop_find m now provider st pc Hpc Hstamp Hlen (length (keys st)) 0) as R.
  rewrite V0, Vn, (moved_cursor m provider st Hst) in R. exact R.
Qed.

Lemma step_well_formed m m' : step m m' -> well_formed m -> well_formed m'.
Proof.
  intros [m0 now provider Hnow | m0 now provider Hnow | m0 now provider key reset
         | m0 now provider key err | m0 provider key] Hm.
  - destruct (keyStates m0 !! provider) as [st|] eqn:Hst;
      [|unfold getKey; rewrite Hst; exact Hm].
    destruct (Hm provider st Hst) as ([pc Hpc] & Hstamp & Hcur).
    destruct (keys st) as [|k0 ks] eqn:Ek; [unfold getKey; rewrite Hst, Ek; exact Hm |].
    rewrite <- Ek in Hcur. specialize (Hcur ltac:(rewrite Ek; discriminate)).
    rewrite (getKey_unfold m0 now provider st pc Hst Hpc Hstamp Hcur).
    destruct (usable_at st _ now (currentKeyIndex st)); [exact Hm |].
    destruct (List.find _ (rotation_order st)) as [i|] eqn:F; [|exact Hm].
    apply rotated_to_well_formed; auto.
    eapply find_rotation_order_lt; [lia | exact F].
  - destruct (keyStates m0 !! provider) as [st|] eqn:Hst;
      [|unfold rotateKey; rewrite Hst; exact Hm].
    destruct (Hm provider st Hst) as ([pc Hpc] & Hstamp & Hcur).
    destruct (keys st) as [|k0 ks] eqn:Ek;
      [unfold rotateKey; rewrite Hst, Ek; exact Hm |].
    rewrite <- Ek in Hcur. specialize (Hcur ltac:(rewrite Ek; discriminate)).
    rewrite (rotateKey_unfold m0 now provider st pc Hst Hpc Hstamp Hcur).
    destruct (List.find _ (rotation_order st)) as [i|] eqn:F; [|exact Hm].
    apply rotated_to_well_formed; auto.
    eapply find_rotation_order_lt; [lia | exact F].
  - unfold markKeyLimited. destruct (keyStates m0 !! provider) as [st|] eqn:Hst; [|exact Hm].
    destruct (Hm provider st Hst) as (_ & Hstamp & Hcur).
    eapply set_state_well_formed; eauto.
  - unfold markKeyError. destruct (keyStates m0 !! provider) as [st|] eqn:Hst; [|exact Hm].
    destruct (Hm provider st Hst) as (_ & Hstamp & Hcur).
    eapply set_state_well_formed; eauto.
  - unfold resetKeyState. destruct (keyStates m0 !! provider) as [st|] eqn:Hst; [|exact Hm].
    destruct (Hm provider st Hst) as (_ & Hstamp & Hcur).
    eapply set_state_well_formed; eauto.
Qed.

Lemma reachable_well_formed cfg m : reachable cfg m -> well_formed m.
Proof.
  induction 1 as [|m m' _ IH Hs];
    [apply initializeKeyStates_well_formed | eapply step_well_formed; eauto].
Qed.

Lemma sample_manager_reachable : reachable sample_providers sample_manager.
Proof.
  unfold sample_manager.
  eapply reach_step; [|apply step_markKeyError].
  eapply reach_step; [|apply step_markKeyLimited].
  apply reach_init.
Qed.

(** The state written back when a rotation lands on index [i], whose
    credential is [k]: the cursor is [i] and [k] is stamped with the
    clock reading. *)
Definition landed (st : KeyState) (i : nat) (k : string) (now : Z) : KeyState :=
  {| currentKeyIndex := i; keys := keys st; rateLimits := rateLimits st;
     errors := errors st; lastRotation := <[k := now]> (lastRotation st) |}.

Lemma rotated_to_landed m now provider st i k :
  keys st !! i = Some k ->
  rotated_to m now provider st i
  = (Ok (Some k),
     {| config := config m;
        keyStates := <[provider := landed st i k now]> (keyStates m) |}).
Proof. intros Hk. unfold rotated_to. rewrite Hk. reflexivity. Qed.

(** The stamp of a rotation keeps the credential limited until the
    minimum rotation interval has elapsed. *)
Lemma landed_limited m provider pc st i k now t :
  config m !! provider = Some pc -> now <> 0 ->
  t - now < num_or (retry_delay pc) 1000 ->
  isKeyLimited {| config := config m;
                  keyStates := <[provider := landed st i k now]> (keyStates m) |}
               t provider (Some k)
  = Ok true.
Proof.
  intros Hpc Hnow Ht. unfold isKeyLimited. simpl. rewrite lookup_insert_eq. simpl.
  rewrite lookup_insert_eq, Hpc.
  destruct (rateLimits st !! k) as [rl|]; [destruct (t <? resetTime rl); [reflexivity |] |];
    (destruct (errors st !! k) as [ei|];
       [destruct (t <? backoffUntil ei); [reflexivity |] |]);
    f_equal; apply andb_true_iff; split;
      try (unfold truthy_num; apply negb_true_iff, Z.eqb_neq; exact Hnow);
      apply Z.ltb_lt; exact Ht.
Qed.

(** C4 (amended).  In every reachable state, for a provider with a
    non-empty credential list, [getKey] returns the credential at the
    cursor when it is usable (not rate-limited, not in error back-off,
    minimum rotation interval elapsed since a rotation last landed on
    it) and then records nothing; otherwise it walks the list circularly
    from the cursor, visiting every index at most once, returns the first
    usable credential, moves the cursor to it and stamps it with the
    clock reading, which keeps it limited until the minimum rotation
    interval has elapsed; when the whole cycle finds none it fails with
    the all-unavailable error.  With three credentials of which the first
    is rate-limited and the second in error back-off, it returns the
    third. *)
Theorem getKey_selection cfg m now provider st :
  reachable cfg m -> keyStates m !! provider = Some st -> keys st <> [] ->
  exists pc,
    config m !! provider = Some pc /\
    let interval := num_or (retry_delay pc) 1000 in
    let order := rotation_order st in
    NoDup order /\ length order = length (keys st) /\
    (usable_at st interval now (currentKeyIndex st) = true ->
       getKey m now provider = (Ok (keys st !! currentKeyIndex st), m)) /\
    (usable_at st interval now (currentKeyIndex st) = false ->
       match List.find (usable_at st interval now) order with
       | Some i =>
           exists k,
             keys st !! i = Some k /\
             getKey m now provider
             = (Ok (Some k),
                {| config := config m;
                   keyStates :=
                     <[provider :=
                         {| currentKeyIndex := i; keys := keys st;
                            rateLimits := rateLimits st; errors := errors st;
                            lastRotation := <[k := now]> (lastRotation st) |}]>
                       (keyStates m) |}) /\
             (now <> 0 -> forall t, t - now < interval ->
                isKeyLimited (snd (getKey m now provider)) t provider (Some k) = Ok true)
       | None => getKey m now provider = (Throw (all_unavailable provider), m)
       end) /\
    (forall k0 k1 k2, keys st = [k0; k1; k2] ->
       rate_limited st now k0 = true -> in_backoff st now k1 = true ->
       usable st interval now k2 = true ->
       fst (getKey m now provider) = Ok (Some k2)).
Proof.
  intros Hr Hst Hne.
  destruct (reachable_well_formed cfg m Hr provider st Hst) as ([pc Hpc] & Hstamp & Hcur).
  exists pc. split; [exact Hpc |].
  destruct (getKey_selection_from m now provider st pc Hst Hpc Hstamp Hne (Hcur Hne))
    as (Hnd & Hlen & Hcursor & Hrot & Hthree).
  cbv zeta. split; [exact Hnd |]. split; [exact Hlen |]. split; [exact Hcursor |].
  split; [|exact Hthree].
  intros U. specialize (Hrot U). cbv zeta in Hrot.
  destruct (List.find _ (rotation_order st)) as [i|] eqn:F; [|exact Hrot].
  assert (Hlt : (i < length (keys st))%nat).
  { eapply find_rotation_order_lt; [|exact F].
    destruct (keys st); [congruence | simpl; lia]. }
  destruct (lookup_lt_is_Some_2 _ _ Hlt) as [k Hk].
  exists k. split; [exact Hk |].
  rewrite (rotated_to_landed m now provider st i k Hk) in Hrot.
  split; [exact Hrot |].
  intros Hnow t Ht. rewrite Hrot. simpl.
  apply (landed_limited m provider pc st i k now t Hpc Hnow Ht).
Qed.

Lemma getKey_selection_witness :
  fst (getKey sample_manager 1000 "gemini") = Ok (Some "key-c").
Proof.
  destruct (getKey_selection sample_providers sample_manager 1000 "gemini" sample_state
              sample_manager_reachable) as (pc & Hpc & _ & _ & _ & _ & Hthird).
  - vm_compute. reflexivity.
  - discriminate.
  - apply (Hthird "key-a" "key-b" "key-c"); [reflexivity | reflexivity | reflexivity |].
    vm_compute in Hpc. injection Hpc as <-. reflexivity.
Defined.

(** C4 as stated fails: [getKey] stamps a credential only when a rotation
    lands on it.  On a fresh rotator "key-a" is selected at 1000 and
    again at 1001, before the minimum rotation interval of 1000 ms has
    elapsed since it was last selected, although "key-b" is usable. *)
Lemma getKey_reselects_within_interval :
  let m0 := initializeKeyStates sample_providers in
  getKey m0 1000 "gemini" = (Ok (Some "key-a"), m0) /\
  getKey m0 1001 "gemini" = (Ok (Some "key-a"), m0) /\
  1001 - 1000 < num_or (retry_delay sample_config) 1000 /\
  usable (initial_state sample_config) (num_or (retry_delay sample_config) 1000) 1001 "key-b"
  = true.
Proof. vm_compute. repeat split. Qed.

(** Marking is a no-op for a provider the rotator does not know. *)
Lemma mark_unknown_provider m now provider key err reset :
  keyStates m !! provider = None ->
  markKeyError m now provider key err = m /\
  markKeyLimited m now provider key reset = m.
Proof. intros H. unfold markKeyError, markKeyLimited. rewrite H. split; reflexivity. Qed.

Definition error_count (st : KeyState) (key : string) : nat :=
  match errors st !! key with Some i => count i | None => O end.

(** C7.  For a provider known to the rotator and any credential,
    [markKeyError] increments the credential's error counter and sets its
    back-off deadline to now + min(count * 5000, 300000) ms, and
    [markKeyLimited] without a reset time records the reset time
    now + 60000 ms; until that time the credential is reported as limited. *)
Theorem markKeyError_markKeyLimited_effect m now provider key err st :
  keyStates m !! provider = Some st ->
  (exists st',
     keyStates (markKeyError m now provider key err) !! provider = Some st' /\
     errors st' !! key =
       Some {| count := S (error_count st key); lastError := err;
               backoffUntil := now + Z.min (Z.of_nat (S (error_count st key)) * 5000) 300000 |} /\
     error_count st' key = S (error_count st key) /\
     (forall i, errors st' !! key = Some i -> now < backoffUntil i <= now + 300000)) /\
  (exists st',
     keyStates (markKeyLimited m now provider key None) !! provider = Some st' /\
     rateLimits st' !! key = Some {| limitedAt := now; resetTime := now + 60000 |} /\
     (forall t, t < now + 60000 ->
        isKeyLimited (markKeyLimited m now provider key None) t provider (Some key) = Ok true)).
Proof.
  intros Hst. split.
  - unfold markKeyError. rewrite Hst. fold (error_count st key).
    eexists. split; [apply lookup_insert_eq |]. simpl.
    rewrite lookup_insert_eq. split; [reflexivity |].
    split; [unfold error_count; simpl; rewrite lookup_insert_eq; reflexivity |].
    intros i [= <-]. simpl. lia.
  - unfold markKeyLimited. rewrite Hst.
    eexists. split; [apply lookup_insert_eq |]. simpl.
    rewrite lookup_insert_eq. split; [reflexivity |].
    intros t Ht. unfold isKeyLimited. simpl. rewrite lookup_insert_eq. simpl.
    rewrite lookup_insert_eq. simpl.
    destruct (Z.ltb_spec t (now + 60000)); [reflexivity | lia].
Qed.

Lemma markKeyError_markKeyLimited_effect_witness :
  exists st',
    keyStates (markKeyError sample_manager 1000 "gemini" "key-b" "HTTP 502") !! "gemini"
      = Some st' /\
    errors st' !! "key-b" =
      Some {| count := 2; lastError := "HTTP 502"; backoffUntil := 11000 |}.
Proof.
  destruct (markKeyError_markKeyLimited_effect sample_manager 1000 "gemini" "key-b"
              "HTTP 502" sample_state) as [(st' & H1 & H2 & _) _]; [reflexivity |].
  exists st'. split; [exact H1 | exact H2].
Defined.

End ApiKeyManagerProps.

(* ===================================================================== *)
(** * Properties of the proxy rotator *)
(* ===================================================================== *)

Module ProxyManagerProps.
Import ProxyManager.

(** ** The stable sort *)

Section Sorting.

Variable key : string -> Z.

Definition key_le (a b : string) : Prop := key a <= key b.

Lemma insert_by_In x y l : In y (insert_by key x l) <-> y = x \/ In y l.
Proof.
  induction l as [|z l IH]; simpl.
  - intuition.
  - destruct (key x <=? key z); simpl; [intuition | rewrite IH; intuition].
Qed.

Lemma sort_by_In y l : In y (sort_by key l) <-> In y l.
Proof.
  induction l as [|x l IH]; simpl; [reflexivity |].
  rewrite insert_by_In, IH. intuition.
Qed.

Lemma sort_by_nil l : sort_by key l = [] -> l = [].
Proof.
  destruct l as [|x l]; [reflexivity |]. intros H.
  assert (In x (sort_by key (x :: l))) by (apply sort_by_In; left; reflexivity).
  rewrite H in *. contradiction.
Qed.

Lemma insert_by_sorted x l :
  StronglySorted key_le l -> StronglySorted key_le (insert_by key x l).
Proof.
  induction 1 as [|y l Hs IH Hall]; simpl.
  - repeat constructor.
  - destruct (Z.leb_spec (key x) (key y)) as [Hle|Hgt].
    + constructor; [constructor; assumption |].
      constructor; [exact Hle |].
      rewrite List.Forall_forall in Hall |- *. intros z Hz.
      specialize (Hall z Hz). unfold key_le in *. lia.
    + constructor; [exact IH |].
      rewrite List.Forall_forall in Hall |- *. intros z Hz.
      apply insert_by_In in Hz. destruct Hz as [->|Hz]; [unfold key_le; lia | auto].
Qed.

Lemma sort_by_sorted l : StronglySorted key_le (sort_by key l).
Proof.
  induction l as [|x l IH]; simpl; [constructor | apply insert_by_sorted, IH].
Qed.

(** In a sorted list the first element satisfying a test has the least
    key among those that satisfy it. *)
Lemma find_sorted_least (P : string -> bool) l p :
  StronglySorted key_le l -> List.find P l = Some p ->
  forall q, In q l -> P q = true -> key p <= key q.
Proof.
  induction 1 as [|y l Hs IH Hall]; simpl; [discriminate |].
  destruct (P y) eqn:Py.
  - intros [= <-] q [<-|Hq] _; [lia |].
    rewrite List.Forall_forall in Hall. apply Hall, Hq.
  - intros Hf q [<-|Hq] Pq; [congruence | eauto].
Qed.

Lemma head_sorted_least first rest :
  StronglySorted key_le (first :: rest) ->
  forall q, In q (first :: rest) -> key first <= key q.
Proof.
  intros Hs q [<-|Hq]; [lia |].
  inversion Hs as [|? ? _ Hall]; subst.
  rewrite List.Forall_forall in Hall. apply Hall, Hq.
Qed.

End Sorting.

(** ** One call of [getProxy] *)

Definition assigned (m : Manager) (consumer : string) : Manager :=
  match providerAssignments m !! consumer with
  | Some _ => m
  | None => snd (assignProxiesToProvider m consumer)
  end.

Definition cleared (m : Manager) (consumer : string) : Manager :=
  with_assignments (assigned m consumer)
    (delete consumer (providerAssignments (assigned m consumer))).

Lemma getProxy_unfold fuel m now consumer previous :
  getProxy (S fuel) m now consumer previous =
  if negb (enabled (config m)) then Some (None, m)
  else match sort_by (last_used m) (candidates m consumer) with
       | [] => getProxy fuel (cleared m consumer) now consumer None
       | (first :: _) as sortedProxies =>
           Some (Some (select previous first sortedProxies),
                 with_lastUsed (assigned m consumer)
                   (<[select previous first sortedProxies := now]> (lastUsed m)))
       end.
Proof.
  unfold cleared, assigned, candidates. simpl.
  destruct (negb (enabled (config m))); [reflexivity |].
  destruct (providerAssignments m !! consumer); reflexivity.
Qed.

Lemma cleared_facts m consumer :
  config (cleared m consumer) = config m /\
  proxies (cleared m consumer) = proxies m /\
  healthStatus (cleared m consumer) = healthStatus m /\
  providerAssignments (cleared m consumer) !! consumer = None.
Proof.
  unfold cleared, assigned.
  destruct (providerAssignments m !! consumer); simpl;
    repeat split; apply lookup_delete_eq.
Qed.

Lemma candidates_cleared m consumer :
  candidates (cleared m consumer) consumer = List.filter (is_healthy m) (allProxies m).
Proof.
  destruct (cleared_facts m consumer) as (_ & Hp & Hh & Ha).
  unfold candidates, allProxies, is_healthy. rewrite Ha, Hp, Hh. reflexivity.
Qed.

Lemma cleared_is_healthy m consumer p :
  is_healthy (cleared m consumer) p = is_healthy m p.
Proof.
  destruct (cleared_facts m consumer) as (_ & _ & Hh & _).
  unfold is_healthy. rewrite Hh. reflexivity.
Qed.

(** ** The retry against the full pool *)

Definition sample_config : Config :=
  {| enabled := true;
     providers := [ {| type := "http";
                       proxy_list := ["http://proxy1:8080"; "http://proxy2:8080"] |};
                    {| type := "socks5"; proxy_list := ["socks5://proxy1:1080"] |} ] |}.

Definition single_config : Config :=
  {| enabled := true;
     providers := [ {| type := "http"; proxy_list := ["http://proxy1:8080"] |} ] |}.

(** The only endpoint of [single_config] after three reported errors. *)
Definition dead_pool : Manager :=
  markProxyError
    (markProxyError
       (markProxyError (initialize single_config) "http://proxy1:8080" "ECONNRESET")
       "http://proxy1:8080" "ECONNRESET")
    "http://proxy1:8080" "ECONNRESET".

Definition pool_healthy (m : Manager) : list string :=
  List.filter (is_healthy m) (allProxies m).

(** With no healthy endpoint in the whole pool every call clears the
    assignment and calls again: no number of calls produces a result. *)
Lemma getProxy_dead_pool fuel : forall m now consumer previous,
  enabled (config m) = true -> candidates m consumer = [] -> pool_healthy m = [] ->
  getProxy fuel m now consumer previous = None.
Proof.
  induction fuel as [|fuel IH]; intros m now consumer previous He Hc Hp; [reflexivity |].
  rewrite getProxy_unfold, He, Hc. cbn [negb sort_by].
  destruct (cleared_facts m consumer) as (Hcfg & Hpx & Hh & _).
  apply IH.
  - rewrite Hcfg. exact He.
  - rewrite candidates_cleared. exact Hp.
  - unfold pool_healthy, allProxies, is_healthy. rewrite Hpx, Hh. exact Hp.
Qed.

(** With a stale assignment but a healthy endpoint in the pool the second
    call answers. *)
Lemma getProxy_retry_once fuel m now consumer previous first rest :
  enabled (config m) = true -> candidates m consumer = [] ->
  sort_by (last_used m) (pool_healthy m) = first :: rest ->
  exists m', getProxy (S (S fuel)) m now consumer previous = Some (Some first, m').
Proof.
  intros He Hc Hp.
  rewrite getProxy_unfold, He, Hc. cbn [negb sort_by].
  destruct (cleared_facts m consumer) as (Hcfg & _ & _ & _).
  rewrite getProxy_unfold, Hcfg, He, candidates_cleared. cbn [negb].
  replace (last_used (cleared m consumer)) with (last_used m)
    by (unfold cleared, assigned, last_used;
        destruct (providerAssignments m !! consumer); reflexivity).
  fold (pool_healthy m). rewrite Hp. simpl. eexists. reflexivity.
Qed.

(** C2 (failing input).  One configured endpoint, made unhealthy by three
    reported errors: [getProxy] produces no result within any number of
    calls. *)
Theorem getProxy_no_healthy_never_returns :
  forall fuel now, getProxy fuel dead_pool now "FinancialHandler" None = None.
Proof.
  intros fuel now. apply getProxy_dead_pool; vm_compute; reflexivity.
Qed.

(** ** Health bookkeeping *)

(** The health flag is exactly "fewer than three failures in a row". *)
Definition health_consistent (m : Manager) : Prop :=
  forall p s, healthStatus m !! p = Some s -> healthy s = (failCount s <? 3)%nat.

Lemma fresh_inserts_consistent l : forall h : gmap string HealthStatus,
  (forall p s, h !! p = Some s -> healthy s = (failCount s <? 3)%nat) ->
  forall p s,
    fold_left (fun h proxy => <[proxy := fresh_status]> h) l h !! p = Some s ->
    healthy s = (failCount s <? 3)%nat.
Proof.
  induction l as [|x l IH]; intros h Hh p s; simpl; [apply Hh |].
  apply IH. intros q t. rewrite lookup_insert.
  case_decide; [intros [= <-]; reflexivity | apply Hh].
Qed.

Lemma initialize_consistent cfg : health_consistent (initialize cfg).
Proof.
  unfold initialize, health_consistent.
  destruct (enabled cfg); [|intros p s; simpl; rewrite lookup_empty; discriminate].
  generalize (providers cfg). intros l.
  set (empty := {| config := cfg; proxies := []; healthStatus := ∅; lastUsed := ∅;
                   providerAssignments := ∅ |}).
  assert (H0 : health_consistent empty)
    by (intros p s; simpl; rewrite lookup_empty; discriminate).
  revert H0. generalize empty. clear empty.
  induction l as [|x l IH]; intros m Hm; simpl; [exact Hm |].
  apply IH. intros p s. simpl. apply fresh_inserts_consistent. exact Hm.
Qed.

Lemma updateProxyHealth_consistent m now proxy ok time :
  health_consistent m -> health_consistent (updateProxyHealth m now proxy ok time).
Proof.
  intros Hm p s. unfold updateProxyHealth. simpl. rewrite lookup_insert.
  case_decide; [|apply Hm]. intros [= <-]. destruct ok; reflexivity.
Qed.

Lemma markProxyError_consistent m proxy err :
  health_consistent m -> health_consistent (markProxyError m proxy err).
Proof.
  intros Hm p s. unfold markProxyError.
  destruct (healthStatus m !! proxy) as [status|] eqn:E; [|apply Hm].
  simpl. rewrite lookup_insert. case_decide; [|apply Hm]. intros [= <-]. reflexivity.
Qed.

Lemma getProxy_healthStatus fuel : forall m now consumer previous r m',
  getProxy fuel m now consumer previous = Some (r, m') ->
  healthStatus m' = healthStatus m.
Proof.
  induction fuel as [|fuel IH]; intros m now consumer previous r m'; [discriminate |].
  rewrite getProxy_unfold.
  destruct (negb (enabled (config m))); [intros [= _ <-]; reflexivity |].
  destruct (sort_by (last_used m) (candidates m consumer)) as [|first rest].
  - intros H. apply IH in H. rewrite H. apply (cleared_facts m consumer).
  - intros [= _ <-]. unfold assigned.
    destruct (providerAssignments m !! consumer); reflexivity.
Qed.

Lemma step_consistent m m' : step m m' -> health_consistent m -> health_consistent m'.
Proof.
  intros [m0 now proxy [t|] | m0 proxy err | m0 fuel now consumer previous r m1 H] Hm.
  - apply updateProxyHealth_consistent, Hm.
  - apply updateProxyHealth_consistent, Hm.
  - apply markProxyError_consistent, Hm.
  - unfold health_consistent. rewrite (getProxy_healthStatus _ _ _ _ _ _ _ H). exact Hm.
Qed.

Lemma reachable_consistent cfg m : reachable cfg m -> health_consistent m.
Proof.
  induction 1 as [|m m' _ IH Hs]; [apply initialize_consistent | eapply step_consistent; eauto].
Qed.

(** ** What a selection returns *)

Lemma select_In previous first rest :
  In (select previous first (first :: rest)) (first :: rest).
Proof.
  unfold select. destruct previous as [prev|]; [|left; reflexivity].
  destruct (truthy_str prev && (1 <? length (first :: rest))%nat); [|left; reflexivity].
  destruct (List.find _ (first :: rest)) as [p|] eqn:F; [|left; reflexivity].
  destruct (truthy_str p); [|left; reflexivity].
  apply find_some in F. apply F.
Qed.

Lemma candidates_healthy m consumer p :
  In p (candidates m consumer) -> is_healthy m p = true.
Proof. unfold candidates. intros H. apply filter_In in H. apply H. Qed.

Lemma getProxy_returns_healthy fuel : forall m now consumer previous p m',
  getProxy fuel m now consumer previous = Some (Some p, m') ->
  is_healthy m p = true.
Proof.
  induction fuel as [|fuel IH]; intros m now consumer previous p m'; [discriminate |].
  rewrite getProxy_unfold.
  destruct (negb (enabled (config m))); [discriminate |].
  destruct (sort_by (last_used m) (candidates m consumer)) as [|first rest] eqn:Es.
  - intros H. apply IH in H. rewrite cleared_is_healthy in H. exact H.
  - intros [= <- _]. apply (candidates_healthy m consumer).
    apply (sort_by_In (last_used m)). rewrite Es. apply select_In.
Qed.

Lemma truthy_str_iff s : truthy_str s = true <-> s <> "".
Proof. destruct s; simpl; split; congruence. Qed.

Lemma two_distinct (l : list string) pv :
  List.NoDup l -> (1 < length l)%nat -> exists q, In q l /\ q <> pv.
Proof.
  destruct l as [|a [|b t]]; simpl; try lia. intros Hnd _.
  destruct (string_dec a pv) as [->|Ha]; [|exists a; auto].
  exists b. split; [auto |]. intros ->.
  inversion Hnd as [|? ? Hnot _]; subst. apply Hnot. left. reflexivity.
Qed.

Section Choice.

Variable key : string -> Z.
Variables (first : string) (rest : list string).
Hypothesis Hsorted : StronglySorted (key_le key) (first :: rest).

Lemma select_unsupplied previous :
  supplied previous = None ->
  select previous first (first :: rest) = first.
Proof.
  unfold supplied, select. destruct previous as [pv|]; [|reflexivity].
  destruct (truthy_str pv); [discriminate | reflexivity].
Qed.

Lemma select_supplied previous pv :
  supplied previous = Some pv ->
  (forall q, In q (first :: rest) -> q <> "") ->
  let p := select previous first (first :: rest) in
  ((exists q, In q (first :: rest) /\ q <> pv) ->
     p <> pv /\ forall q, In q (first :: rest) -> q <> pv -> key p <= key q) /\
  ((forall q, In q (first :: rest) -> q = pv) -> p = pv).
Proof.
  unfold supplied. destruct previous as [pv'|]; [|discriminate].
  destruct (truthy_str pv') eqn:Tp; [|discriminate]. intros [= ->] Hne.
  unfold select. rewrite Tp. cbn [andb].
  pose proof (head_sorted_least key first rest Hsorted) as Hmin.
  destruct (1 <? length (first :: rest))%nat eqn:Hlen.
  - destruct (List.find (fun p => negb (String.eqb p pv)) (first :: rest)) as [p|] eqn:F.
    + pose proof (find_some _ _ F) as [Hin Hp].
      apply negb_true_iff, String.eqb_neq in Hp.
      assert (Tq : truthy_str p = true) by (apply truthy_str_iff, Hne, Hin).
      rewrite Tq. cbv zeta. split.
      * intros _. split; [exact Hp |]. intros q Hq Hqp.
        apply (find_sorted_least key _ _ _ Hsorted F q Hq).
        apply negb_true_iff, String.eqb_neq, Hqp.
      * intros Hall. elim Hp. apply Hall, Hin.
    + cbv zeta. split.
      * intros (q & Hq & Hqp). exfalso.
        pose proof (find_none _ _ F q Hq) as Hn. simpl in Hn.
        apply negb_false_iff, String.eqb_eq in Hn. contradiction.
      * intros Hall. apply Hall. left. reflexivity.
  - cbv zeta. assert (rest = []) as ->.
    { apply Nat.ltb_ge in Hlen. destruct rest; [reflexivity | simpl in Hlen; lia]. }
    split.
    + intros (q & [<-|[]] & Hqp). split; [exact Hqp |]. intros q Hq _. apply Hmin, Hq.
    + intros Hall. apply Hall. left. reflexivity.
Qed.

End Choice.

(** The stamp of an endpoint in the map [lastUsed]: the time of its last
    use, 0 when the map holds none. *)
Definition stamp (used : gmap string Z) (proxy : string) : Z := num_or (used !! proxy) 0.

Lemma stamp_insert used p now q :
  stamp (<[p := now]> used) q = if decide (p = q) then now else stamp used q.
Proof.
  unfold stamp. rewrite lookup_insert. case_decide; [|reflexivity].
  unfold num_or, truthy_num. destruct (Z.eqb_spec now 0); simpl; congruence.
Qed.

(** The state after an answer: the assignment is in place, the answer is
    stamped, the candidates are the same. *)
Lemma stamped_answer m consumer p now :
  let m' := with_lastUsed (assigned m consumer) (<[p := now]> (lastUsed m)) in
  config m' = config m /\ lastUsed m' = <[p := now]> (lastUsed m) /\
  candidates m' consumer = candidates m consumer.
Proof.
  cbv zeta. unfold assigned, candidates, is_healthy, allProxies.
  destruct (providerAssignments m !! consumer) as [l|] eqn:E; simpl.
  - rewrite E. repeat split.
  - rewrite lookup_insert_eq. repeat split.
Qed.

(** C9.  When the consumer has a healthy candidate, [getProxy] answers on
    the first call with a healthy candidate and stamps it in [lastUsed]
    with the current time, leaving every other stamp and the candidates
    as they were.  Without a previous proxy the answer has the least
    stamp among the candidates.  With a previous proxy supplied: if some
    healthy candidate differs from it (in particular if there is more
    than one candidate, each listed once) the answer differs from it and
    has the least stamp among those that differ; if it is the only
    healthy candidate the answer is the previous proxy itself.  The stamp
    written by the answer counts at the next call: given at a time later
    than every candidate's stamp, the answer is not dealt again by the
    next call without a previous proxy while another candidate exists,
    and that call deals the least stamped of the others. *)
Theorem getProxy_least_recently_used m now consumer previous :
  enabled (config m) = true ->
  candidates m consumer <> [] ->
  (forall q, In q (candidates m consumer) -> q <> "") ->
  exists p m',
    (forall fuel, getProxy (S fuel) m now consumer previous = Some (Some p, m')) /\
    In p (candidates m consumer) /\
    lastUsed m' !! p = Some now /\
    lastUsed m' = <[p := now]> (lastUsed m) /\
    candidates m' consumer = candidates m consumer /\
    match supplied previous with
    | None =>
        forall q, In q (candidates m consumer) ->
                  stamp (lastUsed m) p <= stamp (lastUsed m) q
    | Some pv =>
        ((exists q, In q (candidates m consumer) /\ q <> pv) ->
           p <> pv /\
           forall q, In q (candidates m consumer) -> q <> pv ->
                     stamp (lastUsed m) p <= stamp (lastUsed m) q) /\
        (List.NoDup (candidates m consumer) ->
           (1 < length (candidates m consumer))%nat -> p <> pv) /\
        ((forall q, In q (candidates m consumer) -> q = pv) -> p = pv)
    end /\
    ((forall q, In q (candidates m consumer) -> stamp (lastUsed m) q < now) ->
     (exists q, In q (candidates m consumer) /\ q <> p) ->
     forall now', exists p' m'',
       (forall fuel, getProxy (S fuel) m' now' consumer None = Some (Some p', m'')) /\
       p' <> p /\ In p' (candidates m consumer) /\
       forall q, In q (candidates m consumer) -> q <> p ->
                 stamp (lastUsed m) p' <= stamp (lastUsed m) q).
Proof.
  intros He Hc Hne.
  destruct (sort_by (last_used m) (candidates m consumer)) as [|first rest] eqn:Es;
    [apply sort_by_nil in Es; contradiction |].
  pose proof (sort_by_sorted (last_used m) (candidates m consumer)) as Hs. rewrite Es in Hs.
  assert (Hiff : forall q, In q (first :: rest) <-> In q (candidates m consumer))
    by (intros q; rewrite <- Es; apply sort_by_In).
  set (p := select previous first (first :: rest)).
  destruct (stamped_answer m consumer p now) as (Hcfg' & Hused' & Hcand').
  exists p, (with_lastUsed (assigned m consumer) (<[p := now]> (lastUsed m))).
  split; [intros fuel; rewrite getProxy_unfold, He, Es; reflexivity |].
  split; [apply Hiff, select_In |].
  split; [simpl; apply lookup_insert_eq |].
  split; [exact Hused' |]. split; [exact Hcand' |]. split.
  - destruct (supplied previous) as [pv|] eqn:Ep.
    + destruct (select_supplied (last_used m) first rest Hs previous pv Ep) as [HA HB];
        [intros q Hq; apply Hne, Hiff, Hq |].
      split; [|split].
      * intros (q & Hq & Hqp). destruct HA as [H1 H2]; [exists q; split; [apply Hiff|]; assumption |].
        split; [exact H1 |]. intros q' Hq' Hne'. apply H2; [apply Hiff|]; assumption.
      * intros Hnd Hlen. destruct (two_distinct _ pv Hnd Hlen) as (q & Hq & Hqp).
        apply HA. exists q. split; [apply Hiff|]; assumption.
      * intros Hall. apply HB. intros q Hq. apply Hall, Hiff, Hq.
    + unfold p. rewrite (select_unsupplied first rest previous Ep).
      intros q Hq. apply (head_sorted_least (last_used m) first rest Hs), Hiff, Hq.
  - intros Hold (q & Hq & Hqp) now'.
    set (m' := with_lastUsed (assigned m consumer) (<[p := now]> (lastUsed m))) in *.
    assert (Hkey : forall x, last_used m' x = if decide (p = x) then now else stamp (lastUsed m) x).
    { intros x. unfold last_used. rewrite Hused'. apply stamp_insert. }
    destruct (sort_by (last_used m') (candidates m' consumer)) as [|p' rest'] eqn:Es';
      [apply sort_by_nil in Es'; rewrite Hcand' in Es'; contradiction |].
    pose proof (sort_by_sorted (last_used m') (candidates m' consumer)) as Hs'.
    rewrite Es' in Hs'.
    assert (Hiff' : forall x, In x (p' :: rest') <-> In x (candidates m consumer))
      by (intros x; rewrite <- Es', <- Hcand'; apply sort_by_In).
    pose proof (head_sorted_least (last_used m') p' rest' Hs') as Hmin.
    assert (Hp' : p' <> p).
    { intros ->. specialize (Hmin q (proj2 (Hiff' q) Hq)). rewrite !Hkey in Hmin.
      rewrite decide_True in Hmin by reflexivity.
      rewrite decide_False in Hmin by congruence.
      specialize (Hold q Hq). lia. }
    exists p'. eexists. split; [|split; [exact Hp' |split]].
    + intros fuel. rewrite getProxy_unfold, Hcfg', He, Es'. reflexivity.
    + apply Hiff'. left. reflexivity.
    + intros x Hx Hxp. specialize (Hmin x (proj2 (Hiff' x) Hx)). rewrite !Hkey in Hmin.
      rewrite !decide_False in Hmin by congruence. exact Hmin.
Qed.

Lemma getProxy_least_recently_used_witness :
  exists p m',
    getProxy 1 (initialize sample_config) 1000 "FinancialHandler"
      (Some "http://proxy1:8080") = Some (Some p, m') /\
    p <> "http://proxy1:8080" /\
    lastUsed m' !! p = Some 1000.
Proof.
  destruct (getProxy_least_recently_used (initialize sample_config) 1000
              "FinancialHandler" (Some "http://proxy1:8080"))
    as (p & m' & Hrun & _ & Hstamp & _ & _ & (_ & Hdiff & _) & _).
  - reflexivity.
  - vm_compute. discriminate.
  - intros q Hq. vm_compute in Hq. intuition (subst; discriminate).
  - exists p, m'. split; [apply (Hrun O) |]. split; [|exact Hstamp].
    apply Hdiff; vm_compute; [|lia].
    repeat constructor; simpl; intuition discriminate.
Defined.

Lemma dead_pool_reachable : reachable single_config dead_pool.
Proof. unfold dead_pool. repeat (eapply reach_step; [|apply step_error]). apply reach_init. Qed.

(** C5.  In every state reachable through probes, reported errors and
    selections: an endpoint is flagged unhealthy exactly when its count of
    consecutive failures has reached 3; a failed probe and a reported
    error add one to the same counter; one successful probe makes the
    endpoint healthy with count 0; and a selection returns only endpoints
    whose health flag is true. *)
Theorem proxy_health_invariant cfg m :
  reachable cfg m ->
  (forall p s, healthStatus m !! p = Some s ->
     (healthy s = false <-> (3 <= failCount s)%nat)) /\
  (forall now p err s, healthStatus m !! p = Some s ->
     exists s1 s2,
       healthStatus (snd (checkProxyHealth m now p None)) !! p = Some s1 /\
       healthStatus (markProxyError m p err) !! p = Some s2 /\
       failCount s1 = S (failCount s) /\ failCount s2 = S (failCount s) /\
       healthy s1 = healthy s2 /\
       (healthy s1 = false <-> (3 <= S (failCount s))%nat)) /\
  (forall now p t,
     exists s', healthStatus (snd (checkProxyHealth m now p (Some t))) !! p = Some s' /\
                healthy s' = true /\ failCount s' = 0%nat) /\
  (forall fuel now consumer previous p m',
     getProxy fuel m now consumer previous = Some (Some p, m') ->
     exists s, healthStatus m !! p = Some s /\ healthy s = true).
Proof.
  intros Hr. pose proof (reachable_consistent cfg m Hr) as Hc.
  split; [|split; [|split]].
  - intros p s Hs. rewrite (Hc p s Hs).
    destruct (Nat.ltb_spec (failCount s) 3); split; intros; try lia; congruence.
  - intros now p err s Hs. unfold checkProxyHealth, updateProxyHealth, markProxyError.
    rewrite Hs. simpl. rewrite !lookup_insert_eq.
    eexists _, _. split; [reflexivity |]. split; [reflexivity |]. simpl.
    repeat split; try reflexivity;
      destruct (Nat.ltb_spec (S (failCount s)) 3); intros; try lia; congruence.
  - intros now p t. unfold checkProxyHealth, updateProxyHealth. simpl.
    rewrite lookup_insert_eq. eexists. split; [reflexivity |]. split; reflexivity.
  - intros fuel now consumer previous p m' H.
    apply getProxy_returns_healthy in H. unfold is_healthy in H.
    destruct (healthStatus m !! p) as [s|]; [|discriminate]. exists s. auto.
Qed.

Lemma proxy_health_invariant_witness :
  exists s, healthStatus dead_pool !! "http://proxy1:8080" = Some s /\
            healthy s = false /\ (3 <= failCount s)%nat.
Proof.
  destruct (healthStatus dead_pool !! "http://proxy1:8080") as [s|] eqn:E;
    [|vm_compute in E; discriminate].
  exists s. split; [reflexivity |].
  assert (Hs : healthy s = false) by (vm_compute in E; injection E as <-; reflexivity).
  split; [exact Hs |].
  apply (proj1 (proxy_health_invariant single_config dead_pool dead_pool_reachable) _ s E).
  exact Hs.
Defined.

(** ** Worked selections *)

Example getProxy_first_call :
  fst <$> getProxy 1 (initialize sample_config) 1000 "FinancialHandler" None
  = Some (Some "http://proxy1:8080").
Proof. vm_compute. reflexivity. Qed.

Example getProxy_after_three_failures :
  let m := updateProxyHealth
             (updateProxyHealth
                (updateProxyHealth (initialize sample_config) 10 "http://proxy1:8080" false None)
                20 "http://proxy1:8080" false None)
             30 "http://proxy1:8080" false None in
  is_healthy m "http://proxy1:8080" = false /\
  fst <$> getProxy 1 m 1000 "FinancialHandler" None = Some (Some "http://proxy2:8080") /\
  is_healthy (updateProxyHealth m 40 "http://proxy1:8080" true (Some 120))
    "http://proxy1:8080" = true.
Proof. vm_compute. repeat split. Qed.

End ProxyManagerProps.

Module Sha256Props.
Import Sha256.

Example sha256_abc :
  sha256hex "abc" = "ba7816bf8f01cfea414140de5dae2223b00361a396177a9cb410ff61f20015ad".
Proof. vm_compute. reflexivity. Qed.

Example sha256_empty :
  sha256hex "" = "e3b0c44298fc1c149afbf4c8996fb92427ae41e4649b934ca495991b7852b855".
Proof. vm_compute. reflexivity. Qed.

Example sha256_two_blocks :
  sha256hex "abcdbcdecdefdefgefghfghighijhijkijkljklmklmnlmnomnopnopq"
  = "248d6a61d20638b8e5c026930c3e6039a33ce45964ff2167f6ecedd419db06c1".
Proof. vm_compute. reflexivity. Qed.

Lemma sha256hex_length s : String.length (sha256hex s) = 64%nat.
Proof. unfold sha256hex. destruct (hash s). reflexivity. Qed.

End Sha256Props.

(* ===================================================================== *)
(** * Properties of the result cache *)
(* ===================================================================== *)

Module CacheManagerProps.
Import Json CacheManager.

(** ** Key derivation *)

Definition ab_object : json := JObject [("a", JNumber 1); ("b", JNumber 2)].
Definition ba_object : json := JObject [("b", JNumber 2); ("a", JNumber 1)].

(** The text that is hashed. *)
Definition serialized (data : key_material) : option string :=
  match data with
  | KString s => Some s
  | KValue v => Some (stringify v)
  | KUndefined => None
  end.

Example generateKey_ab :
  generateKey "FinancialHandler" (KValue ab_object)
  = Ok "FinancialHandler:43258cff783fe7036d8a43033f830adfc60ec037382473548ac742b888292777".
Proof. vm_compute. reflexivity. Qed.

Example generateKey_ba :
  generateKey "FinancialHandler" (KValue ba_object)
  = Ok "FinancialHandler:3fb75453225c732a76b7899ea2096dda1455189c89817239732182f73fe5a09f".
Proof. vm_compute. reflexivity. Qed.

Example stringify_nested :
  Sha256.sha256hex
    (stringify (JObject [("url", JString "https://example.com/a?b=1");
                         ("tags", JArray [JString "x"; JNull; JBool true; JNumber (-42)])]))
  = Sha256.sha256hex
      (String.concat ""
         ["{"; dquote; "url"; dquote; ":"; dquote; "https://example.com/a?b=1"; dquote; ",";
          dquote; "tags"; dquote; ":["; dquote; "x"; dquote; ",null,true,-42]}"]).
Proof. vm_compute. reflexivity. Qed.

Lemma same_data_ab_ba : same_data ab_object ba_object.
Proof.
  unfold ab_object, ba_object.
  eapply same_object; [apply perm_swap |].
  repeat constructor.
Qed.

Lemma append_length (s t : string) :
  String.length (s ++ t) = (String.length s + String.length t)%nat.
Proof. induction s as [|c s IH]; simpl; [reflexivity | rewrite IH; reflexivity]. Qed.

(** Equal texts with tails of equal length have equal heads. *)
Lemma append_same_tail_length (s1 s2 t1 t2 : string) :
  (s1 ++ t1 = s2 ++ t2)%string -> String.length t1 = String.length t2 -> s1 = s2.
Proof.
  revert s2. induction s1 as [|c s1 IH]; intros [|d s2] E L;
    unfold String.append in E; fold String.append in E.
  - reflexivity.
  - exfalso. subst t1. simpl in L. rewrite append_length in L. lia.
  - exfalso. subst t2. simpl in L. rewrite append_length in L. lia.
  - injection E as -> E. f_equal. apply IH; assumption.
Qed.

Lemma generateKey_serialized category data text :
  serialized data = Some text ->
  generateKey category data = Ok (category ++ ":" ++ Sha256.sha256hex text)%string.
Proof. unfold generateKey, serialized. destruct data; intros [= <-]; reflexivity. Qed.

Lemma generateKey_Ok category data k :
  generateKey category data = Ok k ->
  exists text, serialized data = Some text /\
               k = (category ++ ":" ++ Sha256.sha256hex text)%string.
Proof.
  unfold generateKey, serialized.
  destruct data; intros [= <-]; eexists; split; reflexivity.
Qed.

(** C8 (amended).  The derived key is the category, a colon, and the
    SHA-256 of the key material as [JSON.stringify] writes it (a string is
    hashed as it is).  Two calls with the same category whose key material
    serializes to the same text derive the same key, and keys derived for
    distinct categories are distinct. *)
Theorem generateKey_deterministic_namespaced category1 category2 data1 data2 text1 text2 :
  serialized data1 = Some text1 -> serialized data2 = Some text2 ->
  generateKey category1 data1 = Ok (category1 ++ ":" ++ Sha256.sha256hex text1)%string /\
  (category1 = category2 -> text1 = text2 ->
     generateKey category1 data1 = generateKey category2 data2) /\
  (category1 <> category2 -> generateKey category1 data1 <> generateKey category2 data2).
Proof.
  intros H1 H2.
  rewrite (generateKey_serialized _ _ _ H1), (generateKey_serialized _ _ _ H2).
  split; [reflexivity |]. split; [intros -> ->; reflexivity |].
  intros Hne [= E]. apply Hne.
  apply (append_same_tail_length _ _ _ _ E).
  rewrite !append_length, !Sha256Props.sha256hex_length. reflexivity.
Qed.

Lemma generateKey_deterministic_namespaced_witness :
  generateKey "FinancialHandler" (KValue ab_object)
  = Ok ("FinancialHandler" ++ ":" ++ Sha256.sha256hex (stringify ab_object))%string /\
  generateKey "FinancialHandler" (KValue ab_object)
  <> generateKey "EcommerceHandler" (KValue ab_object).
Proof.
  destruct (generateKey_deterministic_namespaced
              "FinancialHandler" "EcommerceHandler" (KValue ab_object) (KValue ab_object)
              _ _ eq_refl eq_refl) as (Hkey & _ & Hdistinct).
  split; [exact Hkey | apply Hdistinct; discriminate].
Defined.

(** C8 as stated fails: an object's members are serialized in the order
    the object lists them, so the same data listed in another order
    derives another key. *)
Lemma generateKey_depends_on_member_order :
  same_data ab_object ba_object /\
  generateKey "FinancialHandler" (KValue ab_object)
  <> generateKey "FinancialHandler" (KValue ba_object).
Proof.
  split; [apply same_data_ab_ba |].
  rewrite generateKey_ab, generateKey_ba. discriminate.
Qed.

(** ** Reads, writes and failures *)

Definition sample_config : Config :=
  {| enabled := true; type := "sqlite"; ttl := Some 3600;
     categories := {[ "FinancialHandler" := 300 ]} |}.

Definition remote_config : Config :=
  {| enabled := true; type := "redis"; ttl := Some 3600; categories := ∅ |}.

Definition stale_key : string :=
  "FinancialHandler:ba7816bf8f01cfea414140de5dae2223b00361a396177a9cb410ff61f20015ad".

(** An embedded store holding one row that expired at 5000 and has not
    been swept. *)
Definition sample_cache : Manager :=
  {| config := sample_config; ready := true;
     rows := {[ stale_key := {| value := "42"; category := "FinancialHandler";
                                expires_at := 5000; created_at := 2000 |} ]};
     remote := ∅ |}.

Definition starting_cache : Manager :=
  {| config := sample_config; ready := false; rows := ∅; remote := ∅ |}.

(** A parser that accepts only the literal [null]; it stands for
    [JSON.parse] where a concrete parser is needed. *)
Definition parse_null (text : string) : result json :=
  if String.eqb text "null" then Ok JNull else Throw (SyntaxError "Unexpected token").

Definition effective_ttl (m : Manager) (category : string) (customTTL : option Z) : Z :=
  num_or customTTL (getTTL (config m) category).

Lemma stored_with_rows m t k :
  is_remote m = false ->
  stored (with_rows m t) k = (fun r => (value r, expires_at r)) <$> t !! k.
Proof. unfold stored, is_remote. simpl. intros ->. reflexivity. Qed.

Lemma stored_with_remote m r k :
  is_remote m = true ->
  stored (with_remote m r) k = (fun e => (payload e, expire_at e)) <$> r !! k.
Proof. unfold stored, is_remote. simpl. intros ->. reflexivity. Qed.

Lemma set_true_stored m now fault category key v customTTL cacheKey m' :
  generateKey category key = Ok cacheKey ->
  set m now fault category key v customTTL = (Ok true, m') ->
  stored m' cacheKey
    = Some (stringify v, now + effective_ttl m category customTTL * 1000) /\
  (forall k, k <> cacheKey -> stored m' k = stored m k).
Proof.
  intros Hk. unfold set, effective_ttl. rewrite Hk.
  destruct (off m); [discriminate |].
  destruct (is_remote m) eqn:R.
  - unfold remote_set, backend. destruct fault; simpl; [discriminate |].
    destruct (0 <? _); simpl; [|discriminate]. intros [= <-].
    split; [|intros k Hne]; rewrite (stored_with_remote _ _ _ R).
    + rewrite lookup_insert_eq. reflexivity.
    + rewrite lookup_insert_ne by congruence. unfold stored. rewrite R. reflexivity.
  - unfold backend. destruct fault; simpl; [discriminate |]. intros [= <-].
    split; [|intros k Hne]; rewrite (stored_with_rows _ _ _ R).
    + rewrite lookup_insert_eq. reflexivity.
    + rewrite lookup_insert_ne by congruence. unfold stored. rewrite R. reflexivity.
Qed.

Lemma set_succeeds m now category key v customTTL cacheKey :
  off m = false -> generateKey category key = Ok cacheKey ->
  (is_remote m = true -> 0 < effective_ttl m category customTTL) ->
  exists m', set m now None category key v customTTL = (Ok true, m').
Proof.
  intros Hoff Hk Httl. unfold set. rewrite Hoff, Hk.
  destruct (is_remote m) eqn:R; simpl; [|eexists; reflexivity].
  unfold remote_set. simpl. fold (effective_ttl m category customTTL).
  destruct (Z.ltb_spec 0 (effective_ttl m category customTTL)) as [_|H];
    [eexists; reflexivity | specialize (Httl eq_refl); lia].
Qed.

(** C6.  Whichever backend is active, [get] on a key whose stored entry
    has its expiry instant in the past is a miss, also for a row of the
    embedded store that the sweep has not deleted yet; and a [set] that
    succeeds leaves exactly the new payload and expiry under the key,
    whatever was stored there before. *)
Theorem get_expired_miss_set_overwrites JSON_parse m now fault category key cacheKey :
  generateKey category key = Ok cacheKey ->
  (forall text expiry,
     stored m cacheKey = Some (text, expiry) -> expiry < now ->
     get JSON_parse m now fault category key = Ok JNull) /\
  (forall v customTTL,
     off m = false ->
     (is_remote m = true -> 0 < effective_ttl m category customTTL) ->
     exists m', set m now None category key v customTTL = (Ok true, m')) /\
  (forall v customTTL m',
     set m now fault category key v customTTL = (Ok true, m') ->
     stored m' cacheKey
       = Some (stringify v, now + effective_ttl m category customTTL * 1000) /\
     forall k, k <> cacheKey -> stored m' k = stored m k).
Proof.
  intros Hk. split; [|split].
  - intros text expiry Hs Hexp. unfold get. rewrite Hk.
    destruct (off m); [reflexivity |]. simpl. unfold stored in Hs.
    destruct (is_remote m).
    + unfold remote_get. destruct (remote m !! cacheKey) as [e|]; [|discriminate].
      injection Hs as _ He.
      destruct (Z.ltb_spec now (expire_at e)); [lia |].
      destruct fault; reflexivity.
    + destruct (rows m !! cacheKey) as [r|]; [|discriminate].
      injection Hs as _ He.
      destruct fault; simpl; [reflexivity |].
      destruct (Z.ltb_spec (expires_at r) now); [reflexivity | lia].
  - intros v customTTL Hoff Httl. eapply set_succeeds; eauto.
  - intros v customTTL m' Hset. eapply set_true_stored; eauto.
Qed.

Lemma get_expired_miss_set_overwrites_witness :
  get parse_null sample_cache 6000 None "FinancialHandler" (KString "abc") = Ok JNull.
Proof.
  refine (proj1 (get_expired_miss_set_overwrites parse_null sample_cache 6000 None
                   "FinancialHandler" (KString "abc") stale_key _) "42" 5000 _ _).
  - vm_compute. reflexivity.
  - vm_compute. reflexivity.
  - lia.
Defined.

(** C10 (amended).  With the cache disabled or not yet initialized [get]
    returns [null] and [set], [delete], [clear] return [false] and leave
    both stores as they are, for every input.  When the backend raises,
    [get] returns [null] and the others return [false].  No operation
    throws when the key material is a string or a serializable value, and
    [clear] never throws. *)
Theorem cache_operations_guarded JSON_parse m now fault category key v customTTL :
  (off m = true ->
     get JSON_parse m now fault category key = Ok JNull /\
     set m now fault category key v customTTL = (Ok false, m) /\
     delete m fault category key = (Ok false, m) /\
     clear m fault category = (Ok false, m)) /\
  (forall e, fault = Some e ->
     (serialized key <> None ->
        get JSON_parse m now fault category key = Ok JNull /\
        set m now fault category key v customTTL = (Ok false, m) /\
        delete m fault category key = (Ok false, m)) /\
     clear m fault category = (Ok false, m)) /\
  (serialized key <> None ->
     is_throw (get JSON_parse m now fault category key) = false /\
     is_throw (fst (set m now fault category key v customTTL)) = false /\
     is_throw (fst (delete m fault category key)) = false) /\
  is_throw (fst (clear m fault category)) = false.
Proof.
  split; [|split; [|split]].
  - intros Hoff. unfold get, set, delete, clear. rewrite Hoff. repeat split.
  - intros e ->. split.
    + intros Hser. destruct (serialized key) as [text|] eqn:Es; [|contradiction].
      unfold get, set, delete. rewrite (generateKey_serialized _ _ _ Es).
      destruct (off m); [repeat split |]. simpl.
      unfold remote_set. simpl. destruct (is_remote m); repeat split.
    + unfold clear. destruct (off m); reflexivity.
  - intros Hser. destruct (serialized key) as [text|] eqn:Es; [|contradiction].
    unfold get, set, delete. rewrite (generateKey_serialized _ _ _ Es).
    destruct (off m); [repeat split |]. simpl. split; [|split].
    + destruct (is_remote m); destruct fault; simpl; try reflexivity.
      * destruct (remote_get _ _ _) as [t|]; [|reflexivity].
        destruct (truthy_str t); [|reflexivity]. destruct (JSON_parse t); reflexivity.
      * destruct (rows m !! _) as [r|]; [|reflexivity].
        destruct (expires_at r <? now); [reflexivity |].
        destruct (JSON_parse (value r)); reflexivity.
    + unfold remote_set. destruct (is_remote m); destruct fault; simpl; try reflexivity.
      destruct (0 <? _); reflexivity.
    + destruct fault; reflexivity.
  - unfold clear. destruct (off m); [reflexivity |]. destruct fault; reflexivity.
Qed.

Lemma cache_operations_guarded_witness :
  get parse_null starting_cache 6000 None "FinancialHandler" KUndefined = Ok JNull /\
  delete starting_cache None "FinancialHandler" KUndefined = (Ok false, starting_cache).
Proof.
  destruct (proj1 (cache_operations_guarded parse_null starting_cache 6000 None
                     "FinancialHandler" KUndefined JNull None) eq_refl)
    as (Hget & _ & Hdel & _).
  split; [exact Hget | exact Hdel].
Defined.

(** C10 as stated fails: the key is derived before the guarded region is
    entered, so key material that does not serialize to a string makes an
    enabled, initialized cache throw. *)
Lemma cache_operations_throw_on_undefined_key :
  is_throw (fst (delete sample_cache None "FinancialHandler" KUndefined)) = true /\
  is_throw (fst (set sample_cache 6000 None "FinancialHandler" KUndefined JNull None)) = true /\
  (forall JSON_parse,
     is_throw (get JSON_parse sample_cache 6000 None "FinancialHandler" KUndefined) = true).
Proof. repeat split. Qed.

Example set_replaces_stale_row :
  stored sample_cache stale_key = Some ("42", 5000) /\
  stored (snd (set sample_cache 6000 None "FinancialHandler" (KString "abc")
                 (JBool true) None)) stale_key
    = Some ("true", 306000) /\
  stored (cleanup sample_cache 6000 None) stale_key = None.
Proof. vm_compute. repeat split. Qed.

End CacheManagerProps.

(* ===================================================================== *)
(** * Properties of submission, scheduled entries and shutdown *)
(* ===================================================================== *)

Module SchedulerEntriesProps.
Import SchedulerEntries.

(** ** The run of one task *)

Section RunFacts.

Variable cfg : Scheduler.RetryConfig.
Variable random : nat -> Q.

Lemma executeTask_next_id slots : forall task st,
  (Scheduler.next_id st
   < Scheduler.next_id (snd (Scheduler.executeTask cfg random slots task st)))%nat.
Proof.
  induction slots as [|free IH]; intros task st; simpl; [lia |].
  unfold Scheduler.runTask. simpl.
  destruct (Scheduler.handler task (Scheduler.invocations st)); simpl; [lia |].
  destruct (0 <? Scheduler.max_attempts cfg)%nat; simpl; [|lia].
  unfold Scheduler.retryTask.
  match goal with |- context [Scheduler.executeTask cfg random free ?t ?s] =>
    pose proof (IH t s) as H end.
  unfold Scheduler.sleep in *. simpl in *. lia.
Qed.

(** With no free slot nothing is invoked and nothing is emitted. *)
Lemma executeTask_no_slot task st :
  Scheduler.executeTask cfg random 0 task st
  = (Scheduler.Pending, snd (Scheduler.generateTaskId st)).
Proof. reflexivity. Qed.

End RunFacts.

(** ** The map of scheduled entries *)

Lemma entry_get_delete l i : entry_get (entry_delete l i) i = None.
Proof.
  induction l as [|[j e] l IH]; simpl; [reflexivity |].
  destruct (Nat.eqb_spec j i); simpl; [exact IH |].
  destruct (Nat.eqb_spec j i); [contradiction | exact IH].
Qed.

Lemma entry_get_delete_ne l i j :
  j <> i -> entry_get (entry_delete l i) j = entry_get l j.
Proof.
  intros Hne. induction l as [|[k e] l IH]; simpl; [reflexivity |].
  destruct (Nat.eqb_spec k i); simpl.
  - subst k. destruct (Nat.eqb_spec i j); [congruence | exact IH].
  - destruct (Nat.eqb_spec k j); [reflexivity | exact IH].
Qed.

Lemma entry_get_set l i e j :
  entry_get (entry_set l i e) j = if (i =? j)%nat then Some e else entry_get l j.
Proof.
  induction l as [|[k e'] l IH]; simpl.
  - reflexivity.
  - destruct (Nat.eqb_spec k i); simpl.
    + subst k. destruct (Nat.eqb_spec i j); reflexivity.
    + destruct (Nat.eqb_spec k j); [|exact IH].
      subst k. destruct (Nat.eqb_spec i j); [congruence | reflexivity].
Qed.



Section EntriesFacts.

Variable cfg : Scheduler.RetryConfig.
Variable random : nat -> Q.
Variable cron_validate : string -> bool.

(** Every queue is paused. *)
Definition frozen (s : Sched) : Prop :=
  forall n q, queues s !! n = Some q -> is_paused q = true.


(** [executeTask] touches the run state and the task's queue only, and
    consumes at least one task id. *)
Lemma executeTask_frame s task :
  exists st qs,
    snd (executeTask cfg random s task) = with_queues (with_run s st) qs /\
    (Scheduler.next_id (run s) < Scheduler.next_id st)%nat /\
    (forall n, is_Some (qs !! n) <-> is_Some (queues s !! n)) /\
    (frozen s ->
     Scheduler.invocations st = Scheduler.invocations (run s) /\
     Scheduler.events st = Scheduler.events (run s) /\
     forall n q, qs !! n = Some q -> is_paused q = true).
Proof.
  unfold executeTask. destruct (queues s !! tier_of task) as [q|] eqn:Eq.
  - destruct (Scheduler.executeTask cfg random (free_slots q) (to_task task) (run s))
      as [o st] eqn:E.
    exists st, (<[tier_of task := occupy q o]> (queues s)). simpl.
    split; [reflexivity |]. split; [|split].
    + pose proof (executeTask_next_id cfg random (free_slots q) (to_task task) (run s)) as H.
      rewrite E in H. exact H.
    + intros n. rewrite lookup_insert. case_decide; [subst n; rewrite Eq |]; [|reflexivity].
      split; intros _; eexists; reflexivity.
    + intros Hf. pose proof (Hf _ _ Eq) as Hp.
      unfold free_slots in E. rewrite Hp in E. simpl in E. injection E as <- <-.
      split; [reflexivity |]. split; [reflexivity |].
      intros n q'. rewrite lookup_insert. case_decide; [|apply Hf].
      intros [= <-]. simpl. exact Hp.
  - exists (snd (Scheduler.generateTaskId (run s))), (queues s). simpl.
    split; [reflexivity |]. split; [lia |]. split; [reflexivity |].
    intros Hf. split; [reflexivity |]. split; [reflexivity | exact Hf].
Qed.

(** Ids in the map were handed out; a pending timeout or started job has
    its entry in the map. *)
Record consistent (s : Sched) : Prop := {
  ids_bounded : forall i e, entry_get (scheduledTasks s) i = Some e ->
                            (i < Scheduler.next_id (run s))%nat;
  timers_entries : forall i t, timers s !! i = Some t ->
                               entry_get (scheduledTasks s) i = Some (OneShot t);
  jobs_entries : forall i t, jobs s !! i = Some t ->
                             entry_get (scheduledTasks s) i = Some (Recurring t)
}.

Lemma create_consistent tiers : consistent (create tiers).
Proof.
  split; simpl; intros i x; [discriminate | |]; rewrite lookup_empty; discriminate.
Qed.

Lemma with_run_consistent s st :
  consistent s -> (Scheduler.next_id (run s) <= Scheduler.next_id st)%nat ->
  consistent (with_run s st).
Proof.
  intros [H1 H2 H3] Hle. split; simpl; auto.
  intros i e Hi. specialize (H1 i e Hi). lia.
Qed.

Lemma with_queues_consistent s qs : consistent s -> consistent (with_queues s qs).
Proof. intros [H1 H2 H3]. split; simpl; auto. Qed.

Lemma register_consistent s e :
  consistent s ->
  consistent
    (register (with_run s (snd (Scheduler.generateTaskId (run s))))
              (Scheduler.next_id (run s)) e).
Proof.
  intros [H1 H2 H3]. set (n := Scheduler.next_id (run s)).
  assert (Hfresh : forall i x, entry_get (scheduledTasks s) i = Some x -> i <> n)
    by (intros i x Hi; specialize (H1 i x Hi); unfold n; lia).
  split; simpl.
  - intros i x. rewrite entry_get_set. fold n.
    destruct (Nat.eqb_spec n i); [lia |]. intros Hi. specialize (H1 i x Hi). lia.
  - intros i t. rewrite entry_get_set.
    destruct e as [t0|t0].
    + rewrite lookup_insert. case_decide as Hd.
      * subst i. rewrite Nat.eqb_refl. congruence.
      * destruct (Nat.eqb_spec n i); [contradiction | apply H2].
    + intros Hi. pose proof (H2 i t Hi) as Hg.
      destruct (Nat.eqb_spec n i); [exfalso; eapply Hfresh; eauto | exact Hg].
  - intros i t. rewrite entry_get_set.
    destruct e as [t0|t0].
    + intros Hi. pose proof (H3 i t Hi) as Hg.
      destruct (Nat.eqb_spec n i); [exfalso; eapply Hfresh; eauto | exact Hg].
    + rewrite lookup_insert. case_decide as Hd.
      * subst i. rewrite Nat.eqb_refl. congruence.
      * destruct (Nat.eqb_spec n i); [contradiction | apply H3].
Qed.

Lemma cancel_consistent s taskId :
  consistent s -> consistent (snd (cancelScheduledTask s taskId)).
Proof.
  intros Hs. pose proof Hs as [H1 H2 H3]. unfold cancelScheduledTask.
  destruct (entry_get (scheduledTasks s) taskId) as [e|] eqn:E; [|exact Hs].
  split; simpl.
  - intros i x. destruct (Nat.eq_dec i taskId) as [->|Hne];
      [rewrite entry_get_delete; discriminate |].
    rewrite entry_get_delete_ne by exact Hne. apply H1.
  - intros i t Hi. destruct (Nat.eq_dec i taskId) as [->|Hne].
    + exfalso. destruct e; [rewrite lookup_delete_eq in Hi; discriminate |].
      apply H2 in Hi. congruence.
    + rewrite entry_get_delete_ne by exact Hne. apply H2.
      destruct e; [rewrite lookup_delete_ne in Hi by congruence |]; exact Hi.
  - intros i t Hi. destruct (Nat.eq_dec i taskId) as [->|Hne].
    + exfalso. destruct e; [|rewrite lookup_delete_eq in Hi; discriminate].
      apply H3 in Hi. congruence.
    + rewrite entry_get_delete_ne by exact Hne. apply H3.
      destruct e; [|rewrite lookup_delete_ne in Hi by congruence]; exact Hi.
Qed.

Lemma cancel_all_consistent ids : forall s,
  consistent s ->
  consistent (fold_left (fun s taskId => snd (cancelScheduledTask s taskId)) ids s).
Proof.
  induction ids as [|i ids IH]; intros s Hs; simpl; [exact Hs |].
  apply IH, cancel_consistent, Hs.
Qed.

Lemma stop_consistent s : consistent s -> consistent (snd (stop s)).
Proof.
  intros Hs. unfold stop. destruct (pause_idle (names s) (queues s)) as [[|] qs]; simpl.
  - apply cancel_all_consistent, with_queues_consistent, Hs.
  - apply with_queues_consistent, Hs.
Qed.

Lemma entries_step_consistent s s' :
  step cfg random cron_validate s s' -> consistent s -> consistent s'.
Proof.
  intros [s0 now task | s0 taskId | s0 taskId | s0 taskId | s0] Hs.
  - unfold schedule. destruct (validateTask s0 task); [|exact Hs].
    destruct (is_scheduled task).
    + unfold scheduleRecurringTask. simpl.
      assert (Hw : consistent (with_run s0 (snd (Scheduler.generateTaskId (run s0)))))
        by (apply with_run_consistent; [exact Hs | simpl; lia]).
      destruct (schedule_at task); simpl.
      * destruct (truthy_opt (repeat task)); [|exact Hw].
        destruct (cron_validate _); [apply register_consistent, Hs | exact Hw].
      * destruct (t - now <? 0); [exact Hw | apply register_consistent, Hs].
      * apply register_consistent, Hs.
    + destruct (executeTask_frame s0 task) as (st & qs & E & Hlt & _).
      destruct (executeTask cfg random s0 task) as [o s1]. simpl in *. subst s1.
      apply with_queues_consistent, with_run_consistent; [exact Hs | lia].
  - apply cancel_consistent, Hs.
  - unfold fire_timeout. destruct (timers s0 !! taskId) as [task|] eqn:E; [|exact Hs].
    pose proof Hs as [H1 H2 H3].
    match goal with |- context [executeTask cfg random ?s1 task] =>
      destruct (executeTask_frame s1 task) as (st & qs & Ef & Hlt & _) end.
    rewrite Ef. simpl in *. split; simpl.
    + intros i x. destruct (Nat.eq_dec i taskId) as [->|Hne];
        [rewrite entry_get_delete; discriminate |].
      rewrite entry_get_delete_ne by exact Hne. intros Hi. specialize (H1 i x Hi). lia.
    + intros i t Hi. destruct (Nat.eq_dec i taskId) as [->|Hne];
        [rewrite lookup_delete_eq in Hi; discriminate |].
      rewrite lookup_delete_ne in Hi by congruence.
      rewrite entry_get_delete_ne by exact Hne. apply H2, Hi.
    + intros i t Hi. destruct (Nat.eq_dec i taskId) as [->|Hne].
      * exfalso. apply H3 in Hi. apply H2 in E. congruence.
      * rewrite entry_get_delete_ne by exact Hne. apply H3, Hi.
  - unfold fire_cron. destruct (jobs s0 !! taskId) as [task|]; [|exact Hs].
    destruct (executeTask_frame s0 task) as (st & qs & E & Hlt & _). rewrite E.
    apply with_queues_consistent, with_run_consistent; [exact Hs | lia].
  - apply stop_consistent, Hs.
Qed.

Lemma steps_consistent s s' :
  steps cfg random cron_validate s s' -> consistent s -> consistent s'.
Proof. induction 1; eauto using entries_step_consistent. Qed.

Lemma entry_delete_set_fresh l n e :
  entry_get l n = None -> entry_delete (entry_set l n e) n = l.
Proof.
  induction l as [|[k e'] l IH]; simpl.
  - intros _. rewrite Nat.eqb_refl. reflexivity.
  - destruct (Nat.eqb_spec k n); [discriminate |]. intros H. simpl.
    destruct (Nat.eqb_spec k n); [contradiction |]. simpl. f_equal. apply IH, H.
Qed.

(** An id that is not pending, not started, and already handed out. *)
Definition spent (s : Sched) (i : nat) : Prop :=
  timers s !! i = None /\ jobs s !! i = None /\
  entry_get (scheduledTasks s) i = None /\
  (i < Scheduler.next_id (run s))%nat.

Lemma with_run_spent s st i :
  spent s i -> (Scheduler.next_id (run s) <= Scheduler.next_id st)%nat ->
  spent (with_run s st) i.
Proof. intros (H1 & H2 & H3 & H4) Hle. repeat split; simpl; auto. lia. Qed.

Lemma with_queues_spent s qs i : spent s i -> spent (with_queues s qs) i.
Proof. intros (H1 & H2 & H3 & H4). repeat split; assumption. Qed.

Lemma register_spent s e i :
  spent s i ->
  spent (register (with_run s (snd (Scheduler.generateTaskId (run s))))
                  (Scheduler.next_id (run s)) e) i.
Proof.
  intros (H1 & H2 & H3 & H4).
  assert (Hne : Scheduler.next_id (run s) <> i) by lia.
  repeat split; simpl.
  - destruct e; [rewrite lookup_insert_ne by exact Hne |]; exact H1.
  - destruct e; [|rewrite lookup_insert_ne by exact Hne]; exact H2.
  - rewrite entry_get_set. destruct (Nat.eqb_spec (Scheduler.next_id (run s)) i);
      [contradiction | exact H3].
  - lia.
Qed.

Lemma cancel_spent s taskId i :
  spent s i -> spent (snd (cancelScheduledTask s taskId)) i.
Proof.
  intros Hs. pose proof Hs as (H1 & H2 & H3 & H4). unfold cancelScheduledTask.
  destruct (entry_get (scheduledTasks s) taskId) as [e|] eqn:E; [|exact Hs].
  assert (Hne : i <> taskId) by congruence.
  repeat split; simpl.
  - destruct e; [rewrite lookup_delete_ne by congruence |]; exact H1.
  - destruct e; [|rewrite lookup_delete_ne by congruence]; exact H2.
  - rewrite entry_get_delete_ne by exact Hne. exact H3.
  - exact H4.
Qed.

Lemma cancel_all_spent ids i : forall s,
  spent s i ->
  spent (fold_left (fun s taskId => snd (cancelScheduledTask s taskId)) ids s) i.
Proof.
  induction ids as [|j ids IH]; intros s Hs; simpl; [exact Hs |].
  apply IH, cancel_spent, Hs.
Qed.

Lemma step_spent s s' i :
  step cfg random cron_validate s s' -> spent s i -> spent s' i.
Proof.
  intros [s0 now task | s0 taskId | s0 taskId | s0 taskId | s0] Hs.
  - unfold schedule. destruct (validateTask s0 task); [|exact Hs].
    destruct (is_scheduled task).
    + unfold scheduleRecurringTask. simpl.
      assert (Hw : spent (with_run s0 (snd (Scheduler.generateTaskId (run s0)))) i)
        by (apply with_run_spent; [exact Hs | simpl; lia]).
      destruct (schedule_at task); simpl.
      * destruct (truthy_opt (repeat task)); [|exact Hw].
        destruct (cron_validate _); [apply register_spent, Hs | exact Hw].
      * destruct (t - now <? 0); [exact Hw | apply register_spent, Hs].
      * apply register_spent, Hs.
    + destruct (executeTask_frame s0 task) as (st & qs & E & Hlt & _).
      destruct (executeTask cfg random s0 task) as [o s1]. simpl in *. subst s1.
      apply with_queues_spent, with_run_spent; [exact Hs | lia].
  - apply cancel_spent, Hs.
  - unfold fire_timeout. destruct (timers s0 !! taskId) as [task|] eqn:E; [|exact Hs].
    destruct Hs as (H1 & H2 & H3 & H4).
    assert (Hne : i <> taskId) by congruence.
    match goal with |- context [executeTask cfg random ?s1 task] =>
      destruct (executeTask_frame s1 task) as (st & qs & Ef & Hlt & _) end.
    rewrite Ef. simpl in *. repeat split; simpl.
    + rewrite lookup_delete_ne by congruence. exact H1.
    + exact H2.
    + rewrite entry_get_delete_ne by exact Hne. exact H3.
    + lia.
  - unfold fire_cron. destruct (jobs s0 !! taskId) as [task|]; [|exact Hs].
    destruct (executeTask_frame s0 task) as (st & qs & E & Hlt & _). rewrite E.
    apply with_queues_spent, with_run_spent; [exact Hs | lia].
  - unfold stop. destruct (pause_idle (names s0) (queues s0)) as [[|] qs]; simpl.
    + apply cancel_all_spent, with_queues_spent, Hs.
    + apply with_queues_spent, Hs.
Qed.

Lemma steps_spent s s' i :
  steps cfg random cron_validate s s' -> spent s i -> spent s' i.
Proof. induction 1; eauto using step_spent. Qed.

Lemma cancel_true_spent s taskId s1 :
  consistent s -> cancelScheduledTask s taskId = (true, s1) -> spent s1 taskId.
Proof.
  intros [H1 H2 H3]. unfold cancelScheduledTask.
  destruct (entry_get (scheduledTasks s) taskId) as [e|] eqn:E; [|discriminate].
  intros [= <-]. repeat split; simpl.
  - destruct e; [apply lookup_delete_eq |].
    destruct (timers s !! taskId) as [t|] eqn:Et; [|reflexivity].
    apply H2 in Et. congruence.
  - destruct e; [|apply lookup_delete_eq].
    destruct (jobs s !! taskId) as [t|] eqn:Et; [|reflexivity].
    apply H3 in Et. congruence.
  - apply entry_get_delete.
  - eapply H1, E.
Qed.




(** ** Pausing the queues *)














End EntriesFacts.

(** ** Sample scheduler *)

Definition sample_tiers : list (string * nat) :=
  [("high", 4%nat); ("medium", 2%nat); ("low", 1%nat)].

Definition sample_retry : Scheduler.RetryConfig :=
  {| Scheduler.max_attempts := 3; Scheduler.delay := Some 5000 |}.

Definition sample_random (n : nat) : Q := 1 # 2.

(** Stands for [cron.validate] on the examples. *)
Definition sample_cron (expr : string) : bool := String.eqb expr "0 * * * *".

Definition page_handler : Scheduler.Handler := fun _ => Scheduler.Returns "page".

Definition delayed_request : Request :=
  {| category := Some "research"; handler := Some page_handler;
     priority := Some "high"; schedule_at := FireAt 9000; repeat := None |}.

Definition hourly_request : Request :=
  {| category := Some "research"; handler := Some page_handler;
     priority := None; schedule_at := Unscheduled; repeat := Some "0 * * * *" |}.


Definition sample_sched : Sched := create sample_tiers.

(** The sample scheduler with [delayed_request] registered at 1000. *)
Definition waiting_sched : Sched :=
  snd (schedule sample_retry sample_random sample_cron sample_sched 1000 delayed_request).

Lemma waiting_sched_steps :
  steps sample_retry sample_random sample_cron (create sample_tiers) waiting_sched.
Proof. eapply steps_step; [apply steps_refl | apply step_schedule]. Qed.




(** X1.  [schedule] rejects a task without category, without handler, or
    naming a priority that has no queue, in this order, with the
    corresponding error, and leaves the scheduler exactly as it was:
    nothing is registered, run or emitted. *)
Theorem schedule_rejects_invalid_task cfg random cron_validate s now task :
  (truthy_opt (category task) = false ->
     schedule cfg random cron_validate s now task
     = (Invalid (Error "Task category is required"), s)) /\
  (truthy_opt (category task) = true -> handler task = None ->
     schedule cfg random cron_validate s now task
     = (Invalid (Error "Task handler is required"), s)) /\
  (forall p, truthy_opt (category task) = true -> is_Some (handler task) ->
     priority task = Some p -> p <> "" -> queues s !! p = None ->
     schedule cfg random cron_validate s now task
     = (Invalid (Error ("Invalid priority level: " ++ p)), s)).
Proof.
  unfold schedule, validateTask. split; [|split].
  - intros ->. reflexivity.
  - intros -> ->. reflexivity.
  - intros p -> Hh -> Hp Hq. simpl.
    rewrite (bool_decide_eq_true_2 _ Hh). simpl.
    destruct p; [congruence |]. simpl. rewrite Hq.
    rewrite bool_decide_eq_false_2 by (intros [x Hx]; discriminate). reflexivity.
Qed.

Lemma schedule_rejects_invalid_task_witness :
  schedule sample_retry sample_random sample_cron sample_sched 1000
    {| category := Some "research"; handler := Some page_handler;
       priority := Some "urgent"; schedule_at := Unscheduled; repeat := None |}
  = (Invalid (Error "Invalid priority level: urgent"), sample_sched).
Proof.
  apply (proj2 (proj2 (schedule_rejects_invalid_task sample_retry sample_random sample_cron
                         sample_sched 1000 _)) "urgent");
    [reflexivity | eexists; reflexivity | reflexivity | discriminate | reflexivity].
Defined.

(** X2.  A valid task whose one-shot time is already past, or whose
    recurrence expression the cron validator refuses, is rejected with
    the corresponding error; no entry, timeout or job is registered and no
    handler is invoked. *)
Theorem schedule_rejects_past_and_malformed cfg random cron_validate s now task :
  validateTask s task = Ok tt ->
  let r := schedule cfg random cron_validate s now task in
  ((forall t, schedule_at task = FireAt t -> t < now ->
      fst r = Invalid (Error "Cannot schedule task in the past")) /\
   (forall expr, schedule_at task = Unscheduled -> repeat task = Some expr ->
      expr <> "" -> cron_validate expr = false ->
      fst r = Invalid (Error "Invalid cron expression"))) /\
  (forall e, fst r = Invalid e ->
     scheduledTasks (snd r) = scheduledTasks s /\ timers (snd r) = timers s /\
     jobs (snd r) = jobs s /\
     Scheduler.invocations (run (snd r)) = Scheduler.invocations (run s) /\
     Scheduler.events (run (snd r)) = Scheduler.events (run s)).
Proof.
  intros Hv r. subst r. unfold schedule. rewrite Hv. split; [split |].
  - intros t Ht Hlt. unfold is_scheduled, scheduleRecurringTask. rewrite Ht. simpl.
    destruct (Z.ltb_spec (t - now) 0); [reflexivity | lia].
  - intros expr Hs Hr Hne Hc. unfold is_scheduled, scheduleRecurringTask.
    rewrite Hs, Hr. simpl. destruct expr; [congruence |]. simpl in *. rewrite Hc.
    reflexivity.
  - intros e. destruct (is_scheduled task).
    + unfold scheduleRecurringTask. simpl.
      destruct (schedule_at task); simpl;
        repeat match goal with |- context [if ?b then _ else _] => destruct b end;
        simpl; intros He; try discriminate; repeat split.
    + destruct (executeTask cfg random s task). simpl. discriminate.
Qed.

Lemma schedule_rejects_past_and_malformed_witness :
  fst (schedule sample_retry sample_random sample_cron sample_sched 10000 delayed_request)
  = Invalid (Error "Cannot schedule task in the past").
Proof.
  apply (proj1 (proj1 (schedule_rejects_past_and_malformed sample_retry sample_random
                         sample_cron sample_sched 10000 delayed_request eq_refl)) 9000);
    [reflexivity | lia].
Defined.

(** X3.  In a scheduler reached from a fresh one, registering a task and
    cancelling the returned id is a round trip: the cancellation returns
    true and the map of entries, the pending timeouts and the started
    jobs are what they were before; cancelling the same id again returns
    false and changes nothing. *)
Theorem schedule_cancel_round_trip cfg random cron_validate tiers s now task taskId s1 :
  steps cfg random cron_validate (create tiers) s ->
  schedule cfg random cron_validate s now task = (Registered taskId, s1) ->
  exists s2,
    cancelScheduledTask s1 taskId = (true, s2) /\
    scheduledTasks s2 = scheduledTasks s /\ timers s2 = timers s /\ jobs s2 = jobs s /\
    cancelScheduledTask s2 taskId = (false, s2).
Proof.
  intros Hr Hs.
  pose proof (steps_consistent cfg random cron_validate _ _ Hr (create_consistent tiers))
    as [H1 H2 H3].
  set (n := Scheduler.next_id (run s)).
  assert (Hfresh : entry_get (scheduledTasks s) n = None).
  { destruct (entry_get (scheduledTasks s) n) as [e|] eqn:E; [|reflexivity].
    apply H1 in E. unfold n in E. lia. }
  assert (Ht : timers s !! n = None).
  { destruct (timers s !! n) as [t|] eqn:E; [|reflexivity]. apply H2 in E. congruence. }
  assert (Hj : jobs s !! n = None).
  { destruct (jobs s !! n) as [t|] eqn:E; [|reflexivity]. apply H3 in E. congruence. }
  assert (Hreg : forall e,
    exists s2,
      cancelScheduledTask
        (register (with_run s (snd (Scheduler.generateTaskId (run s)))) n e) n = (true, s2) /\
      scheduledTasks s2 = scheduledTasks s /\ timers s2 = timers s /\ jobs s2 = jobs s /\
      cancelScheduledTask s2 n = (false, s2)).
  { intros e. unfold cancelScheduledTask at 1.
    cbn [scheduledTasks timers jobs run queues names register with_run].
    rewrite entry_get_set, Nat.eqb_refl. eexists. split; [reflexivity |].
    cbn [scheduledTasks timers jobs run queues names].
    rewrite entry_delete_set_fresh by exact Hfresh.
    split; [reflexivity |].
    split; [destruct e; [apply delete_insert_id, Ht | reflexivity] |].
    split; [destruct e; [reflexivity | apply delete_insert_id, Hj] |].
    unfold cancelScheduledTask. cbn [scheduledTasks]. rewrite Hfresh. reflexivity. }
  revert Hs. unfold schedule. destruct (validateTask s task); [|discriminate].
  destruct (is_scheduled task) eqn:Hi.
  - unfold scheduleRecurringTask. simpl. fold n.
    unfold is_scheduled in Hi.
    destruct (schedule_at task); simpl.
    + rewrite Hi. destruct (cron_validate _); [|discriminate].
      intros [= <- <-]. apply Hreg.
    + destruct (t - now <? 0); [discriminate |]. intros [= <- <-]. apply Hreg.
    + intros [= <- <-]. apply Hreg.
  - destruct (executeTask cfg random s task). discriminate.
Qed.

Lemma schedule_cancel_round_trip_witness :
  exists s2,
    cancelScheduledTask waiting_sched 0 = (true, s2) /\
    scheduledTasks s2 = [] /\ cancelScheduledTask s2 0 = (false, s2).
Proof.
  destruct (schedule_cancel_round_trip sample_retry sample_random sample_cron sample_tiers
              sample_sched 1000 delayed_request 0 waiting_sched)
    as (s2 & Hc & He & _ & _ & Hagain).
  - apply steps_refl.
  - reflexivity.
  - exists s2. split; [exact Hc |]. split; [exact He | exact Hagain].
Defined.

(** X4.  Once an entry has been cancelled, whatever is scheduled,
    cancelled, fired or stopped afterwards, its id is never pending or
    started again: its timeout and cron callbacks do nothing and the map
    holds no entry for it. *)
Theorem cancelled_entry_never_fires cfg random cron_validate tiers s taskId s1 s' :
  steps cfg random cron_validate (create tiers) s ->
  cancelScheduledTask s taskId = (true, s1) ->
  steps cfg random cron_validate s1 s' ->
  fire_timeout cfg random s' taskId = s' /\ fire_cron cfg random s' taskId = s' /\
  entry_get (scheduledTasks s') taskId = None.
Proof.
  intros Hr Hc Hs.
  pose proof (steps_consistent cfg random cron_validate _ _ Hr (create_consistent tiers)) as Hcons.
  pose proof (cancel_true_spent s taskId s1 Hcons Hc) as Hspent.
  destruct (steps_spent cfg random cron_validate _ _ taskId Hs Hspent) as (Ht & Hj & He & _).
  unfold fire_timeout, fire_cron. rewrite Ht, Hj. auto.
Qed.

Lemma cancelled_entry_never_fires_witness :
  let s1 := snd (cancelScheduledTask waiting_sched 0) in
  let s' := snd (schedule sample_retry sample_random sample_cron s1 2000 hourly_request) in
  fire_timeout sample_retry sample_random s' 0 = s'.
Proof.
  cbv zeta.
  refine (proj1 (cancelled_entry_never_fires sample_retry sample_random sample_cron
                   sample_tiers waiting_sched 0 _ _ waiting_sched_steps _ _)).
  - reflexivity.
  - eapply steps_step; [apply steps_refl | apply step_schedule].
Defined.

(** X5.  When the timeout of a one-shot entry fires, its task is handed
    to [executeTask] and the entry is forgotten: the timeout is no longer
    pending, a second firing does nothing, and cancelling the id returns
    false and changes nothing. *)
Theorem fired_timeout_is_forgotten cfg random s taskId task :
  timers s !! taskId = Some task ->
  let s' := fire_timeout cfg random s taskId in
  run s' = run (snd (executeTask cfg random s task)) /\
  timers s' !! taskId = None /\
  fire_timeout cfg random s' taskId = s' /\
  cancelScheduledTask s' taskId = (false, s').
Proof.
  intros Ht s'. unfold s', fire_timeout. rewrite Ht.
  match goal with |- context [executeTask cfg random ?s0 task] =>
    assert (Hrun : run (snd (executeTask cfg random s0 task))
                   = run (snd (executeTask cfg random s task)));
    [|assert (Htimers : timers (snd (executeTask cfg random s0 task))
                        = delete taskId (timers s));
      [|assert (Hentries : scheduledTasks (snd (executeTask cfg random s0 task))
                           = scheduledTasks s);
        [|set (s1 := snd (executeTask cfg random s0 task)) in *]]] end.
  - unfold executeTask. cbn [queues run].
    destruct (queues s !! tier_of task); [|reflexivity].
    destruct (Scheduler.executeTask _ _ _ _ _). reflexivity.
  - unfold executeTask. cbn [queues run].
    destruct (queues s !! tier_of task); [|reflexivity].
    destruct (Scheduler.executeTask _ _ _ _ _). reflexivity.
  - unfold executeTask. cbn [queues run].
    destruct (queues s !! tier_of task); [|reflexivity].
    destruct (Scheduler.executeTask _ _ _ _ _). reflexivity.
  - cbn [run timers]. rewrite Htimers.
    split; [exact Hrun |]. split; [apply lookup_delete_eq |]. split.
    + rewrite lookup_delete_eq. reflexivity.
    + unfold cancelScheduledTask. cbn [scheduledTasks]. rewrite entry_get_delete. reflexivity.
Qed.

Lemma fired_timeout_is_forgotten_witness :
  cancelScheduledTask (fire_timeout sample_retry sample_random waiting_sched 0) 0
  = (false, fire_timeout sample_retry sample_random waiting_sched 0).
Proof.
  refine (proj2 (proj2 (proj2 (fired_timeout_is_forgotten sample_retry sample_random
                                 waiting_sched 0 delayed_request _)))).
  reflexivity.
Defined.





End SchedulerEntriesProps.

(* ===================================================================== *)
(** * More properties of the scheduler's run and back-off *)
(* ===================================================================== *)

Module SchedulerRunProps.
Import Scheduler.

(** The handler throws at its next [k] invocations and then returns [v]. *)
Definition fails_then_returns (h : Handler) (from k : nat) (v : string) : Prop :=
  (forall n, (n < k)%nat -> exists e, h (from + n)%nat = Throws e) /\
  h (from + k)%nat = Returns v.

Definition starts (first : nat) (category : string) (n : nat) : list event :=
  List.map (fun j => taskStart (first + j) category 0) (seq 0 n).

Definition pauses (cfg : RetryConfig) (random : nat -> Q) (first : nat) (n : nat) : list Z :=
  List.map (fun j => calculateRetryDelay cfg 0 (random (first + j)%nat)) (seq 0 n).

Lemma starts_succ first category n :
  starts first category (S n)
  = taskStart first category 0 :: starts (S first) category n.
Proof.
  unfold starts. simpl. rewrite Nat.add_0_r. f_equal.
  rewrite <- seq_shift, List.map_map. apply List.map_ext. intros j. f_equal. lia.
Qed.

Lemma pauses_succ cfg random first n :
  pauses cfg random first (S n)
  = calculateRetryDelay cfg 0 (random first) :: pauses cfg random (S first) n.
Proof.
  unfold pauses. simpl. rewrite Nat.add_0_r. f_equal.
  rewrite <- seq_shift, List.map_map. apply List.map_ext. intros j. do 2 f_equal. lia.
Qed.

Definition sample_retry : RetryConfig := {| max_attempts := 3; delay := Some 5000 |}.

Lemma starts_one first category : starts first category 1 = [taskStart first category 0].
Proof. unfold starts. simpl. rewrite Nat.add_0_r. reflexivity. Qed.

Lemma pauses_none cfg random first : pauses cfg random first 0 = [].
Proof. reflexivity. Qed.

Opaque starts pauses.

Definition twice_failing_task : Task :=
  {| category := "research";
     handler := fun n => if (n <? 2)%nat then Throws "timeout" else Returns "page";
     id := None; attempts := 0 |}.

(** X8.  With a positive retry budget, a task whose handler throws [k]
    times and then returns [v], on a tier with more than [k] free slots,
    resolves with [v]: the handler is invoked [k + 1] times, each run is
    announced by a [taskStart] with attempt count 0, exactly one
    [taskComplete] and no [taskFailed] is emitted, and the [k] back-off
    sleeps are all computed for attempt 0. *)
Theorem executeTask_succeeds_after_failures cfg random k : forall slots task st v,
  (0 < max_attempts cfg)%nat -> (k < slots)%nat ->
  fails_then_returns (handler task) (invocations st) k v ->
  fst (executeTask cfg random slots task st) = Resolved v /\
  events (snd (executeTask cfg random slots task st))
  = events st ++ starts (next_id st) (category task) (S k)
      ++ [taskComplete (next_id st + k) (category task) v] /\
  slept (snd (executeTask cfg random slots task st))
  = slept st ++ pauses cfg random (draws st) k /\
  invocations (snd (executeTask cfg random slots task st)) = (invocations st + S k)%nat.
Proof.
  induction k as [|k IH]; intros slots task st v Hmax Hslots [Hthrows Hret];
    (destruct slots as [|free]; [lia |]); simpl; unfold runTask; simpl.
  - rewrite Nat.add_0_r in Hret. rewrite Hret. simpl.
    repeat split; try reflexivity; try lia.
    + rewrite starts_one, <- app_assoc, Nat.add_0_r. reflexivity.
    + rewrite pauses_none, app_nil_r. reflexivity.
  - destruct (Hthrows 0%nat ltac:(lia)) as [e He]. rewrite Nat.add_0_r in He.
    rewrite He. destruct (Nat.ltb_spec 0 (max_attempts cfg)) as [_|]; [|lia].
    unfold retryTask. simpl.
    match goal with |- context [executeTask cfg random free ?t ?s] =>
      destruct (IH free t s v Hmax ltac:(lia)) as (Ho & Hev & Hsl & Hinv) end.
    { split; simpl.
      - intros n Hn. destruct (Hthrows (S n) ltac:(lia)) as [e' He'].
        exists e'. rewrite <- He'. f_equal. lia.
      - rewrite <- Hret. f_equal. lia. }
    rewrite Ho, Hev, Hsl, Hinv. unfold sleep. simpl.
    rewrite (starts_succ (next_id st)), (pauses_succ cfg random (draws st)).
    rewrite <- !app_assoc. simpl.
    replace (S (next_id st + k)) with (next_id st + S k)%nat by lia.
    repeat split; try reflexivity; lia.
Qed.

Lemma executeTask_succeeds_after_failures_witness :
  fst (executeTask sample_retry (fun _ => 1 # 2) 4 twice_failing_task initial)
  = Resolved "page" /\
  slept (snd (executeTask sample_retry (fun _ => 1 # 2) 4 twice_failing_task initial))
  = [5000; 5000].
Proof.
  destruct (executeTask_succeeds_after_failures sample_retry (fun _ => 1 # 2) 2 4
              twice_failing_task initial "page") as (Ho & _ & Hs & _).
  - simpl. lia.
  - lia.
  - split; [|reflexivity]. intros [|[|n]] Hn; [eexists; reflexivity | eexists; reflexivity | lia].
  - split; [exact Ho | exact Hs].
Defined.

Transparent starts pauses.

Lemma exponential_monotone base a :
  0 < base ->
  Z.min (base * 2 ^ Z.of_nat a) maxDelay <= Z.min (base * 2 ^ Z.of_nat (S a)) maxDelay.
Proof.
  intros Hb. apply Z.min_le_compat_r.
  rewrite Nat2Z.inj_succ, Z.pow_succ_r by lia.
  assert (0 < 2 ^ Z.of_nat a) by (apply Z.pow_pos_nonneg; lia). nia.
Qed.

Lemma jittered_monotone (e1 e2 : Z) (r : Q) :
  e1 <= e2 -> (0 <= r)%Q ->
  (inject_Z e1 + inject_Z e1 * (2 # 10) * (r - (1 # 2))
   <= inject_Z e2 + inject_Z e2 * (2 # 10) * (r - (1 # 2)))%Q.
Proof.
  intros He Hr.
  assert (Hd : (0 <= inject_Z (e2 - e1))%Q) by (unfold Qle; simpl; lia).
  assert (Hp : (0 <= inject_Z (e2 - e1) * r)%Q) by (apply Qmult_le_0_compat; assumption).
  assert (E : (inject_Z e2 == inject_Z e1 + inject_Z (e2 - e1))%Q)
    by (rewrite <- inject_Z_plus; apply inject_Z_injective; lia).
  rewrite E. set (d := inject_Z (e2 - e1)) in *. set (x := inject_Z e1) in *.
  assert (Hx : (d * r == d * r)%Q) by reflexivity.
  set (p := (d * r)%Q) in *.
  setoid_replace ((x + d) + (x + d) * (2 # 10) * (r - (1 # 2)))%Q
    with ((x + x * (2 # 10) * (r - (1 # 2))) + (d * (9 # 10) + (2 # 10) * p))%Q
    using relation Qeq by (unfold p; ring).
  lra.
Qed.

(** X9.  For a positive base delay and a fixed draw in [0,1), the retry
    delay never decreases when the attempt number grows. *)
Theorem calculateRetryDelay_monotone cfg a r :
  0 < num_or (delay cfg) 5000 -> (0 <= r)%Q -> (r < 1)%Q ->
  calculateRetryDelay cfg a r <= calculateRetryDelay cfg (S a) r.
Proof.
  intros Hb Hr0 _. unfold calculateRetryDelay.
  apply Qfloor_resp_le, jittered_monotone; [|exact Hr0].
  apply exponential_monotone, Hb.
Qed.

Lemma calculateRetryDelay_monotone_witness :
  calculateRetryDelay sample_retry 2 (3 # 4) <= calculateRetryDelay sample_retry 3 (3 # 4).
Proof.
  apply (calculateRetryDelay_monotone sample_retry 2 (3 # 4));
    [vm_compute; reflexivity | unfold Qle; simpl; lia | vm_compute; reflexivity].
Defined.

End SchedulerRunProps.

(* ===================================================================== *)
(** * More properties of the credential rotator *)
(* ===================================================================== *)

Module ApiKeyStatusProps.
Import ApiKeyManager ApiKeyStatus ApiKeyManagerProps.

(** A rotation looks at every index of the list. *)
Lemma rotation_order_covers st i :
  (i < length (keys st))%nat -> In i (rotation_order st).
Proof.
  intros Hi. assert (Hlen : (0 < length (keys st))%nat) by lia.
  apply list_elem_of_In.
  assert (HP : rotation_order st ≡ₚ seq 0 (length (keys st))).
  { apply submseteq_length_Permutation.
    - apply NoDup_submseteq; [apply rotation_order_NoDup, Hlen |].
      intros x Hx. apply list_elem_of_In in Hx.
      rewrite (rotation_order_visit st) in Hx. apply in_map_iff in Hx.
      destruct Hx as (j & <- & _). apply elem_of_seq.
      pose proof (visit_lt st Hlen j). lia.
    - unfold rotation_order. rewrite length_map, !length_seq. lia. }
  rewrite HP. apply elem_of_seq. lia.
Qed.

Lemma count_available_usable m now provider st pc ks :
  keyStates m !! provider = Some st -> config m !! provider = Some pc -> stamped st ->
  count_available m now provider ks
  = Ok (length (List.filter (usable st (num_or (retry_delay pc) 1000) now) ks)).
Proof.
  intros Hst Hpc Hstamp. induction ks as [|k ks IH]; simpl; [reflexivity |].
  rewrite (isKeyLimited_current m now provider st pc Hst Hpc Hstamp), IH.
  destruct (usable st _ now k); reflexivity.
Qed.

Lemma filter_length_zero {A} (f : A -> bool) (l : list A) :
  length (List.filter f l) = 0%nat <-> forall x, In x l -> f x = false.
Proof.
  induction l as [|a l IH]; simpl; [intuition |].
  destruct (f a) eqn:Fa; simpl.
  - split; [discriminate |]. intros H. specialize (H a (or_introl eq_refl)). congruence.
  - rewrite IH. split; [intros H x [<-|Hx]; auto | intros H x Hx; auto].
Qed.

Lemma all_unavailable_not_ok provider (k : option string) :
  @Throw (option string) (all_unavailable provider) <> Ok k.
Proof. discriminate. Qed.

(** What [getKey] answers in terms of the usable credentials of the list. *)
Lemma getKey_outcome m now provider st pc :
  keyStates m !! provider = Some st -> config m !! provider = Some pc ->
  stamped st -> (currentKeyIndex st < length (keys st))%nat ->
  let ok := usable st (num_or (retry_delay pc) 1000) now in
  ((forall k, In k (keys st) -> ok k = false) ->
     getKey m now provider = (Throw (all_unavailable provider), m)) /\
  ((exists k, In k (keys st) /\ ok k = true) ->
     exists k, In k (keys st) /\ ok k = true /\ fst (getKey m now provider) = Ok (Some k)).
Proof.
  intros Hst Hpc Hstamp Hcur ok.
  rewrite (getKey_unfold m now provider st pc Hst Hpc Hstamp Hcur). fold ok.
  assert (Hat : forall i, usable_at st (num_or (retry_delay pc) 1000) now i = true ->
                 exists k, keys st !! i = Some k /\ In k (keys st) /\ ok k = true).
  { intros i. unfold usable_at. destruct (keys st !! i) as [k|] eqn:Ek; [|discriminate].
    intros Hu. exists k. split; [reflexivity |]. split; [|exact Hu].
    apply list_elem_of_In. eapply list_elem_of_lookup_2, Ek. }
  split.
  - intros Hall.
    destruct (usable_at st _ now (currentKeyIndex st)) eqn:U.
    + destruct (Hat _ U) as (k & _ & Hin & Hk). rewrite (Hall k Hin) in Hk. discriminate.
    + destruct (List.find _ (rotation_order st)) as [i|] eqn:F; [|reflexivity].
      apply find_some in F. destruct F as [_ Hu].
      destruct (Hat _ Hu) as (k & _ & Hin & Hk). rewrite (Hall k Hin) in Hk. discriminate.
  - intros (k & Hin & Hk).
    destruct (usable_at st _ now (currentKeyIndex st)) eqn:U.
    + destruct (Hat _ U) as (k' & Ek' & Hin' & Hk'). exists k'. simpl. rewrite Ek'. auto.
    + destruct (List.find _ (rotation_order st)) as [i|] eqn:F.
      * apply find_some in F. destruct F as [_ Hu].
        destruct (Hat _ Hu) as (k' & Ek' & Hin' & Hk'). exists k'.
        unfold rotated_to. simpl. rewrite Ek'. auto.
      * exfalso. apply list_elem_of_In, list_elem_of_lookup_1 in Hin.
        destruct Hin as [i Hi].
        assert (Hlt : (i < length (keys st))%nat) by (eapply lookup_lt_Some, Hi).
        pose proof (find_none _ _ F i (rotation_order_covers st i Hlt)) as Hn.
        unfold usable_at in Hn. rewrite Hi in Hn. fold ok in Hn. congruence.
Qed.

(** X10.  In every reachable state, for a provider with a non-empty
    credential list, [getProviderStatus] reports the length of the list
    as [totalKeys] and at most that many [availableKeys]; [getKey] at the
    same instant fails with the all-unavailable error exactly when
    [availableKeys] is 0, and returns a credential exactly when it is
    positive. *)
Theorem getProviderStatus_predicts_getKey cfg m now provider st :
  reachable cfg m -> keyStates m !! provider = Some st -> keys st <> [] ->
  exists status,
    getProviderStatus m now provider = Ok (Some status) /\
    totalKeys status = length (keys st) /\
    (availableKeys status <= totalKeys status)%nat /\
    (availableKeys status = 0%nat <->
       fst (getKey m now provider) = Throw (all_unavailable provider)) /\
    ((0 < availableKeys status)%nat <->
       exists k, fst (getKey m now provider) = Ok (Some k)).
Proof.
  intros Hr Hst Hne.
  destruct (reachable_well_formed cfg m Hr provider st Hst) as ([pc Hpc] & Hstamp & Hcur).
  specialize (Hcur Hne).
  destruct (getKey_outcome m now provider st pc Hst Hpc Hstamp Hcur) as [Hnone Hsome].
  cbv zeta in Hnone, Hsome.
  unfold getProviderStatus. rewrite Hst.
  rewrite (count_available_usable m now provider st pc _ Hst Hpc Hstamp).
  set (ok := usable st (num_or (retry_delay pc) 1000) now) in *.
  eexists. split; [reflexivity |]. simpl.
  split; [reflexivity |]. split; [apply List.filter_length_le |].
  assert (Hdec : length (List.filter ok (keys st)) = 0%nat \/
                 exists k, In k (keys st) /\ ok k = true).
  { destruct (List.filter ok (keys st)) as [|k l] eqn:F; [left; reflexivity |].
    right. exists k. apply filter_In. rewrite F. left. reflexivity. }
  split; split.
  - intros H0. rewrite Hnone; [reflexivity |]. apply filter_length_zero, H0.
  - intros Hthrow. destruct Hdec as [H0|Hex]; [exact H0 |].
    destruct (Hsome Hex) as (k & _ & _ & Hk). rewrite Hk in Hthrow. discriminate.
  - intros Hpos. destruct Hdec as [H0|Hex]; [lia |].
    destruct (Hsome Hex) as (k & _ & _ & Hk). exists k. exact Hk.
  - intros [k Hk]. destruct Hdec as [H0|Hex].
    + rewrite Hnone in Hk; [discriminate |]. apply filter_length_zero, H0.
    + destruct Hex as (k' & Hin & Hok).
      assert (In k' (List.filter ok (keys st))) by (apply filter_In; auto).
      destruct (List.filter ok (keys st)); [contradiction | simpl; lia].
Qed.

Lemma getProviderStatus_predicts_getKey_witness :
  exists status,
    getProviderStatus sample_manager 1000 "gemini" = Ok (Some status) /\
    totalKeys status = 3%nat /\ (availableKeys status <= totalKeys status)%nat.
Proof.
  destruct (getProviderStatus_predicts_getKey sample_providers sample_manager 1000 "gemini"
              sample_state sample_manager_reachable) as (status & Hs & Ht & Hle & _).
  - vm_compute. reflexivity.
  - discriminate.
  - exists status. split; [exact Hs |]. split; [exact Ht | exact Hle].
Defined.

(** ** Providers do not interfere *)

(** One operation of the interface, called for [provider]. *)
Inductive touches (provider : string) : Manager -> Manager -> Prop :=
| touch_getKey m now : touches provider m (snd (getKey m now provider))
| touch_rotateKey m now : touches provider m (snd (rotateKey m now provider))
| touch_markKeyLimited m now key reset :
    touches provider m (markKeyLimited m now provider key reset)
| touch_markKeyError m now key err :
    touches provider m (markKeyError m now provider key err)
| touch_resetKeyState m key : touches provider m (resetKeyState m provider key).

(** Two managers that hold the same state and configuration for [q]. *)
Definition agree_on (q : string) (m1 m2 : Manager) : Prop :=
  keyStates m1 !! q = keyStates m2 !! q /\ config m1 !! q = config m2 !! q.

Lemma set_state_agree_other q p m st : q <> p -> agree_on q (set_state m p st) m.
Proof. intros Hne. split; simpl; [apply lookup_insert_ne; congruence | reflexivity]. Qed.

Lemma agree_on_trans q m1 m2 m3 : agree_on q m1 m2 -> agree_on q m2 m3 -> agree_on q m1 m3.
Proof. intros [A B] [C D]. split; congruence. Qed.

Lemma agree_on_refl q m : agree_on q m m.
Proof. split; reflexivity. Qed.

Lemma rotateLoop_agree_other q p now n : forall m,
  q <> p -> agree_on q (snd (rotateLoop n m now p)) m.
Proof.
  induction n as [|n IH]; intros m Hne; simpl; [apply agree_on_refl |].
  destruct (keyStates m !! p) as [state|]; [|apply agree_on_refl].
  destruct (isKeyLimited _ now p _) as [[|]|e]; simpl.
  - eapply agree_on_trans; [apply IH, Hne | apply set_state_agree_other, Hne].
  - eapply agree_on_trans; apply set_state_agree_other, Hne.
  - apply set_state_agree_other, Hne.
Qed.

Lemma touches_agree_other q p m m' : touches p m m' -> q <> p -> agree_on q m' m.
Proof.
  intros [m0 now | m0 now | m0 now key reset | m0 now key err | m0 key] Hne.
  - unfold getKey. destruct (keyStates m0 !! p) as [state|]; [|apply agree_on_refl].
    destruct (keys state); [apply agree_on_refl |].
    destruct (isKeyLimited m0 now p _) as [[|]|e]; try apply agree_on_refl.
    unfold rotateKey. destruct (keyStates m0 !! p); [|apply agree_on_refl].
    apply rotateLoop_agree_other, Hne.
  - unfold rotateKey. destruct (keyStates m0 !! p); [|apply agree_on_refl].
    apply rotateLoop_agree_other, Hne.
  - unfold markKeyLimited. destruct (keyStates m0 !! p); [|apply agree_on_refl].
    apply set_state_agree_other, Hne.
  - unfold markKeyError. destruct (keyStates m0 !! p); [|apply agree_on_refl].
    apply set_state_agree_other, Hne.
  - unfold resetKeyState. destruct (keyStates m0 !! p); [|apply agree_on_refl].
    apply set_state_agree_other, Hne.
Qed.

Lemma isKeyLimited_agree q m1 m2 now key :
  agree_on q m1 m2 -> isKeyLimited m1 now q key = isKeyLimited m2 now q key.
Proof. intros [A B]. unfold isKeyLimited. rewrite A, B. reflexivity. Qed.

Lemma set_state_agree q m1 m2 st :
  agree_on q m1 m2 -> agree_on q (set_state m1 q st) (set_state m2 q st).
Proof.
  intros [A B]. split; simpl; [rewrite !lookup_insert_eq; reflexivity | exact B].
Qed.

Lemma rotateLoop_agree q now n : forall m1 m2,
  agree_on q m1 m2 ->
  fst (rotateLoop n m1 now q) = fst (rotateLoop n m2 now q) /\
  agree_on q (snd (rotateLoop n m1 now q)) (snd (rotateLoop n m2 now q)).
Proof.
  induction n as [|n IH]; intros m1 m2 Ha; simpl; [split; [reflexivity | exact Ha] |].
  pose proof Ha as [A B]. rewrite A.
  destruct (keyStates m2 !! q) as [state|]; [|split; [reflexivity | exact Ha]].
  set (st1 := with_index state _).
  pose proof (set_state_agree q m1 m2 st1 Ha) as Ha1.
  rewrite (isKeyLimited_agree q _ _ now _ Ha1).
  destruct (isKeyLimited (set_state m2 q st1) now q _) as [[|]|e]; simpl.
  - apply IH, Ha1.
  - split; [reflexivity |]. apply set_state_agree, Ha1.
  - split; [reflexivity | exact Ha1].
Qed.

Lemma getKey_agree q m1 m2 now :
  agree_on q m1 m2 -> fst (getKey m1 now q) = fst (getKey m2 now q).
Proof.
  intros Ha. pose proof Ha as [A B]. unfold getKey. rewrite A.
  destruct (keyStates m2 !! q) as [state|] eqn:E; [|reflexivity].
  destruct (keys state); [reflexivity |].
  rewrite (isKeyLimited_agree q _ _ now _ Ha).
  destruct (isKeyLimited m2 now q _) as [[|]|e]; try reflexivity.
  unfold rotateKey. rewrite A, E. apply rotateLoop_agree, Ha.
Qed.

Lemma count_available_agree q m1 m2 now ks :
  agree_on q m1 m2 -> count_available m1 now q ks = count_available m2 now q ks.
Proof.
  intros Ha. induction ks as [|k ks IH]; simpl; [reflexivity |].
  rewrite (isKeyLimited_agree q _ _ now _ Ha), IH. reflexivity.
Qed.

(** X11.  Whatever is called for one provider (selection, rotation,
    marking, reset), the state kept for every other provider is left as it
    is, and so are the answers of [getKey] and [getProviderStatus] for it. *)
Theorem providers_are_isolated p q m m' :
  touches p m m' -> q <> p ->
  keyStates m' !! q = keyStates m !! q /\
  (forall now, fst (getKey m' now q) = fst (getKey m now q)) /\
  (forall now, getProviderStatus m' now q = getProviderStatus m now q).
Proof.
  intros Ht Hne. pose proof (touches_agree_other q p m m' Ht Hne) as Ha.
  split; [apply Ha |]. split.
  - intros now. apply getKey_agree, Ha.
  - intros now. unfold getProviderStatus. rewrite (proj1 Ha).
    destruct (keyStates m !! q); [|reflexivity].
    rewrite (count_available_agree q m' m now _ Ha). reflexivity.
Qed.

Definition two_providers : gmap string ProviderConfig :=
  {[ "gemini" := sample_config;
     "serp_api" := {| primary := Some "serp-a"; fallback := None; retry_delay := None |} ]}.

Lemma providers_are_isolated_witness :
  fst (getKey (markKeyError (initializeKeyStates two_providers) 1000 "gemini" "key-a" "HTTP 500")
              1000 "serp_api")
  = fst (getKey (initializeKeyStates two_providers) 1000 "serp_api").
Proof.
  refine (proj1 (proj2 (providers_are_isolated "gemini" "serp_api"
                          (initializeKeyStates two_providers) _ _ _)) 1000).
  - apply touch_markKeyError.
  - discriminate.
Defined.

(** ** Reset *)

(** X12.  [resetKeyState] for a known provider removes the credential's
    rate limit and error record and nothing else: the credential is
    usable again unless a rotation landed on it less than the minimum
    interval ago, every other credential is as usable as before, the
    cursor and the list are untouched, and the next reported error counts
    as the first one. *)
Theorem resetKeyState_clears m provider key st :
  keyStates m !! provider = Some st ->
  exists st',
    keyStates (resetKeyState m provider key) !! provider = Some st' /\
    (forall interval now,
       usable st' interval now key = negb (rotated_recently st interval now key)) /\
    (forall k interval now, k <> key -> usable st' interval now k = usable st interval now k) /\
    currentKeyIndex st' = currentKeyIndex st /\ keys st' = keys st /\
    (forall now err st'',
       keyStates (markKeyError (resetKeyState m provider key) now provider key err)
         !! provider = Some st'' ->
       error_count st'' key = 1%nat).
Proof.
  intros Hst. unfold resetKeyState. rewrite Hst.
  eexists. split; [apply lookup_insert_eq |].
  split; [|split; [|split; [|split]]]; try reflexivity.
  - intros interval now. unfold usable, rate_limited, in_backoff, rotated_recently. simpl.
    rewrite !lookup_delete_eq. reflexivity.
  - intros k interval now Hne. unfold usable, rate_limited, in_backoff, rotated_recently.
    simpl. rewrite !lookup_delete_ne by congruence. reflexivity.
  - intros now err st''. unfold markKeyError. simpl. rewrite lookup_insert_eq. simpl.
    rewrite lookup_insert_eq. intros [= <-]. unfold error_count. simpl.
    rewrite lookup_insert_eq, lookup_delete_eq. reflexivity.
Qed.

Lemma resetKeyState_clears_witness :
  exists st',
    keyStates (resetKeyState sample_manager "gemini" "key-a") !! "gemini" = Some st' /\
    usable st' 1000 1000 "key-a" = true.
Proof.
  destruct (resetKeyState_clears sample_manager "gemini" "key-a" sample_state)
    as (st' & Hst' & Hu & _); [vm_compute; reflexivity |].
  exists st'. split; [exact Hst' |]. rewrite Hu. reflexivity.
Defined.

(** ** Cool-down after a rotation *)

(** X13.  When [getKey] had to rotate and landed on credential [k] at
    instant [now], then at every instant [t] with [t - now] below the
    provider's minimum rotation interval [k] is reported as limited, and
    [getKey] does not return [k]: it returns another credential or fails. *)
Theorem rotation_cools_down cfg m now provider st pc k m' :
  reachable cfg m -> now <> 0 ->
  keyStates m !! provider = Some st -> config m !! provider = Some pc -> keys st <> [] ->
  usable_at st (num_or (retry_delay pc) 1000) now (currentKeyIndex st) = false ->
  getKey m now provider = (Ok (Some k), m') ->
  forall t, t - now < num_or (retry_delay pc) 1000 ->
    isKeyLimited m' t provider (Some k) = Ok true /\
    fst (getKey m' t provider) <> Ok (Some k).
Proof.
  intros Hr Hnow Hst Hpc Hne Hcurrent Hget t Ht.
  destruct (reachable_well_formed cfg m Hr provider st Hst) as (_ & Hstamp & Hcur).
  specialize (Hcur Hne). assert (Hlen : (0 < length (keys st))%nat) by lia.
  rewrite (getKey_unfold m now provider st pc Hst Hpc Hstamp Hcur), Hcurrent in Hget.
  destruct (List.find _ (rotation_order st)) as [i|] eqn:F; [|discriminate].
  pose proof (find_rotation_order_lt _ st i Hlen F) as Hi.
  unfold rotated_to in Hget. injection Hget as Hk Hm'.
  rewrite Hk in Hm'. simpl in Hm'.
  set (st' := {| currentKeyIndex := i; keys := keys st; rateLimits := rateLimits st;
                 errors := errors st; lastRotation := <[k := now]> (lastRotation st) |}) in *.
  assert (Hst' : keyStates m' !! provider = Some st')
    by (subst m'; simpl; apply lookup_insert_eq).
  assert (Hpc' : config m' !! provider = Some pc) by (subst m'; exact Hpc).
  assert (Hstamp' : stamped st').
  { intros k' t'. simpl. rewrite lookup_insert.
    case_decide; [intros [= <-]; exact Hnow | apply Hstamp]. }
  assert (Hu : usable st' (num_or (retry_delay pc) 1000) t k = false).
  { unfold usable, rotated_recently. simpl. rewrite lookup_insert_eq.
    destruct (Z.ltb_spec (t - now) (num_or (retry_delay pc) 1000)); [|lia].
    simpl. apply andb_false_r. }
  split.
  - rewrite (isKeyLimited_current m' t provider st' pc Hst' Hpc' Hstamp'), Hu. reflexivity.
  - rewrite (getKey_unfold m' t provider st' pc Hst' Hpc' Hstamp' Hi).
    assert (Hat : forall j, usable_at st' (num_or (retry_delay pc) 1000) t j = true ->
                   keys st' !! j <> Some k).
    { intros j. unfold usable_at. destruct (keys st' !! j) as [k'|]; [|discriminate].
      intros Hj [= ->]. congruence. }
    destruct (usable_at st' _ t (currentKeyIndex st')) eqn:U.
    + simpl. intros [= E]. exact (Hat _ U E).
    + destruct (List.find _ (rotation_order st')) as [j|] eqn:F'; [|discriminate].
      apply find_some in F'. destruct F' as [_ Hj].
      unfold rotated_to. simpl. intros [= E]. exact (Hat _ Hj E).
Qed.

Lemma rotation_cools_down_witness :
  isKeyLimited (snd (getKey sample_manager 1000 "gemini")) 1500 "gemini" (Some "key-c")
  = Ok true.
Proof.
  refine (proj1 (rotation_cools_down sample_providers sample_manager 1000 "gemini"
                   sample_state sample_config "key-c" _ sample_manager_reachable
                   _ _ _ _ _ _ 1500 _)).
  - discriminate.
  - vm_compute. reflexivity.
  - reflexivity.
  - discriminate.
  - reflexivity.
  - vm_compute. reflexivity.
  - vm_compute. reflexivity.
Defined.

(** ** The configured credential lists *)










End ApiKeyStatusProps.

(* ===================================================================== *)
(** * More properties of the proxy rotator *)
(* ===================================================================== *)

Module ProxyStatsProps.
Import ProxyManager ProxyStats ProxyManagerProps.

(** ** The pool never changes *)

(** Every assignment held is the full pool. *)
Definition assignments_full (m : Manager) : Prop :=
  forall consumer l, providerAssignments m !! consumer = Some l -> l = allProxies m.

Lemma initialize_config cfg :
  config (initialize cfg) = cfg /\ providerAssignments (initialize cfg) = ∅ /\
  lastUsed (initialize cfg) = ∅.
Proof.
  unfold initialize. destruct (enabled cfg); [|repeat split].
  set (empty := {| config := cfg; proxies := []; healthStatus := ∅; lastUsed := ∅;
                   providerAssignments := ∅ |}).
  assert (H0 : config empty = cfg /\ providerAssignments empty = ∅ /\ lastUsed empty = ∅)
    by (repeat split).
  revert H0. generalize empty. clear empty.
  induction (providers cfg) as [|x l IH]; intros m Hm; simpl; [exact Hm |].
  apply IH. exact Hm.
Qed.

Lemma assigned_facts m consumer :
  config (assigned m consumer) = config m /\
  proxies (assigned m consumer) = proxies m /\
  healthStatus (assigned m consumer) = healthStatus m /\
  lastUsed (assigned m consumer) = lastUsed m /\
  providerAssignments (assigned m consumer) !! consumer
  = Some (default (allProxies m) (providerAssignments m !! consumer)) /\
  (assignments_full m -> assignments_full (assigned m consumer)).
Proof.
  unfold assigned. destruct (providerAssignments m !! consumer) as [l|] eqn:E; simpl.
  - repeat split; auto.
  - repeat split; [apply lookup_insert_eq |].
    intros Hf c l. unfold allProxies. simpl. rewrite lookup_insert.
    case_decide; [intros [= <-]; reflexivity | apply Hf].
Qed.

Lemma cleared_full m consumer :
  assignments_full m -> assignments_full (cleared m consumer).
Proof.
  intros Hf. destruct (assigned_facts m consumer) as (_ & Hp & _ & _ & _ & Ha).
  specialize (Ha Hf). intros c l. unfold cleared. simpl.
  rewrite lookup_delete. case_decide; [discriminate |].
  intros Hl. apply Ha in Hl. rewrite Hl. reflexivity.
Qed.

Lemma getProxy_keeps_pool fuel : forall m now consumer previous r m',
  getProxy fuel m now consumer previous = Some (r, m') ->
  config m' = config m /\ proxies m' = proxies m /\
  (assignments_full m -> assignments_full m').
Proof.
  induction fuel as [|fuel IH]; intros m now consumer previous r m'; [discriminate |].
  rewrite getProxy_unfold.
  destruct (negb (enabled (config m))); [intros [= _ <-]; auto |].
  destruct (sort_by (last_used m) (candidates m consumer)) as [|first rest].
  - intros H. apply IH in H. destruct H as (Hc & Hp & Hf).
    destruct (cleared_facts m consumer) as (Hc' & Hp' & _ & _).
    split; [congruence |]. split; [congruence |].
    intros Hm. apply Hf, cleared_full, Hm.
  - intros [= _ <-]. destruct (assigned_facts m consumer) as (Hc & Hp & _ & _ & _ & Ha).
    simpl. split; [exact Hc |]. split; [exact Hp |].
    intros Hm c l Hl. simpl in Hl. apply (Ha Hm) in Hl.
    rewrite Hl. reflexivity.
Qed.

Definition pool_fixed (cfg : Config) (m : Manager) : Prop :=
  config m = cfg /\ proxies m = proxies (initialize cfg) /\ assignments_full m.

Lemma reachable_pool_fixed cfg m : reachable cfg m -> pool_fixed cfg m.
Proof.
  induction 1 as [|m m' _ (Hc & Hp & Hf) Hs].
  - destruct (initialize_config cfg) as (Hc & Ha & _).
    split; [exact Hc |]. split; [reflexivity |].
    intros c l. rewrite Ha, lookup_empty. discriminate.
  - destruct Hs as [m0 now proxy [t|] | m0 proxy err | m0 fuel now consumer previous r m1 H].
    + repeat split; auto.
    + repeat split; auto.
    + unfold markProxyError. destruct (healthStatus m0 !! proxy); repeat split; auto.
    + destruct (getProxy_keeps_pool _ _ _ _ _ _ _ H) as (Hc' & Hp' & Hf').
      split; [congruence |]. split; [congruence | auto].
Qed.

Lemma reachable_candidates cfg m consumer :
  reachable cfg m -> candidates m consumer = pool_healthy m.
Proof.
  intros Hr. destruct (reachable_pool_fixed cfg m Hr) as (_ & _ & Hf).
  unfold candidates, pool_healthy.
  destruct (providerAssignments m !! consumer) as [l|] eqn:E; [|reflexivity].
  simpl. rewrite (Hf consumer l E). reflexivity.
Qed.

(** X15.  In every state reached through probes, reported errors and
    selections, a consumer's assignment is always the full pool, so the
    candidates of every consumer are the healthy endpoints of the pool:
    with the rotation enabled [getProxy] answers on its first call when
    the pool has a healthy endpoint, and never answers, however often it
    calls itself again, when it has none. *)
Theorem getProxy_answers_iff_pool_healthy cfg m now consumer previous :
  reachable cfg m -> enabled cfg = true ->
  candidates m consumer = pool_healthy m /\
  (pool_healthy m = [] ->
     forall fuel, getProxy fuel m now consumer previous = None) /\
  (pool_healthy m <> [] ->
     exists p m', In p (pool_healthy m) /\
       forall fuel, getProxy (S fuel) m now consumer previous = Some (Some p, m')).
Proof.
  intros Hr He.
  pose proof (reachable_candidates cfg m consumer Hr) as Hc.
  destruct (reachable_pool_fixed cfg m Hr) as (Hcfg & _ & _).
  assert (Hen : enabled (config m) = true) by (rewrite Hcfg; exact He).
  split; [exact Hc |]. split.
  - intros Hp fuel. apply getProxy_dead_pool; [exact Hen | rewrite Hc; exact Hp | exact Hp].
  - intros Hp.
    destruct (sort_by (last_used m) (candidates m consumer)) as [|first rest] eqn:Es;
      [apply sort_by_nil in Es; rewrite Hc in Es; contradiction |].
    eexists _, _. split.
    + rewrite <- Hc. apply (sort_by_In (last_used m)). rewrite Es. apply select_In.
    + intros fuel. rewrite getProxy_unfold, Hen, Es. reflexivity.
Qed.

Lemma getProxy_answers_iff_pool_healthy_witness :
  candidates dead_pool "FinancialHandler" = pool_healthy dead_pool /\
  forall fuel, getProxy fuel dead_pool 1000 "EcommerceHandler" None = None.
Proof.
  destruct (getProxy_answers_iff_pool_healthy single_config dead_pool 1000
              "EcommerceHandler" None dead_pool_reachable eq_refl) as (_ & Hnone & _).
  destruct (getProxy_answers_iff_pool_healthy single_config dead_pool 1000
              "FinancialHandler" None dead_pool_reachable eq_refl) as (Hc & _ & _).
  split; [exact Hc |]. apply Hnone. vm_compute. reflexivity.
Defined.

(** ** Which candidate is dealt *)

(** The stable sort puts first the earliest element among those of least
    key. *)
Lemma sort_by_head_stable (key : string -> Z) p l2 : forall l1,
  (forall q, In q l1 -> key p < key q) ->
  (forall q, In q l2 -> key p <= key q) ->
  exists rest, sort_by key (l1 ++ p :: l2) = p :: rest.
Proof.
  induction l1 as [|x l1 IH]; intros H1 H2.
  - simpl. destruct (sort_by key l2) as [|y r] eqn:E; [exists []; reflexivity |].
    assert (Hy : In y l2) by (apply (sort_by_In key); rewrite E; left; reflexivity).
    simpl. pose proof (H2 y Hy) as Hle. apply Z.leb_le in Hle. rewrite Hle.
    eexists. reflexivity.
  - destruct IH as (rest & E); [intros q Hq; apply H1; right; exact Hq | exact H2 |].
    simpl. rewrite E. simpl.
    assert (Hx : key p < key x) by (apply H1; left; reflexivity).
    apply Z.leb_gt in Hx. rewrite Hx. eexists. reflexivity.
Qed.

(** The state left by an answer. *)
Definition answered (m : Manager) (consumer p : string) (now : Z) : Manager :=
  with_lastUsed (assigned m consumer) (<[p := now]> (lastUsed m)).

Lemma answered_facts m consumer p now :
  config (answered m consumer p now) = config m /\
  candidates (answered m consumer p now) consumer = candidates m consumer /\
  last_used (answered m consumer p now) p = now /\
  (forall q, q <> p -> last_used (answered m consumer p now) q = last_used m q).
Proof.
  destruct (assigned_facts m consumer) as (Hc & Hp & Hh & _ & Ha & _).
  split; [exact Hc |]. split; [|split].
  - unfold candidates, answered, allProxies, is_healthy. simpl.
    rewrite Ha, Hh. simpl.
    destruct (providerAssignments m !! consumer); reflexivity.
  - unfold last_used, answered. simpl. rewrite lookup_insert_eq.
    unfold num_or, truthy_num. destruct (Z.eqb_spec now 0); simpl; congruence.
  - intros q Hq. unfold last_used, answered. simpl.
    rewrite lookup_insert_ne by congruence. reflexivity.
Qed.

Lemma getProxy_answer fuel m now consumer previous first rest :
  enabled (config m) = true ->
  sort_by (last_used m) (candidates m consumer) = first :: rest ->
  getProxy (S fuel) m now consumer previous
  = Some (Some (select previous first (first :: rest)),
          answered m consumer (select previous first (first :: rest)) now).
Proof. intros He Es. rewrite getProxy_unfold, He, Es. reflexivity. Qed.

Lemma getProxy_earliest_pick m now consumer l1 p l2 :
  enabled (config m) = true ->
  candidates m consumer = l1 ++ p :: l2 ->
  (forall q, In q l1 -> last_used m p < last_used m q) ->
  (forall q, In q l2 -> last_used m p <= last_used m q) ->
  forall fuel,
    getProxy (S fuel) m now consumer None = Some (Some p, answered m consumer p now).
Proof.
  intros He Hc H1 H2 fuel.
  destruct (sort_by_head_stable (last_used m) p l2 l1 H1 H2) as (rest & E).
  rewrite <- Hc in E.
  rewrite (getProxy_answer fuel m now consumer None p rest He E). reflexivity.
Qed.

(** X16.  The earliest of the least recently used: when the consumer's
    healthy candidates are [l1 ++ p :: l2], every candidate before [p]
    was used later than [p] and none after it was used earlier, a call
    without a previous proxy answers [p], on the first call. *)
Theorem getProxy_earliest_least_used m now consumer previous l1 p l2 :
  enabled (config m) = true ->
  supplied previous = None ->
  candidates m consumer = l1 ++ p :: l2 ->
  (forall q, In q l1 -> last_used m p < last_used m q) ->
  (forall q, In q l2 -> last_used m p <= last_used m q) ->
  forall fuel,
    getProxy (S fuel) m now consumer previous
    = Some (Some p, answered m consumer p now).
Proof.
  intros He Hs Hc H1 H2 fuel.
  destruct (sort_by_head_stable (last_used m) p l2 l1 H1 H2) as (rest & E).
  rewrite <- Hc in E.
  rewrite (getProxy_answer fuel m now consumer previous p rest He E).
  assert (Hsel : select previous p (p :: rest) = p).
  { unfold supplied in Hs. unfold select. destruct previous as [pv|]; [|reflexivity].
    destruct (truthy_str pv); [discriminate | reflexivity]. }
  rewrite Hsel. reflexivity.
Qed.

Lemma getProxy_earliest_least_used_witness :
  getProxy 1 (initialize sample_config) 1700000000000 "EcommerceHandler" None
  = Some (Some "http://proxy1:8080",
          answered (initialize sample_config) "EcommerceHandler"
                   "http://proxy1:8080" 1700000000000).
Proof.
  apply (getProxy_earliest_least_used (initialize sample_config) 1700000000000
           "EcommerceHandler" None []
           "http://proxy1:8080" ["http://proxy2:8080"; "socks5://proxy1:1080"]).
  - reflexivity.
  - reflexivity.
  - vm_compute. reflexivity.
  - intros q [].
  - intros q [<-|[<-|[]]]; vm_compute; discriminate.
Defined.

(** X17.  Least-recently-used selection rotates: after an answer [p]
    given at a time later than every candidate's last use, the next call
    without a previous proxy answers another candidate whenever the
    consumer has one. *)
Theorem getProxy_rotates m now1 now2 consumer previous p m1 fuel :
  getProxy (S fuel) m now1 consumer previous = Some (Some p, m1) ->
  (forall q, In q (candidates m consumer) -> last_used m q < now1) ->
  (exists q, In q (candidates m consumer) /\ q <> p) ->
  exists p2 m2,
    (forall fuel', getProxy (S fuel') m1 now2 consumer None = Some (Some p2, m2)) /\
    p2 <> p /\ In p2 (candidates m consumer).
Proof.
  intros H Hold (q & Hq & Hqp). revert H. rewrite getProxy_unfold.
  destruct (negb (enabled (config m))) eqn:He; [discriminate |].
  apply negb_false_iff in He.
  destruct (sort_by (last_used m) (candidates m consumer)) as [|first rest] eqn:Es;
    [apply sort_by_nil in Es; rewrite Es in Hq; contradiction |].
  intros [= Hp Hm]. fold (answered m consumer (select previous first (first :: rest)) now1) in Hm.
  rewrite Hp in Hm. subst m1.
  destruct (answered_facts m consumer p now1) as (Hcfg & Hcand & Hlp & Hlq).
  destruct (sort_by (last_used (answered m consumer p now1))
              (candidates (answered m consumer p now1) consumer)) as [|p2 rest2] eqn:Es2;
    [apply sort_by_nil in Es2; rewrite Hcand in Es2; rewrite Es2 in Hq; contradiction |].
  exists p2, (answered (answered m consumer p now1) consumer p2 now2).
  assert (Hin2 : In p2 (candidates m consumer)).
  { rewrite <- Hcand. apply (sort_by_In (last_used (answered m consumer p now1))).
    rewrite Es2. left. reflexivity. }
  split; [|split; [|exact Hin2]].
  - intros fuel'.
    rewrite (getProxy_answer fuel' _ now2 consumer None p2 rest2); [reflexivity | | exact Es2].
    rewrite Hcfg. exact He.
  - intros ->.
    pose proof (sort_by_sorted (last_used (answered m consumer p now1))
                  (candidates (answered m consumer p now1) consumer)) as Hs.
    rewrite Es2 in Hs.
    pose proof (head_sorted_least _ _ _ Hs q) as Hmin.
    assert (Hq' : In q (p :: rest2)).
    { rewrite <- Es2. apply sort_by_In. rewrite Hcand. exact Hq. }
    specialize (Hmin Hq'). rewrite Hlp, (Hlq q Hqp) in Hmin.
    specialize (Hold q Hq). lia.
Qed.

Lemma getProxy_rotates_witness :
  exists p2 m2,
    (forall fuel', getProxy (S fuel')
                     (answered (initialize sample_config) "EcommerceHandler"
                               "http://proxy1:8080" 1700000000000)
                     1700000000001 "EcommerceHandler" None = Some (Some p2, m2)) /\
    p2 <> "http://proxy1:8080" /\
    In p2 (candidates (initialize sample_config) "EcommerceHandler").
Proof.
  apply (getProxy_rotates (initialize sample_config) 1700000000000 1700000000001
           "EcommerceHandler" None "http://proxy1:8080" _ O).
  - vm_compute. reflexivity.
  - intros q Hq. vm_compute in Hq.
    destruct Hq as [<-|[<-|[<-|[]]]]; vm_compute; reflexivity.
  - exists "http://proxy2:8080". split; [vm_compute; auto | discriminate].
Defined.

(** Successive calls of one consumer without a previous proxy, one per
    instant of [times]. *)
Fixpoint getProxy_each (fuel : nat) (m : Manager) (consumer : string) (times : list Z)
    : option (list (option string) * Manager) :=
  match times with
  | [] => Some ([], m)
  | now :: later =>
      match getProxy fuel m now consumer None with
      | Some (r, m1) =>
          match getProxy_each fuel m1 consumer later with
          | Some (rs, m2) => Some (r :: rs, m2)
          | None => None
          end
      | None => None
      end
  end.

Lemma getProxy_each_round fuel consumer : forall times m used unused,
  enabled (config m) = true ->
  candidates m consumer = used ++ unused ->
  List.NoDup unused ->
  (forall q, In q used -> 0 < last_used m q) ->
  (forall q, In q unused -> last_used m q = 0) ->
  (forall t, In t times -> 0 < t) ->
  (length times <= length unused)%nat ->
  exists m',
    getProxy_each (S fuel) m consumer times
    = Some (List.map Some (firstn (length times) unused), m') /\
    candidates m' consumer = candidates m consumer.
Proof.
  induction times as [|t times IH]; intros m used unused He Hc Hnd Hu Hf Ht Hlen.
  - exists m. split; reflexivity.
  - destruct unused as [|p unused]; [simpl in Hlen; lia |].
    cbn [getProxy_each].
    assert (Hpick : getProxy (S fuel) m t consumer None
                    = Some (Some p, answered m consumer p t)).
    { apply (getProxy_earliest_pick m t consumer used p unused He Hc).
      - intros q Hq. rewrite (Hf p) by (left; reflexivity). apply Hu, Hq.
      - intros q Hq. rewrite (Hf p) by (left; reflexivity).
        rewrite (Hf q) by (right; exact Hq). lia. }
    rewrite Hpick.
    destruct (answered_facts m consumer p t) as (Hcfg & Hcand & Hlp & Hlq).
    inversion Hnd as [|? ? Hnot Hnd']; subst.
    destruct (IH (answered m consumer p t) (used ++ [p]) unused) as (m' & E & Hc').
    + rewrite Hcfg. exact He.
    + rewrite Hcand, Hc, <- app_assoc. reflexivity.
    + exact Hnd'.
    + intros q Hq. apply in_app_or in Hq. destruct Hq as [Hq|[<-|[]]].
      * destruct (string_dec q p) as [->|Hne].
        -- rewrite Hlp. apply Ht. left. reflexivity.
        -- rewrite (Hlq q Hne). apply Hu, Hq.
      * rewrite Hlp. apply Ht. left. reflexivity.
    + intros q Hq. rewrite Hlq; [apply Hf; right; exact Hq |].
      intros ->. contradiction.
    + intros t' Ht'. apply Ht. right. exact Ht'.
    + simpl in Hlen. lia.
    + exists m'. rewrite E. split; [reflexivity | congruence].
Qed.

(** X18.  Round robin: while no healthy candidate of a consumer has been
    used yet, successive calls without a previous proxy deal the
    candidates in the order of the assignment, each one once. *)
Theorem getProxy_first_round m consumer times fuel :
  enabled (config m) = true ->
  List.NoDup (candidates m consumer) ->
  (forall q, In q (candidates m consumer) -> last_used m q = 0) ->
  (forall t, In t times -> 0 < t) ->
  (length times <= length (candidates m consumer))%nat ->
  exists m',
    getProxy_each (S fuel) m consumer times
    = Some (List.map Some (firstn (length times) (candidates m consumer)), m').
Proof.
  intros He Hnd Hf Ht Hlen.
  destruct (getProxy_each_round fuel consumer times m [] (candidates m consumer))
    as (m' & E & _); auto.
  - intros q [].
  - exists m'. exact E.
Qed.

Lemma getProxy_first_round_witness :
  exists m',
    getProxy_each 1 (initialize sample_config) "EcommerceHandler"
                  [1700000000000; 1700000000500; 1700000000900]
    = Some ([Some "http://proxy1:8080"; Some "http://proxy2:8080";
             Some "socks5://proxy1:1080"], m').
Proof.
  apply (getProxy_first_round (initialize sample_config) "EcommerceHandler"
           [1700000000000; 1700000000500; 1700000000900] O).
  - reflexivity.
  - vm_compute. repeat constructor; simpl; intuition discriminate.
  - intros q Hq. vm_compute in Hq.
    destruct Hq as [<-|[<-|[<-|[]]]]; vm_compute; reflexivity.
  - intros t [<-|[<-|[<-|[]]]]; reflexivity.
  - vm_compute. lia.
Defined.

(** ** When the answer is null *)

Lemma getProxy_null fuel : forall m now consumer previous m',
  getProxy fuel m now consumer previous = Some (None, m') ->
  enabled (config m) = false /\ m' = m.
Proof.
  induction fuel as [|fuel IH]; intros m now consumer previous m'; [discriminate |].
  rewrite getProxy_unfold.
  destruct (enabled (config m)) eqn:He; simpl; [|intros [= <-]; auto].
  destruct (sort_by (last_used m) (candidates m consumer)) as [|first rest];
    [|discriminate].
  intros H. apply IH in H. destruct H as (H & _).
  destruct (cleared_facts m consumer) as (Hc & _). congruence.
Qed.

(** X19.  [getProxy] answers null exactly when the rotation is disabled
    in the configuration, and then it leaves the manager as it was: with
    the rotation enabled an answer is always an endpoint. *)
Theorem getProxy_null_iff_disabled fuel m now consumer previous :
  (enabled (config m) = false <->
   exists m', getProxy (S fuel) m now consumer previous = Some (None, m')) /\
  (forall m', getProxy (S fuel) m now consumer previous = Some (None, m') -> m' = m).
Proof.
  split; [split |].
  - intros He. exists m. rewrite getProxy_unfold, He. reflexivity.
  - intros (m' & H). apply getProxy_null in H. apply H.
  - intros m' H. apply getProxy_null in H. apply H.
Qed.

(** ** Counting failures *)

Definition record_failures (fs : list (string * failure)) (m : Manager) : Manager :=
  fold_left (fun m pf => record_failure (fst pf) m (snd pf)) fs m.

Definition failures_of (proxy : string) (fs : list (string * failure)) : nat :=
  length (List.filter (fun pf => String.eqb (fst pf) proxy) fs).

Lemma record_failure_same proxy m f s :
  healthStatus m !! proxy = Some s ->
  exists s', healthStatus (record_failure proxy m f) !! proxy = Some s' /\
             failCount s' = S (failCount s) /\
             healthy s' = (S (failCount s) <? 3)%nat.
Proof.
  intros Hs. destruct f as [now|err]; simpl.
  - unfold updateProxyHealth. simpl. rewrite Hs, lookup_insert_eq. simpl.
    eexists. split; [reflexivity |]. split; reflexivity.
  - unfold markProxyError. rewrite Hs. simpl. rewrite lookup_insert_eq.
    eexists. split; [reflexivity |]. split; reflexivity.
Qed.

Lemma record_failure_other proxy q m f :
  q <> proxy ->
  healthStatus (record_failure q m f) !! proxy = healthStatus m !! proxy.
Proof.
  intros Hq. destruct f as [now|err]; simpl.
  - unfold updateProxyHealth. simpl. apply lookup_insert_ne. exact Hq.
  - unfold markProxyError. destruct (healthStatus m !! q); [|reflexivity].
    simpl. apply lookup_insert_ne. exact Hq.
Qed.

Lemma record_failures_count proxy fs : forall m s,
  healthStatus m !! proxy = Some s ->
  healthy s = (failCount s <? 3)%nat ->
  exists s', healthStatus (record_failures fs m) !! proxy = Some s' /\
             failCount s' = (failCount s + failures_of proxy fs)%nat /\
             healthy s' = (failCount s' <? 3)%nat.
Proof.
  induction fs as [|[q f] fs IH]; intros m s Hs Hh.
  - exists s. unfold failures_of. simpl. rewrite Nat.add_0_r. auto.
  - unfold record_failures, failures_of. simpl.
    destruct (String.eqb_spec q proxy) as [->|Hq].
    + destruct (record_failure_same proxy m f s Hs) as (s1 & Hs1 & Hc1 & Hh1).
      rewrite <- Hc1 in Hh1.
      destruct (IH _ s1 Hs1 Hh1) as (s' & Hs' & Hc' & Hh').
      exists s'. split; [exact Hs' |]. split; [|exact Hh'].
      rewrite Hc', Hc1. unfold failures_of. simpl. lia.
    + assert (Hs1 : healthStatus (record_failure q m f) !! proxy = Some s)
        by (rewrite record_failure_other; assumption).
      destruct (IH _ s Hs1 Hh) as (s' & Hs' & Hc' & Hh').
      exists s'. auto.
Qed.

(** X20.  Failed probes and errors reported by consumers feed one
    counter per endpoint: after a successful probe of an endpoint, it is
    healthy exactly while fewer than three failures of either kind have
    been recorded against it, failures of other endpoints do not count,
    and from the third failure on no consumer is dealt the endpoint. *)
Theorem failures_share_one_counter m now proxy time fs :
  let m' := record_failures fs (snd (checkProxyHealth m now proxy (Some time))) in
  is_healthy m' proxy = (failures_of proxy fs <? 3)%nat /\
  (exists s, healthStatus m' !! proxy = Some s /\ failCount s = failures_of proxy fs) /\
  (forall fuel now' consumer previous m2,
     getProxy fuel m' now' consumer previous = Some (Some proxy, m2) ->
     (failures_of proxy fs < 3)%nat).
Proof.
  cbv zeta. simpl.
  set (m0 := updateProxyHealth m now proxy true (Some time)).
  assert (H0 : exists s0, healthStatus m0 !! proxy = Some s0 /\ failCount s0 = O /\
                          healthy s0 = true).
  { unfold m0, updateProxyHealth. simpl. rewrite lookup_insert_eq.
    eexists. split; [reflexivity |]. split; reflexivity. }
  destruct H0 as (s0 & Hs0 & Hc0 & Hh0).
  destruct (record_failures_count proxy fs m0 s0 Hs0) as (s' & Hs' & Hc' & Hh');
    [rewrite Hh0, Hc0; reflexivity |].
  rewrite Hc0 in Hc'. simpl in Hc'.
  assert (Hhealthy : is_healthy (record_failures fs m0) proxy
                     = (failures_of proxy fs <? 3)%nat)
    by (unfold is_healthy; rewrite Hs', Hh', Hc'; reflexivity).
  split; [exact Hhealthy |]. split; [exists s'; auto |].
  intros fuel now' consumer previous m2 H.
  apply getProxy_returns_healthy in H. rewrite Hhealthy in H.
  apply Nat.ltb_lt, H.
Qed.

(** ** The figures of [getProxyStats] *)

Definition provider_totals (s : Stats) : list nat :=
  List.map (fun e => provider_total (snd e)) (by_provider s).

Definition provider_healthies (s : Stats) : list nat :=
  List.map (fun e => provider_healthy (snd e)) (by_provider s).

Lemma total_fold (l : list (string * list string)) : forall acc,
  fold_left (fun total entry => (total + length (snd entry))%nat) l acc
  = (acc + length (concat (List.map snd l)))%nat.
Proof.
  induction l as [|e l IH]; intros acc; simpl; [lia |].
  rewrite IH, length_app. lia.
Qed.

Lemma getTotalProxyCount_length m : getTotalProxyCount m = length (allProxies m).
Proof. unfold getTotalProxyCount, allProxies. rewrite total_fold. reflexivity. Qed.

Lemma totals_sum (f : string -> bool) (l : list (string * list string)) :
  length (concat (List.map snd l))
  = list_sum (List.map (fun e => length (snd e)) l) /\
  length (List.filter f (concat (List.map snd l)))
  = list_sum (List.map (fun e => length (List.filter f (snd e))) l).
Proof.
  induction l as [|e l [IH1 IH2]]; simpl; [auto |].
  rewrite length_app, List.filter_app, length_app, IH1, IH2. auto.
Qed.

Lemma filter_length_le (f : string -> bool) (l : list string) :
  (length (List.filter f l) <= length l)%nat.
Proof. induction l as [|x l IH]; simpl; [lia |]. destruct (f x); simpl; lia. Qed.

(** The endpoints on record are those of the pool. *)
Definition records_in_pool (m : Manager) : Prop :=
  map_Forall (fun p _ => In p (allProxies m)) (healthStatus m).

Lemma getHealthyProxyCount_pool m :
  List.NoDup (allProxies m) -> records_in_pool m ->
  getHealthyProxyCount m = length (pool_healthy m).
Proof.
  intros Hnd Hrec. unfold getHealthyProxyCount.
  set (M := filter (fun kv => healthy (snd kv) = true) (healthStatus m)).
  rewrite <- (length_map_to_list M), <- (length_fmap fst (map_to_list M)).
  apply Permutation_length, Permutation.NoDup_Permutation.
  - apply NoDup_ListNoDup, NoDup_fst_map_to_list.
  - apply List.NoDup_filter, Hnd.
  - intros p. unfold pool_healthy. rewrite filter_In. unfold is_healthy. split.
    + intros H. apply (proj2 (list_elem_of_In _ _)) in H.
      apply list_elem_of_fmap in H. destruct H as ([k s] & -> & H).
      apply elem_of_map_to_list in H. unfold M in H.
      apply map_lookup_filter_Some in H. destruct H as (Hs & Hh). simpl in *.
      rewrite Hs. split; [apply (Hrec k s Hs) | exact Hh].
    + intros (_ & Hh). destruct (healthStatus m !! p) as [s|] eqn:Hs; [|discriminate].
      apply list_elem_of_In, list_elem_of_fmap. exists (p, s). split; [reflexivity |].
      apply elem_of_map_to_list, map_lookup_filter_Some. split; assumption.
Qed.

(** X21.  The figures of [getProxyStats] add up.  For every manager
    [total] is the sum of the providers' totals and no provider has more
    healthy endpoints than endpoints.  When no endpoint is listed twice
    and every endpoint on record belongs to the pool, [healthy] is the
    sum of the providers' healthy figures and never exceeds [total]. *)
Theorem getProxyStats_adds_up m :
  let s := getProxyStats m in
  (total s = list_sum (provider_totals s) /\
   List.Forall (fun e => (provider_healthy (snd e) <= provider_total (snd e))%nat)
               (by_provider s)) /\
  (List.NoDup (allProxies m) -> records_in_pool m ->
   healthy_total s = list_sum (provider_healthies s) /\
   (healthy_total s <= total s)%nat).
Proof.
  cbv zeta.
  unfold provider_totals, provider_healthies, getProxyStats. simpl.
  rewrite !List.map_map. simpl.
  destruct (totals_sum (is_healthy m) (proxies m)) as (Ht & Hh).
  rewrite getTotalProxyCount_length.
  unfold allProxies at 1. rewrite <- Ht.
  split; [split; [reflexivity |] |].
  - apply List.Forall_forall. intros e He. apply in_map_iff in He.
    destruct He as (x & <- & _). simpl. apply filter_length_le.
  - intros Hnd Hrec. rewrite (getHealthyProxyCount_pool m Hnd Hrec).
    unfold pool_healthy, allProxies. rewrite <- Hh.
    split; [reflexivity | apply filter_length_le].
Qed.

Lemma getProxyStats_adds_up_witness :
  let s := getProxyStats (initialize sample_config) in
  total s = list_sum (provider_totals s) /\
  healthy_total s = list_sum (provider_healthies s) /\
  (healthy_total s <= total s)%nat.
Proof.
  destruct (getProxyStats_adds_up (initialize sample_config)) as ((Htotal & _) & Hhealthy).
  split; [exact Htotal |]. apply Hhealthy.
  - vm_compute. repeat constructor; simpl; intuition discriminate.
  - intros p s Hs. unfold initialize in Hs. simpl in Hs.
    rewrite !lookup_insert in Hs.
    repeat case_decide; subst; try (vm_compute; tauto).
    rewrite lookup_empty in Hs. discriminate.
Defined.

End ProxyStatsProps.

(* ===================================================================== *)
(** * How the cache operations compose *)
(* ===================================================================== *)

Module CacheLifeProps.
Import Json CacheManager CacheManagerProps.

(** ** What a read sees *)

(** The answer of [get] from what the active backend holds under the
    derived key. *)
Definition read (JSON_parse : string -> result json) (is_service : bool) (now : Z)
    (held : option (string * Z)) : result json :=
  match held with
  | None => Ok JNull
  | Some (text, expiry) =>
      if is_service then
        if now <? expiry then
          if truthy_str text then try_catch (JSON_parse text) (fun _ => Ok JNull)
          else Ok JNull
        else Ok JNull
      else if expiry <? now then Ok JNull
           else try_catch (JSON_parse text) (fun _ => Ok JNull)
  end.

Lemma get_read JSON_parse m now c key k :
  off m = false -> generateKey c key = Ok k ->
  get JSON_parse m now None c key = read JSON_parse (is_remote m) now (stored m k).
Proof.
  intros Hoff Hk. unfold get, read, stored. rewrite Hoff, Hk. simpl.
  destruct (is_remote m); simpl.
  - unfold remote_get. destruct (remote m !! k) as [e|]; simpl; [|reflexivity].
    destruct (now <? expire_at e); [|reflexivity].
    destruct (truthy_str (payload e)); reflexivity.
  - destruct (rows m !! k) as [r|]; simpl; [|reflexivity].
    destruct (expires_at r <? now); reflexivity.
Qed.

Lemma get_fault JSON_parse m now e c key k :
  generateKey c key = Ok k ->
  get JSON_parse m now (Some e) c key = Ok JNull.
Proof.
  intros Hk. unfold get. rewrite Hk. destruct (off m); [reflexivity |].
  simpl. destruct (is_remote m); reflexivity.
Qed.

(** Two caches in the same mode that hold the same under the derived key
    answer [get] alike. *)
Lemma get_agree JSON_parse m1 m2 now fault c key :
  off m1 = off m2 -> is_remote m1 = is_remote m2 ->
  (forall k, generateKey c key = Ok k -> stored m1 k = stored m2 k) ->
  get JSON_parse m1 now fault c key = get JSON_parse m2 now fault c key.
Proof.
  intros Hoff Hr Hs.
  destruct (generateKey c key) as [k|e] eqn:Hk.
  - destruct fault as [e|]; [rewrite !(get_fault _ _ _ _ _ _ k Hk); reflexivity |].
    destruct (off m2) eqn:Hoff2.
    + unfold get. rewrite Hoff, Hoff2. reflexivity.
    + rewrite (get_read _ m1 _ _ _ k), (get_read _ m2 _ _ _ k) by congruence.
      rewrite Hr, (Hs k eq_refl). reflexivity.
  - unfold get. rewrite Hoff, Hk. reflexivity.
Qed.

Lemma key_category c1 c2 text1 text2 :
  (c1 ++ ":" ++ Sha256.sha256hex text1 = c2 ++ ":" ++ Sha256.sha256hex text2)%string ->
  c1 = c2.
Proof.
  intros E. apply (append_same_tail_length _ _ _ _ E).
  rewrite !append_length, !Sha256Props.sha256hex_length. reflexivity.
Qed.

Lemma generateKey_category c1 c2 key1 key2 k :
  generateKey c1 key1 = Ok k -> generateKey c2 key2 = Ok k -> c1 = c2.
Proof.
  intros H1 H2. apply generateKey_Ok in H1, H2.
  destruct H1 as (t1 & _ & ->), H2 as (t2 & _ & E). apply (key_category _ _ _ _ E).
Qed.

(** ** What each operation leaves *)

Lemma set_facts m now fault c key v customTTL r m' :
  set m now fault c key v customTTL = (r, m') ->
  off m' = off m /\ is_remote m' = is_remote m /\
  forall k, generateKey c key <> Ok k -> stored m' k = stored m k.
Proof.
  unfold set. destruct (off m) eqn:Hoff; [intros [= <- <-]; auto |].
  destruct (generateKey c key) as [ck|e]; [|intros [= <- <-]; auto].
  destruct (is_remote m) eqn:R; simpl.
  - unfold remote_set, backend. destruct fault; simpl; [intros [= <- <-]; auto |].
    destruct (0 <? _); simpl; intros [= <- <-]; auto.
    split; [exact Hoff |]. split; [exact R |]. intros k Hne.
    rewrite (stored_with_remote _ _ _ R), lookup_insert_ne by congruence.
    unfold stored. rewrite R. reflexivity.
  - unfold backend. destruct fault; simpl; intros [= <- <-]; auto.
    split; [exact Hoff |]. split; [exact R |]. intros k Hne.
    rewrite (stored_with_rows _ _ _ R), lookup_insert_ne by congruence.
    unfold stored. rewrite R. reflexivity.
Qed.

Lemma delete_facts m fault c key r m' :
  delete m fault c key = (r, m') ->
  off m' = off m /\ is_remote m' = is_remote m /\
  (forall k, generateKey c key <> Ok k -> stored m' k = stored m k) /\
  (r = Ok true -> forall k, generateKey c key = Ok k -> stored m' k = None).
Proof.
  unfold delete. destruct (off m) eqn:Hoff;
    [intros [= <- <-]; repeat split; auto; discriminate |].
  destruct (generateKey c key) as [ck|e];
    [|intros [= <- <-]; repeat split; auto; discriminate].
  destruct fault; simpl; [intros [= <- <-]; repeat split; auto; discriminate |].
  intros [= <- <-]. destruct (is_remote m) eqn:R.
  - split; [exact Hoff |]. split; [exact R |]. split.
    + intros k Hne. rewrite (stored_with_remote _ _ _ R), lookup_delete_ne by congruence.
      unfold stored. rewrite R. reflexivity.
    + intros _ k [= <-]. rewrite (stored_with_remote _ _ _ R), lookup_delete_eq. reflexivity.
  - split; [exact Hoff |]. split; [exact R |]. split.
    + intros k Hne. rewrite (stored_with_rows _ _ _ R), lookup_delete_ne by congruence.
      unfold stored. rewrite R. reflexivity.
    + intros _ k [= <-]. rewrite (stored_with_rows _ _ _ R), lookup_delete_eq. reflexivity.
Qed.

Lemma set_true_inv m now fault c key v customTTL m' :
  set m now fault c key v customTTL = (Ok true, m') ->
  off m = false /\ exists k, generateKey c key = Ok k.
Proof.
  unfold set. destruct (off m); [discriminate |].
  destruct (generateKey c key) as [k|e]; [|discriminate].
  intros _. split; [reflexivity | exists k; reflexivity].
Qed.

Lemma delete_true_inv m fault c key m' :
  delete m fault c key = (Ok true, m') ->
  off m = false /\ exists k, generateKey c key = Ok k.
Proof.
  unfold delete. destruct (off m); [discriminate |].
  destruct (generateKey c key) as [k|e]; [|discriminate].
  intros _. split; [reflexivity | exists k; reflexivity].
Qed.

Lemma number_to_string_truthy n : truthy_str (number_to_string n) = true.
Proof.
  unfold number_to_string. destruct n as [|p|p]; simpl; [reflexivity | |].
  - destruct (Pos.to_uint p); reflexivity.
  - reflexivity.
Qed.

Lemma stringify_truthy v : truthy_str (stringify v) = true.
Proof.
  destruct v as [|[|]|n|s|items|members]; try reflexivity.
  apply number_to_string_truthy.
Qed.

(** A parser of the three literals; it stands for [JSON.parse] where a
    concrete parser is needed. *)
Definition parse_literal (text : string) : result json :=
  if String.eqb text "null" then Ok JNull
  else if String.eqb text "true" then Ok (JBool true)
  else if String.eqb text "false" then Ok (JBool false)
  else Throw (SyntaxError "Unexpected token").

(** X22.  Round trip: after a [set] that returned [true], [get] with the
    same category and key returns the value that was stored, at every
    instant before the entry's expiry, and on the embedded store also at
    the expiry instant itself, provided [JSON.parse] reads back what
    [JSON.stringify] wrote. *)
Theorem set_get_round_trip JSON_parse m now later fault c key v customTTL m' :
  set m now fault c key v customTTL = (Ok true, m') ->
  JSON_parse (stringify v) = Ok v ->
  later < now + effective_ttl m c customTTL * 1000 \/
  (is_remote m = false /\ later = now + effective_ttl m c customTTL * 1000) ->
  get JSON_parse m' later None c key = Ok v.
Proof.
  intros Hset Hparse Hlater.
  destruct (set_true_inv _ _ _ _ _ _ _ _ Hset) as (Hoff & k & Hk).
  destruct (set_facts _ _ _ _ _ _ _ _ _ Hset) as (Hoff' & Hr' & _).
  destruct (set_true_stored _ _ _ _ _ _ _ _ _ Hk Hset) as (Hs & _).
  rewrite (get_read JSON_parse m' later c key k) by congruence.
  rewrite Hs, Hr'. unfold read. rewrite Hparse, stringify_truthy. simpl.
  destruct (is_remote m).
  - destruct Hlater as [Hlt|[Hr _]]; [|discriminate].
    apply Z.ltb_lt in Hlt. rewrite Hlt. reflexivity.
  - assert (Hge : (now + effective_ttl m c customTTL * 1000 <? later) = false)
      by (apply Z.ltb_ge; destruct Hlater as [Hlt|[_ ->]]; lia).
    rewrite Hge. reflexivity.
Qed.

Lemma set_get_round_trip_witness :
  get parse_literal
      (snd (set sample_cache 6000 None "FinancialHandler" (KString "abc") (JBool true) None))
      306000 None "FinancialHandler" (KString "abc")
  = Ok (JBool true).
Proof.
  apply (set_get_round_trip parse_literal sample_cache 6000 306000 None
           "FinancialHandler" (KString "abc") (JBool true) None
           (snd (set sample_cache 6000 None "FinancialHandler" (KString "abc")
                     (JBool true) None))).
  - vm_compute. reflexivity.
  - reflexivity.
  - right. split; vm_compute; reflexivity.
Defined.

(** X23.  After a [delete] that returned [true], [get] with the same
    category and key is a miss at every instant, whatever the backend
    does, and [get] under every other derived key answers as before. *)
Theorem delete_then_get_misses JSON_parse m later fault fault' c key m' :
  delete m fault c key = (Ok true, m') ->
  get JSON_parse m' later fault' c key = Ok JNull /\
  forall c2 key2,
    generateKey c2 key2 <> generateKey c key ->
    get JSON_parse m' later fault' c2 key2 = get JSON_parse m later fault' c2 key2.
Proof.
  intros Hdel.
  destruct (delete_true_inv _ _ _ _ _ Hdel) as (Hoff & k & Hk).
  destruct (delete_facts _ _ _ _ _ _ Hdel) as (Hoff' & Hr' & Hother & Hgone).
  split.
  - destruct fault' as [e|]; [apply (get_fault _ _ _ _ _ _ k Hk) |].
    rewrite (get_read JSON_parse m' later c key k) by congruence.
    rewrite (Hgone eq_refl k Hk). reflexivity.
  - intros c2 key2 Hne. apply get_agree; [exact Hoff' | exact Hr' |].
    intros k2 Hk2. apply Hother. congruence.
Qed.

Lemma delete_then_get_misses_witness :
  get parse_literal
      (snd (delete
              (snd (set sample_cache 6000 None "FinancialHandler" (KString "abc")
                        (JBool true) None))
              None "FinancialHandler" (KString "abc")))
      7000 None "FinancialHandler" (KString "abc")
  = Ok JNull.
Proof.
  refine (proj1 (delete_then_get_misses parse_literal
                   (snd (set sample_cache 6000 None "FinancialHandler" (KString "abc")
                             (JBool true) None))
                   7000 None None "FinancialHandler" (KString "abc")
                   (snd (delete
                           (snd (set sample_cache 6000 None "FinancialHandler"
                                     (KString "abc") (JBool true) None))
                           None "FinancialHandler" (KString "abc"))) _)).
  vm_compute. reflexivity.
Defined.

(** ** Categories *)

(** Every row of the embedded store sits under a key derived for the
    category the row records. *)
Definition rows_tagged (m : Manager) : Prop :=
  forall k r, rows m !! k = Some r ->
    exists text, k = (CacheManager.category r ++ ":" ++ Sha256.sha256hex text)%string.

Lemma rows_tagged_category m c key k r :
  rows_tagged m -> generateKey c key = Ok k -> rows m !! k = Some r ->
  CacheManager.category r = c.
Proof.
  intros Ht Hk Hr. apply Ht in Hr. destruct Hr as (text & E).
  apply generateKey_Ok in Hk. destruct Hk as (text' & _ & Hk).
  rewrite Hk in E. symmetry. apply (key_category _ _ _ _ E).
Qed.

Lemma clear_facts m fault c r m' :
  clear m fault c = (r, m') ->
  off m' = off m /\ is_remote m' = is_remote m /\
  (is_remote m = false ->
   rows m' = rows m \/
   (r = Ok true /\ rows m' = filter (fun kv => CacheManager.category (snd kv) <> c) (rows m))) /\
  (r = Ok true -> is_remote m = false ->
   rows m' = filter (fun kv => CacheManager.category (snd kv) <> c) (rows m)).
Proof.
  unfold clear. destruct (off m) eqn:Hoff;
    [intros [= <- <-]; repeat split; auto; discriminate |].
  destruct fault; simpl; [intros [= <- <-]; repeat split; auto; discriminate |].
  intros [= <- <-]. destruct (is_remote m) eqn:R.
  - repeat split; auto; discriminate.
  - repeat split; auto.
Qed.

Lemma stored_rows m k :
  is_remote m = false ->
  stored m k = (fun r => (value r, expires_at r)) <$> rows m !! k.
Proof. unfold stored. intros ->. reflexivity. Qed.

(** X24.  Clearing a category of the embedded store, whose rows sit
    under keys of their own category: after a [clear] that returned
    [true] every [get] of that category is a miss, and the rows are still
    under keys of their own category. *)
Theorem clear_empties_category JSON_parse m later fault fault' c m' :
  is_remote m = false -> rows_tagged m ->
  clear m fault c = (Ok true, m') ->
  rows_tagged m' /\
  forall key k, generateKey c key = Ok k ->
    stored m' k = None /\ get JSON_parse m' later fault' c key = Ok JNull.
Proof.
  intros R Ht Hclear.
  destruct (clear_facts _ _ _ _ _ Hclear) as (Hoff' & Hr' & _ & Hrows).
  specialize (Hrows eq_refl R).
  assert (Hoff : off m = false)
    by (unfold clear in Hclear; destruct (off m); [discriminate | reflexivity]).
  split.
  - intros k r. rewrite Hrows. intros H. apply map_lookup_filter_Some in H.
    apply Ht, H.
  - intros key k Hk.
    assert (Hnone : stored m' k = None).
    { rewrite stored_rows by congruence. rewrite Hrows.
      destruct (filter _ (rows m) !! k) as [r|] eqn:E; [|reflexivity].
      apply map_lookup_filter_Some in E. destruct E as (Hr & Hc). simpl in Hc.
      elim Hc. apply (rows_tagged_category m c key k r Ht Hk Hr). }
    split; [exact Hnone |].
    destruct fault' as [e|]; [apply (get_fault _ _ _ _ _ _ k Hk) |].
    rewrite (get_read JSON_parse m' later c key k) by congruence.
    rewrite Hnone. reflexivity.
Qed.

Lemma sample_cache_tagged : rows_tagged sample_cache.
Proof.
  intros k r H. unfold sample_cache in H. simpl in H.
  apply lookup_singleton_Some in H. destruct H as (<- & <-).
  exists "abc". vm_compute. reflexivity.
Qed.

Lemma clear_empties_category_witness :
  stored (snd (clear sample_cache None "FinancialHandler")) stale_key = None /\
  get parse_literal (snd (clear sample_cache None "FinancialHandler")) 3000 None
      "FinancialHandler" (KString "abc") = Ok JNull.
Proof.
  refine (proj2 (clear_empties_category parse_literal sample_cache 3000 None None
                   "FinancialHandler" (snd (clear sample_cache None "FinancialHandler"))
                   _ sample_cache_tagged _)
                (KString "abc") stale_key _).
  - reflexivity.
  - vm_compute. reflexivity.
  - vm_compute. reflexivity.
Defined.

Lemma filter_lookup_keep {V} (P : string * V -> Prop) `{forall x, Decision (P x)}
    (t : gmap string V) k :
  (forall r, t !! k = Some r -> P (k, r)) -> filter P t !! k = t !! k.
Proof.
  intros Hk. destruct (t !! k) as [r|] eqn:E.
  - apply map_lookup_filter_Some. split; [exact E | apply Hk; reflexivity].
  - apply map_lookup_filter_None. left. exact E.
Qed.

(** X25.  Categories are separate name spaces: a [set], a [delete] or,
    on the embedded store with rows under keys of their own category, a
    [clear] under one category never changes what [get] answers under
    another category, whatever the keys, the instant and the backend's
    faults. *)
Theorem categories_are_separate JSON_parse m now later fault fault' c c' key key' v customTTL :
  c <> c' ->
  get JSON_parse (snd (set m now fault c key v customTTL)) later fault' c' key'
  = get JSON_parse m later fault' c' key' /\
  get JSON_parse (snd (delete m fault c key)) later fault' c' key'
  = get JSON_parse m later fault' c' key' /\
  (is_remote m = false -> rows_tagged m ->
   get JSON_parse (snd (clear m fault c)) later fault' c' key'
   = get JSON_parse m later fault' c' key').
Proof.
  intros Hne. split; [|split].
  - destruct (set m now fault c key v customTTL) as [r m'] eqn:E.
    destruct (set_facts _ _ _ _ _ _ _ _ _ E) as (Hoff & Hr & Hs).
    apply get_agree; [exact Hoff | exact Hr |]. intros k Hk. apply Hs.
    intros Hk'. apply Hne. apply (generateKey_category _ _ _ _ _ Hk' Hk).
  - destruct (delete m fault c key) as [r m'] eqn:E.
    destruct (delete_facts _ _ _ _ _ _ E) as (Hoff & Hr & Hs & _).
    apply get_agree; [exact Hoff | exact Hr |]. intros k Hk. apply Hs.
    intros Hk'. apply Hne. apply (generateKey_category _ _ _ _ _ Hk' Hk).
  - intros R Ht. destruct (clear m fault c) as [r m'] eqn:E.
    destruct (clear_facts _ _ _ _ _ E) as (Hoff & Hr & Hrows & _).
    apply get_agree; [exact Hoff | exact Hr |]. intros k Hk. simpl.
    rewrite !stored_rows by congruence.
    destruct (Hrows R) as [->|[_ ->]]; [reflexivity |].
    rewrite filter_lookup_keep; [reflexivity |].
    intros r' Hr'. simpl. rewrite (rows_tagged_category m c' key' k r' Ht Hk Hr').
    congruence.
Qed.

Lemma categories_are_separate_witness :
  get parse_literal
      (snd (set sample_cache 2000 None "EcommerceHandler" (KString "abc") JNull None))
      3000 None "FinancialHandler" (KString "abc")
  = get parse_literal sample_cache 3000 None "FinancialHandler" (KString "abc") /\
  get parse_literal (snd (clear sample_cache None "EcommerceHandler"))
      3000 None "FinancialHandler" (KString "abc")
  = get parse_literal sample_cache 3000 None "FinancialHandler" (KString "abc").
Proof.
  destruct (categories_are_separate parse_literal sample_cache 2000 3000 None None
              "EcommerceHandler" "FinancialHandler" (KString "abc") (KString "abc")
              JNull None) as (Hset & _ & Hclear); [discriminate |].
  split; [exact Hset | apply Hclear; [reflexivity | apply sample_cache_tagged]].
Defined.

(** X26.  The periodic sweep is invisible to readers: at the instant of
    a sweep and at every later one, [get] answers the same whether the
    sweep ran or not, and whether or not it failed. *)
Theorem cleanup_is_invisible JSON_parse m now later fault fault' c key :
  now <= later ->
  get JSON_parse (cleanup m now fault) later fault' c key
  = get JSON_parse m later fault' c key.
Proof.
  intros Hle. unfold cleanup.
  destruct (off m) eqn:Hoff; [reflexivity |].
  destruct (is_remote m) eqn:R; [reflexivity |].
  destruct fault; simpl; [reflexivity |].
  set (m' := with_rows m _).
  assert (Hoff' : off m' = false) by exact Hoff.
  assert (R' : is_remote m' = false) by exact R.
  destruct (generateKey c key) as [k|e] eqn:Hk;
    [|unfold get; rewrite Hoff, Hoff', Hk; reflexivity].
  destruct fault' as [e|]; [rewrite !(get_fault _ _ _ _ _ _ k Hk); reflexivity |].
  rewrite (get_read _ m' _ _ _ k Hoff' Hk), (get_read _ m _ _ _ k Hoff Hk).
  rewrite R', R, !stored_rows by assumption.
  unfold m'. simpl.
  destruct (rows m !! k) as [r|] eqn:Hr.
  - destruct (Z.ltb_spec (expires_at r) now) as [Hold|Hlive].
    + assert (Hgone : filter (fun kv : string * Row => ~ expires_at (snd kv) < now) (rows m) !! k
                      = None).
      { apply map_lookup_filter_None. right. intros r0 Hr0. simpl.
        rewrite Hr in Hr0. injection Hr0 as <-. lia. }
      rewrite Hgone. simpl.
      assert (Hexp : (expires_at r <? later) = true) by (apply Z.ltb_lt; lia).
      rewrite Hexp. reflexivity.
    + rewrite filter_lookup_keep, Hr; [reflexivity |].
      intros r0 Hr0. simpl. rewrite Hr in Hr0. injection Hr0 as <-. lia.
  - rewrite filter_lookup_keep, Hr; [reflexivity |].
    intros r0 Hr0. congruence.
Qed.

Lemma cleanup_is_invisible_witness :
  get parse_literal (cleanup sample_cache 6000 None) 6000 None
      "FinancialHandler" (KString "abc")
  = get parse_literal sample_cache 6000 None "FinancialHandler" (KString "abc").
Proof.
  apply (cleanup_is_invisible parse_literal sample_cache 6000 6000 None None
           "FinancialHandler" (KString "abc")).
  lia.
Defined.

(** X27.  Every operation keeps the rows of the embedded store under
    keys derived for the category they record: [set] files a row under
    the key of the category it writes in the row, and [delete], [clear]
    and the sweep only remove rows. *)
Theorem rows_stay_tagged m now fault c key v customTTL :
  rows_tagged m ->
  rows_tagged (snd (set m now fault c key v customTTL)) /\
  rows_tagged (snd (delete m fault c key)) /\
  rows_tagged (snd (clear m fault c)) /\
  rows_tagged (cleanup m now fault).
Proof.
  intros Ht. split; [|split; [|split]].
  - unfold set. destruct (off m); [exact Ht |].
    destruct (generateKey c key) as [k|e] eqn:Hk; [|exact Ht].
    apply generateKey_Ok in Hk. destruct Hk as (text & _ & ->).
    destruct (is_remote m); simpl.
    + unfold remote_set, backend. destruct fault; simpl; [exact Ht |].
      destruct (0 <? _); simpl; exact Ht.
    + unfold backend. destruct fault; simpl; [exact Ht |].
      intros k r. simpl. rewrite lookup_insert. case_decide; [|apply Ht].
      intros [= <-]. subst k. exists text. reflexivity.
  - unfold delete. destruct (off m); [exact Ht |].
    destruct (generateKey c key) as [k|e]; [|exact Ht].
    destruct fault; simpl; [exact Ht |].
    destruct (is_remote m); [exact Ht |].
    intros k' r. simpl. rewrite lookup_delete. case_decide; [discriminate | apply Ht].
  - unfold clear. destruct (off m); [exact Ht |].
    destruct fault; simpl; [exact Ht |].
    destruct (is_remote m); [exact Ht |].
    intros k r. simpl. intros H. apply map_lookup_filter_Some in H. apply Ht, H.
  - unfold cleanup. destruct (off m); [exact Ht |].
    destruct (is_remote m); [exact Ht |].
    destruct fault; simpl; [exact Ht |].
    intros k r. simpl. intros H. apply map_lookup_filter_Some in H. apply Ht, H.
Qed.

Lemma rows_stay_tagged_witness :
  rows_tagged (snd (set sample_cache 6000 None "EcommerceHandler" (KString "abc")
                        (JBool true) (Some 60))) /\
  rows_tagged (cleanup sample_cache 6000 None).
Proof.
  destruct (rows_stay_tagged sample_cache 6000 None "EcommerceHandler" (KString "abc")
              (JBool true) (Some 60) sample_cache_tagged) as (Hset & _ & _ & Hsweep).
  split; [exact Hset | exact Hsweep].
Defined.

End CacheLifeProps.
